(** * DocumentComparison: the comparison engine and the position index

    A shallow embedding of [AdvancedDiffEngine] (the multi-pass diff engine)
    and of the position-index part of [AdvancedDocumentParser].

    Conventions of the embedding.
    - A JavaScript string is the list of its UTF-16 code units ([jsstring]);
      [length] is JavaScript's [.length] and Leibniz equality is [===].
    - Integral numbers (page and line numbers, offsets, counters used in
      arithmetic) are [Z]; array indices and counters that only count are
      [nat].  Scores are [JSNumber]: an exact rational, an infinity or NaN.
      Rounding of binary floating point is not modelled.
    - [Map] objects are [gmap]s.
    - An exception is the [Throw] case of [Result].
    - The functions of the [diff] package ([diffLines], [diffWords]) and
      [String.prototype.toUpperCase] are not part of the repository; they are
      section variables, and statements that depend on what they return say
      so in a hypothesis. *)

From Stdlib Require Import ZArith QArith Lia List String Ascii.
From stdpp Require Import base tactics option list strings gmap pretty sorting.

Local Open Scope Z_scope.

(** ** JavaScript strings *)

Definition jsstring := list N.

(** An ASCII literal as a JavaScript string. *)
Definition js (s : string) : jsstring :=
  N_of_ascii <$> list_ascii_of_string s.

Definition LF : N := 10%N.

(** Template-literal interpolation of an integral number (plain decimal
    digits, as JavaScript prints integers below 10^21 in magnitude). *)
Definition numToString (n : Z) : jsstring := js (pretty n).

(** [String.prototype.substring(start, end)]: both ends are clamped to
    [0, length] and swapped when out of order. *)
Definition clampIndex (s : jsstring) (i : Z) : nat :=
  Z.to_nat (Z.min (Z.max 0 i) (Z.of_nat (length s))).

Definition substring (s : jsstring) (from to : Z) : jsstring :=
  let a := clampIndex s from in
  let b := clampIndex s to in
  take (Nat.max a b - Nat.min a b) (drop (Nat.min a b) s).

(** White space and line terminators, as used by [\s] and by [trim]. *)
Definition isWhiteSpace (c : N) : bool :=
  bool_decide (c ∈ [9; 10; 11; 12; 13; 32; 160; 5760; 8192; 8193; 8194; 8195;
                    8196; 8197; 8198; 8199; 8200; 8201; 8202; 8232; 8233;
                    8239; 8287; 12288; 65279]%N).

Fixpoint trimStart (s : jsstring) : jsstring :=
  match s with
  | c :: s' => if isWhiteSpace c then trimStart s' else s
  | [] => []
  end.

Definition trim (s : jsstring) : jsstring :=
  reverse (trimStart (reverse (trimStart s))).

(** [content.split('\n')]. *)
Fixpoint splitLines (s : jsstring) : list jsstring :=
  match s with
  | [] => [[]]
  | c :: s' =>
      if decide (c = LF) then [] :: splitLines s'
      else match splitLines s' with
           | l :: ls => (c :: l) :: ls
           | [] => [[c]]
           end
  end.

(** [parts.join('\n')]. *)
Fixpoint joinLines (parts : list jsstring) : jsstring :=
  match parts with
  | [] => []
  | [p] => p
  | p :: ps => p ++ LF :: joinLines ps
  end.

(** [(s.match(/\n/g) || []).length]. *)
Definition countNewlines (s : jsstring) : nat :=
  length (filter (λ c, c = LF) s).

(** [s.split(/\n\s*\n/)].  A separator starts at a line feed and extends
    over the following white space up to the last line feed of that run (the
    star is greedy and backtracks to the longest match). *)
Fixpoint lastNewlineIn (run : jsstring) (pos : nat) (best : option nat) : option nat :=
  match run with
  | c :: run' =>
      if isWhiteSpace c
      then lastNewlineIn run' (S pos) (if decide (c = LF) then Some (S pos) else best)
      else best
  | [] => best
  end.

Fixpoint splitBlankLinesFrom (s cur : jsstring) (skip : nat) : list jsstring :=
  match s with
  | [] => [reverse cur]
  | c :: s' =>
      match skip with
      | S k => splitBlankLinesFrom s' cur k
      | O =>
          if decide (c = LF) then
            match lastNewlineIn s' 0 None with
            | Some n => reverse cur :: splitBlankLinesFrom s' [] n
            | None => splitBlankLinesFrom s' (c :: cur) 0
            end
          else splitBlankLinesFrom s' (c :: cur) 0
      end
  end.

Definition splitBlankLines (s : jsstring) : list jsstring :=
  splitBlankLinesFrom s [] 0.

(** ** JavaScript numbers used as scores *)

Inductive JSNumber :=
| Fin (q : Q)
| PosInf
| NegInf
| NaN.

Definition ofZ (z : Z) : JSNumber := Fin (inject_Z z).
Definition ofNat (n : nat) : JSNumber := ofZ (Z.of_nat n).

(** [a + b]; the engine only adds finite scores, the other cases follow
    IEEE 754. *)
Definition jsAdd (a b : JSNumber) : JSNumber :=
  match a, b with
  | Fin x, Fin y => Fin (Qred (x + y))
  | NaN, _ | _, NaN => NaN
  | PosInf, NegInf | NegInf, PosInf => NaN
  | PosInf, _ | _, PosInf => PosInf
  | NegInf, _ | _, NegInf => NegInf
  end.

(** [a / b] for finite operands: a zero divisor gives NaN or an infinity. *)
Definition jsDivQ (x y : Q) : JSNumber :=
  if Qeq_bool y 0 then
    match Qcompare x 0 with
    | Eq => NaN
    | Gt => PosInf
    | Lt => NegInf
    end
  else Fin (Qred (x / y)).

Definition jsDiv (a b : JSNumber) : JSNumber :=
  match a, b with
  | Fin x, Fin y => jsDivQ x y
  | NaN, _ | _, NaN => NaN
  | Fin _, _ => Fin 0
  | _, Fin y => match Qcompare y 0, a with
                | Lt, PosInf => NegInf
                | Lt, NegInf => PosInf
                | _, _ => a
                end
  | _, _ => NaN
  end.

(** [Math.max(0, x)]: NaN is contagious. *)
Definition mathMax0 (x : JSNumber) : JSNumber :=
  match x with
  | Fin q => if Qle_bool 0 q then Fin q else Fin 0
  | PosInf => PosInf
  | NegInf => Fin 0
  | NaN => NaN
  end.

(** [x || 0]: zero and NaN are falsy. *)
Definition orZero (x : JSNumber) : JSNumber :=
  match x with
  | Fin q => if Qeq_bool q 0 then Fin 0 else Fin q
  | NaN => Fin 0
  | _ => x
  end.

(** A well-defined number of the closed unit interval. *)
Definition inUnitInterval (x : JSNumber) : Prop :=
  match x with
  | Fin q => (0 <= q)%Q ∧ (q <= 1)%Q
  | _ => False
  end.

(** ** Exceptions *)

Inductive JSError :=
| TypeError (message : string).

Inductive Result (A : Type) :=
| Ok (a : A)
| Throw (e : JSError).
Arguments Ok {A} a.
Arguments Throw {A} e.

Global Instance Result_ret : MRet Result := λ A a, Ok a.
Global Instance Result_bind : MBind Result := λ A B k r,
  match r with
  | Ok a => k a
  | Throw e => Throw e
  end.

Global Instance Result_fmap : FMap Result := λ A B f r,
  match r with
  | Ok a => Ok (f a)
  | Throw e => Throw e
  end.

(** [list.forEach] with a callback that may throw, threading a state. *)
Fixpoint forEachM {A S} (step : S → A → Result S) (st : S) (l : list A) : Result S :=
  match l with
  | [] => Ok st
  | x :: l' => st' ← step st x; forEachM step st' l'
  end.

(** ** Data model ([types/advanced]) *)

Record DocumentPosition := {
  page : Z;
  line : Z;
  column : Z;
  offset : Z;
  absoluteOffset : Z;
}.

Record DocumentLine := {
  lineNumber : Z;
  lineContent : jsstring;
  startOffset : Z;
  endOffset : Z;
  linePageNumber : Z;
}.

Record DocumentPage := {
  pageNumber : Z;
  content : jsstring;
  lines : list DocumentLine;
  height : Q;
  width : Q;
  renderOffset : Z;
}.

Record DocumentSection := {
  sectionId : jsstring;
  title : jsstring;
  level : Z;
  startPosition : DocumentPosition;
  endPosition : DocumentPosition;
  sectionContent : jsstring;
}.

Record PositionIndex := {
  offsetToPosition : gmap Z DocumentPosition;
  positionToOffset : gmap jsstring Z;
  lineIndex : gmap Z DocumentLine;
  pageIndex : gmap Z DocumentPage;
}.

Record DocumentMetadata := {
  metaTitle : option jsstring;
  author : option jsstring;
  createdDate : option Z;
  modifiedDate : option Z;
  language : option jsstring;
  encoding : option jsstring;
}.

Record DocumentStructure := {
  docId : jsstring;
  docName : jsstring;
  docType : jsstring;
  docSize : Z;
  pageCount : Z;
  lineCount : Z;
  characterCount : Z;
  pages : list DocumentPage;
  sections : list DocumentSection;
  positionIndex : PositionIndex;
  metadata : DocumentMetadata;
}.

Inductive DifferenceType := addition | deletion | modification | format | structure.
Inductive Severity := low | medium | high | critical.
Inductive Category := textCategory | formatCategory | structureCategory | metadataCategory.

Global Instance DifferenceType_eq_dec : EqDecision DifferenceType.
Proof. solve_decision. Defined.
Global Instance Severity_eq_dec : EqDecision Severity.
Proof. solve_decision. Defined.
Global Instance Category_eq_dec : EqDecision Category.
Proof. solve_decision. Defined.

Record PreciseDifference := {
  diffId : jsstring;
  diffType : DifferenceType;
  severity : Severity;
  category : Category;
  description : jsstring;
  leftContent : jsstring;
  rightContent : jsstring;
  leftPosition : DocumentPosition;
  rightPosition : DocumentPosition;
  contextBefore : jsstring;
  contextAfter : jsstring;
  similarity : JSNumber;
  confidence : JSNumber;
}.

Record ComparisonStatistics := {
  totalDifferences : nat;
  additions : nat;
  deletions : nat;
  modifications : nat;
  formatChanges : nat;
  structureChanges : nat;
  criticalCount : nat;
  highCount : nat;
  mediumCount : nat;
  lowCount : nat;
  pageDistribution : gmap Z nat;
  overallSimilarity : JSNumber;
  averageConfidence : JSNumber;
}.

Record ComparisonSummary := {
  majorChanges : list jsstring;
  structuralChanges : list jsstring;
  summaryFormatChanges : list jsstring;
  recommendations : list jsstring;
}.

Record ComparisonResult := {
  differences : list PreciseDifference;
  statistics : ComparisonStatistics;
  summary : ComparisonSummary;
}.

(** One segment of an edit script of the [diff] package; an absent flag is
    falsy. *)
Record Change := {
  value : jsstring;
  added : bool;
  removed : bool;
}.

(** ** The parser's line structure and position index *)

Module AdvancedDocumentParser.

(** [textLines.forEach((lineContent, index) => ...)] of [buildLineStructure],
    from array index [index] and running offset [currentOffset]. *)
Fixpoint buildLinesFrom (textLines : list jsstring) (index : nat)
    (pageNumber currentOffset : Z) : list DocumentLine :=
  match textLines with
  | [] => []
  | lineContent :: rest =>
      {| lineNumber := Z.of_nat index + 1;
         lineContent := lineContent;
         startOffset := currentOffset;
         endOffset := currentOffset + Z.of_nat (length lineContent);
         linePageNumber := pageNumber |}
      :: buildLinesFrom rest (S index) pageNumber
           (currentOffset + Z.of_nat (length lineContent) + 1)
  end.

Definition buildLineStructure (content : jsstring) (pageNumber pageOffset : Z)
    : list DocumentLine :=
  buildLinesFrom (splitLines content) 0 pageNumber pageOffset.

(** The key of the inverse map: the template [page-line-column]. *)
Definition positionKey (position : DocumentPosition) : jsstring :=
  numToString (page position) ++ js "-" ++ numToString (line position)
    ++ js "-" ++ numToString (column position).

Definition emptyIndex : PositionIndex :=
  {| offsetToPosition := ∅; positionToOffset := ∅; lineIndex := ∅; pageIndex := ∅ |}.

(** The position recorded for character [i] of [line] on [page]. *)
Definition positionOf (page : DocumentPage) (line : DocumentLine) (i : Z)
    : DocumentPosition :=
  {| page := pageNumber page;
     line := lineNumber line;
     column := i - startOffset line + 1;
     offset := i - startOffset line;
     absoluteOffset := i |}.

(** Body of the innermost loop of [buildPositionIndex]. *)
Definition indexCharacter (page : DocumentPage) (line : DocumentLine)
    (index : PositionIndex) (i : Z) : PositionIndex :=
  let position := positionOf page line i in
  {| offsetToPosition := <[i := position]> (offsetToPosition index);
     positionToOffset := <[positionKey position := i]> (positionToOffset index);
     lineIndex := lineIndex index;
     pageIndex := pageIndex index |}.

(** The offsets visited by [for (i = startOffset; i <= endOffset; i++)]. *)
Definition lineOffsets (line : DocumentLine) : list Z :=
  seqZ (startOffset line) (endOffset line - startOffset line + 1).

Definition indexLine (page : DocumentPage) (index : PositionIndex)
    (line : DocumentLine) : PositionIndex :=
  foldl (indexCharacter page line)
    {| offsetToPosition := offsetToPosition index;
       positionToOffset := positionToOffset index;
       lineIndex := <[lineNumber line := line]> (lineIndex index);
       pageIndex := pageIndex index |}
    (lineOffsets line).

Definition indexPage (index : PositionIndex) (page : DocumentPage) : PositionIndex :=
  foldl (indexLine page)
    {| offsetToPosition := offsetToPosition index;
       positionToOffset := positionToOffset index;
       lineIndex := lineIndex index;
       pageIndex := <[pageNumber page := page]> (pageIndex index) |}
    (lines page).

Definition buildPositionIndex (pages : list DocumentPage) : PositionIndex :=
  foldl indexPage emptyIndex pages.

(** [s.indexOf(sub)]. *)
Fixpoint indexOfFrom (s sub : jsstring) (i : Z) : Z :=
  if decide (take (length sub) s = sub) then i
  else match s with
       | [] => -1
       | _ :: s' => indexOfFrom s' sub (i + 1)
       end.

Definition indexOf (s sub : jsstring) : Z := indexOfFrom s sub 0.

Definition isDigit (c : N) : bool := bool_decide (48 ≤ c ≤ 57)%N.

(** [/^\d+\./.test(s)]. *)
Fixpoint afterDigits (s : jsstring) : jsstring :=
  match s with
  | c :: s' => if isDigit c then afterDigits s' else s
  | [] => []
  end.

Definition startsWithNumberDot (s : jsstring) : bool :=
  match s with
  | c :: s' => isDigit c && bool_decide (head (afterDigits s') = Some 46%N)
  | [] => false
  end.

(** What the parser reads from a [File]. *)
Record File := {
  fileName : jsstring;
  fileType : jsstring;
  fileSize : Z;
  fileText : jsstring;
  lastModified : Z;
}.

Section Sections.
(** [String.prototype.toUpperCase]. *)
Variable toUpperCase : jsstring → jsstring.

(** The callback of [lines.forEach((line, index) => ...)] in
    [extractSections]; the state is the list built so far and the next
    section number. *)
Definition sectionOfLine (page : DocumentPage)
    (st : list DocumentSection * Z) (entry : nat * jsstring)
    : list DocumentSection * Z :=
  let '(sections, sectionId) := st in
  let '(index, line) := entry in
  if bool_decide (0 < length (trim line))%nat
     && (bool_decide (line = toUpperCase line) || startsWithNumberDot (trim line))
  then
    (sections ++ [
       {| sectionId := js "section-" ++ numToString sectionId;
          title := trim line;
          level := 1;
          startPosition :=
            {| page := pageNumber page; line := Z.of_nat index + 1; column := 1;
               offset := 0;
               absoluteOffset := renderOffset page + indexOf line (trim line) |};
          endPosition :=
            {| page := pageNumber page; line := Z.of_nat index + 1;
               column := Z.of_nat (length line);
               offset := Z.of_nat (length line) - 1;
               absoluteOffset := renderOffset page + Z.of_nat (length line) |};
          sectionContent := trim line |}],
     sectionId + 1)
  else st.

Definition extractSections (pages : list DocumentPage) : list DocumentSection :=
  fst (foldl (λ st page,
                foldl (sectionOfLine page) st (imap pair (splitLines (content page))))
             ([], 1) pages).

(** [parseTextDocument], with the identifier drawn by [parseDocument]. *)
Definition parseTextDocument (randomId : jsstring) (file : File) : DocumentStructure :=
  let content := fileText file in
  let lines := buildLineStructure content 1 0 in
  let page :=
    {| pageNumber := 1; content := content; lines := lines;
       height := 0; width := 0; renderOffset := 0 |} in
  {| docId := randomId;
     docName := fileName file;
     docType := fileType file;
     docSize := fileSize file;
     pageCount := 1;
     lineCount := Z.of_nat (length lines);
     characterCount := Z.of_nat (length content);
     pages := [page];
     sections := extractSections [page];
     positionIndex := buildPositionIndex [page];
     metadata :=
       {| metaTitle := Some (fileName file); author := None; createdDate := None;
          modifiedDate := Some (lastModified file); language := None;
          encoding := Some (js "UTF-8") |} |}.

(** The page loop of [parsePDFDocument] over the text, height and width
    extracted for each page: the state is the pages built so far, the next
    page number and the running offset. *)
Definition pdfPageStep (st : list DocumentPage * Z * Z) (extracted : jsstring * Q * Q)
    : list DocumentPage * Z * Z :=
  let '(pages, pageNum, currentOffset) := st in
  let '(pageText, pageHeight, pageWidth) := extracted in
  (pages ++ [
     {| pageNumber := pageNum; content := pageText;
        lines := buildLineStructure pageText pageNum currentOffset;
        height := pageHeight; width := pageWidth;
        renderOffset := currentOffset |}],
   pageNum + 1,
   currentOffset + Z.of_nat (length pageText) + 1).

Definition pdfPages (extracted : list (jsstring * Q * Q)) : list DocumentPage :=
  (foldl pdfPageStep ([], 1, 0) extracted).1.1.

Definition sumList (l : list nat) : nat := foldr Nat.add 0%nat l.

(** [parsePDFDocument] after text extraction. *)
Definition parsePDFDocument (randomId : jsstring) (file : File)
    (extracted : list (jsstring * Q * Q)) (meta : DocumentMetadata)
    : DocumentStructure :=
  let pages := pdfPages extracted in
  {| docId := randomId;
     docName := fileName file;
     docType := fileType file;
     docSize := fileSize file;
     pageCount := Z.of_nat (length extracted);
     lineCount := Z.of_nat (sumList ((λ p, length (lines p)) <$> pages));
     characterCount := Z.of_nat (sumList ((λ p, length (content p)) <$> pages));
     pages := pages;
     sections := extractSections pages;
     positionIndex := buildPositionIndex pages;
     metadata := meta |}.
End Sections.

(** Upper-casing restricted to the ASCII letters, for running the parser on
    ASCII text. *)
Definition asciiUpper (s : jsstring) : jsstring :=
  (λ c, if bool_decide (97 ≤ c ≤ 122)%N then (c - 32)%N else c) <$> s.

End AdvancedDocumentParser.

(** ** The diff engine *)

Module AdvancedDiffEngine.

(** Literal texts of the engine, as code units. *)

(** [新增内容: ] *)
Definition txtAddedContent : jsstring := [26032; 22686; 20869; 23481; 58; 32]%N.
(** [删除内容: ] *)
Definition txtDeletedContent : jsstring := [21024; 38500; 20869; 23481; 58; 32]%N.
(** [新增] *)
Definition txtAdded : jsstring := [26032; 22686]%N.
(** [删除] *)
Definition txtDeleted : jsstring := [21024; 38500]%N.
(** [词汇: ] *)
Definition txtWord : jsstring := [35789; 27719; 58; 32]%N.
(** [页面数量变化: ] *)
Definition txtPageCountChange : jsstring :=
  [39029; 38754; 25968; 37327; 21464; 21270; 58; 32]%N.
(** [ → ] *)
Definition txtArrow : jsstring := [32; 8594; 32]%N.
(** [ 页] *)
Definition txtPages : jsstring := [32; 39029]%N.
(** [章节] *)
Definition txtSection : jsstring := [31456; 33410]%N.
(** [文档差异较大，建议仔细审查所有变更] *)
Definition txtReviewAll : jsstring :=
  [25991; 26723; 24046; 24322; 36739; 22823; 65292; 24314; 35758; 20180; 32454;
   23457; 26597; 25152; 26377; 21464; 26356]%N.
(** [检测到结构性变化，请确认文档组织是否符合预期] *)
Definition txtStructural : jsstring :=
  [26816; 27979; 21040; 32467; 26500; 24615; 21464; 21270; 65292; 35831; 30830;
   35748; 25991; 26723; 32452; 32455; 26159; 21542; 31526; 21512; 39044; 26399]%N.
(** [存在关键性差异，需要重点关注] *)
Definition txtCritical : jsstring :=
  [23384; 22312; 20851; 38190; 24615; 24046; 24322; 65292; 38656; 35201; 37325;
   28857; 20851; 27880]%N.

(** *** Helpers *)

Definition defaultPosition : DocumentPosition :=
  {| page := 1; line := 1; column := 1; offset := 0; absoluteOffset := 0 |}.

Definition extractFullContent (doc : DocumentStructure) : jsstring :=
  joinLines (content <$> pages doc).

Definition extractParagraphs (doc : DocumentStructure) : list jsstring :=
  filter (λ para, 0 < length (trim para))%nat
         (splitBlankLines (extractFullContent doc)).

(** [array[k]]: [undefined] outside the array. *)
Definition at_ {A} (l : list A) (k : Z) : option A :=
  if decide (0 ≤ k) then l !! Z.to_nat k else None.

(** The [for ... of] loop of [findPositionByLineIndex]; reading a property of
    an [undefined] line throws. *)
Fixpoint findPositionFrom (pages : list DocumentPage) (lineIndex currentLine : Z)
    : Result DocumentPosition :=
  match pages with
  | [] => Ok defaultPosition
  | page :: rest =>
      if decide (lineIndex < currentLine + Z.of_nat (length (lines page))) then
        let pageLineIndex := lineIndex - currentLine in
        match at_ (lines page) pageLineIndex with
        | Some line =>
            Ok {| page := pageNumber page; line := lineNumber line; column := 1;
                  offset := 0; absoluteOffset := startOffset line |}
        | None =>
            Throw (TypeError "Cannot read properties of undefined (reading 'lineNumber')")
        end
      else findPositionFrom rest lineIndex (currentLine + Z.of_nat (length (lines page)))
  end.

Definition findPositionByLineIndex (doc : DocumentStructure) (lineIndex : Z)
    : Result DocumentPosition :=
  findPositionFrom (pages doc) lineIndex 0.

Definition findPositionByContent (doc : DocumentStructure) (content : jsstring)
    (paragraphIndex : nat) : DocumentPosition :=
  {| page := 1; line := Z.of_nat paragraphIndex + 1; column := 1; offset := 0;
     absoluteOffset := 0 |}.

Definition getContextBefore (doc : DocumentStructure) (position : DocumentPosition)
    : jsstring := [].

Definition getContextAfter (doc : DocumentStructure) (position : DocumentPosition)
    : jsstring := [].

Definition getWordContext (text : jsstring) (position length : Z) : jsstring :=
  let start := Z.max 0 (position + (if decide (length < 0) then length else 0)) in
  let end_ := Z.min (Z.of_nat (List.length text))
                    (position + (if decide (0 < length) then length else 0)) in
  substring text start end_.

Definition calculateSeverity (content : jsstring) : Severity :=
  let length := length (trim content) in
  let lineCount := countNewlines content in
  if decide (10 < lineCount ∨ 500 < length)%nat then critical
  else if decide (5 < lineCount ∨ 200 < length)%nat then high
  else if decide (1 < lineCount ∨ 50 < length)%nat then medium
  else low.

Definition calculateWordSeverity (word : jsstring) : Severity :=
  if decide (20 < length word)%nat then medium else low.

(** The matrix of [levenshteinDistance]: row [i] starts as [[i]] and is
    extended to the right, one cell for each character of [str1]. *)
Definition min3 (a b c : nat) : nat := Nat.min (Nat.min a b) c.

Fixpoint fillRow (str1 : jsstring) (c2 : N) (prev row : list nat) (j : nat) : list nat :=
  match str1 with
  | [] => row
  | c1 :: rest =>
      let cell :=
        (if decide (c2 = c1) then nth (j - 1) prev 0
         else min3 (nth (j - 1) prev 0 + 1) (nth (j - 1) row 0 + 1)
                   (nth j prev 0 + 1))%nat in
      fillRow rest c2 prev (row ++ [cell]) (S j)
  end.

Fixpoint fillMatrix (str1 str2 : jsstring) (matrix : list (list nat)) (i : nat)
    : list (list nat) :=
  match str2 with
  | [] => matrix
  | c2 :: rest =>
      fillMatrix str1 rest
        (matrix ++ [fillRow str1 c2 (nth (i - 1)%nat matrix []) [i] 1%nat]) (S i)
  end.

Definition levenshteinDistance (str1 str2 : jsstring) : nat :=
  let matrix := fillMatrix str1 str2 [seq 0 (S (length str1))] 1%nat in
  nth (length str1) (nth (length str2) matrix []) 0%nat.

Definition calculateWordSimilarity (left right : jsstring) : JSNumber :=
  let longer := if decide (length right < length left)%nat then left else right in
  let shorter := if decide (length right < length left)%nat then right else left in
  if decide (length longer = 0%nat) then Fin 1
  else
    let editDistance := levenshteinDistance longer shorter in
    jsDiv (ofZ (Z.of_nat (length longer) - Z.of_nat editDistance))
          (ofNat (length longer)).

(** *** The optimizer *)

(** [array.findIndex(p)], [-1] when no element satisfies [p]. *)
Fixpoint findIndexFrom {A} (p : A → bool) (l : list A) (i : Z) : Z :=
  match l with
  | [] => -1
  | x :: l' => if p x then i else findIndexFrom p l' (i + 1)
  end.

Definition findIndex {A} (p : A → bool) (l : list A) : Z := findIndexFrom p l 0.

(** [array.filter((x, index, array) => keep x index array)]. *)
Fixpoint filterFrom {A} (keep : A → Z → bool) (l : list A) (index : Z) : list A :=
  match l with
  | [] => []
  | x :: l' =>
      if keep x index then x :: filterFrom keep l' (index + 1)
      else filterFrom keep l' (index + 1)
  end.

(** [Array.prototype.sort(compare)].  ECMAScript requires the sort to be
    stable; for a consistent comparator the result is then determined, and
    insertion from the right computes it. *)
Fixpoint sortInsert {A} (compare : A → A → Z) (x : A) (l : list A) : list A :=
  match l with
  | [] => [x]
  | y :: l' => if decide (compare x y ≤ 0) then x :: l else y :: sortInsert compare x l'
  end.

Fixpoint jsSort {A} (compare : A → A → Z) (l : list A) : list A :=
  match l with
  | [] => []
  | x :: l' => sortInsert compare x (jsSort compare l')
  end.

Definition sameContent (diff d : PreciseDifference) : bool :=
  bool_decide (leftContent d = leftContent diff)
  && bool_decide (rightContent d = rightContent diff).

Definition uniqueDifferences (differences : list PreciseDifference)
    : list PreciseDifference :=
  filterFrom (λ diff index,
                bool_decide (findIndex (sameContent diff) differences = index))
             differences 0.

Definition comparePositions (a b : PreciseDifference) : Z :=
  if decide (page (leftPosition a) ≠ page (leftPosition b)) then
    page (leftPosition a) - page (leftPosition b)
  else if decide (line (leftPosition a) ≠ line (leftPosition b)) then
    line (leftPosition a) - line (leftPosition b)
  else column (leftPosition a) - column (leftPosition b).

Definition optimizeDifferences (differences : list PreciseDifference)
    : list PreciseDifference :=
  jsSort comparePositions (uniqueDifferences differences).

(** *** Statistics and summary *)

Definition countWhere (p : PreciseDifference → bool)
    (differences : list PreciseDifference) : nat :=
  length (filter (λ d, p d = true) differences).

(** [pageDistribution.set(page, (pageDistribution.get(page) || 0) + 1)]. *)
Definition countPage (m : gmap Z nat) (diff : PreciseDifference) : gmap Z nat :=
  <[page (leftPosition diff) := (default 0 (m !! page (leftPosition diff)) + 1)%nat]> m.

Definition changedChars (differences : list PreciseDifference) : Z :=
  foldl (λ sum diff,
           sum + Z.max (Z.of_nat (length (leftContent diff)))
                       (Z.of_nat (length (rightContent diff))))
        0 differences.

Definition calculateStatistics (differences : list PreciseDifference)
    (leftDoc rightDoc : DocumentStructure) : ComparisonStatistics :=
  let totalChars := Z.max (characterCount leftDoc) (characterCount rightDoc) in
  {| totalDifferences := length differences;
     additions := countWhere (λ d, bool_decide (diffType d = addition)) differences;
     deletions := countWhere (λ d, bool_decide (diffType d = deletion)) differences;
     modifications := countWhere (λ d, bool_decide (diffType d = modification)) differences;
     formatChanges := countWhere (λ d, bool_decide (category d = formatCategory)) differences;
     structureChanges :=
       countWhere (λ d, bool_decide (category d = structureCategory)) differences;
     criticalCount := countWhere (λ d, bool_decide (severity d = critical)) differences;
     highCount := countWhere (λ d, bool_decide (severity d = high)) differences;
     mediumCount := countWhere (λ d, bool_decide (severity d = medium)) differences;
     lowCount := countWhere (λ d, bool_decide (severity d = low)) differences;
     pageDistribution := foldl countPage ∅ differences;
     overallSimilarity :=
       mathMax0 (jsDiv (ofZ (totalChars - changedChars differences)) (ofZ totalChars));
     averageConfidence :=
       orZero (jsDiv (foldl (λ sum diff, jsAdd sum (confidence diff)) (Fin 0) differences)
                     (ofNat (length differences))) |}.

(** [x < 0.5]; false for NaN. *)
Definition belowHalf (x : JSNumber) : bool :=
  match x with
  | Fin q => negb (Qle_bool (1 # 2) q)
  | NegInf => true
  | _ => false
  end.

Definition generateSummary (differences : list PreciseDifference)
    (statistics : ComparisonStatistics) : ComparisonSummary :=
  {| majorChanges :=
       description <$> take 5 (filter (λ d, severity d = high ∨ severity d = critical)
                                      differences);
     structuralChanges :=
       description <$> filter (λ d, category d = structureCategory) differences;
     summaryFormatChanges :=
       description <$> filter (λ d, category d = formatCategory) differences;
     recommendations :=
       (if belowHalf (overallSimilarity statistics) then [txtReviewAll] else [])
       ++ (if decide (0 < structureChanges statistics)%nat then [txtStructural] else [])
       ++ (if decide (0 < criticalCount statistics)%nat then [txtCritical] else []) |}.

(** *** The differs *)

(** A method taking the arguments of the call on line 79 of the engine. *)
Definition WordLevelMethod : Type :=
  jsstring → jsstring → Z → Z → DocumentStructure → DocumentStructure
  → list PreciseDifference.

(** [AdvancedDiffEngine.detectWordLevelChanges]: the class declares no member
    of this name, so the property read yields [undefined]. *)
Definition detectWordLevelChanges : option WordLevelMethod := None.

(** Calling the value of a property: [undefined] is not callable. *)
Definition callMethod {A} (method : option A) (name : string) : Result A :=
  match method with
  | Some f => Ok f
  | None => Throw (TypeError (name +:+ " is not a function"))
  end.

(** State of the [forEach] of [detectLineDifferences]. *)
Record LineState := {
  lineDiffs : list PreciseDifference;
  leftLineIndex : Z;
  rightLineIndex : Z;
  diffIndex : Z;
}.

Definition lineAddition (rightDoc : DocumentStructure) (part : Change)
    (rightPosition : DocumentPosition) (diffIndex : Z) : PreciseDifference :=
  {| diffId := js "line-add-" ++ numToString diffIndex;
     diffType := addition;
     severity := calculateSeverity (value part);
     category := textCategory;
     description := txtAddedContent ++ substring (value part) 0 50 ++ js "...";
     leftContent := [];
     rightContent := value part;
     leftPosition := rightPosition;
     rightPosition := rightPosition;
     contextBefore := getContextBefore rightDoc rightPosition;
     contextAfter := getContextAfter rightDoc rightPosition;
     similarity := Fin 0;
     confidence := Fin (9 # 10) |}.

Definition lineDeletion (leftDoc : DocumentStructure) (part : Change)
    (leftPosition : DocumentPosition) (diffIndex : Z) : PreciseDifference :=
  {| diffId := js "line-del-" ++ numToString diffIndex;
     diffType := deletion;
     severity := calculateSeverity (value part);
     category := textCategory;
     description := txtDeletedContent ++ substring (value part) 0 50 ++ js "...";
     leftContent := value part;
     rightContent := [];
     leftPosition := leftPosition;
     rightPosition := leftPosition;
     contextBefore := getContextBefore leftDoc leftPosition;
     contextAfter := getContextAfter leftDoc leftPosition;
     similarity := Fin 0;
     confidence := Fin (9 # 10) |}.

(** The callback of [lineDiffs.forEach]. *)
Definition lineStep (leftDoc rightDoc : DocumentStructure) (st : LineState)
    (part : Change) : Result LineState :=
  if added part then
    rightPosition ← findPositionByLineIndex rightDoc (rightLineIndex st);
    Ok {| lineDiffs := lineDiffs st
                       ++ [lineAddition rightDoc part rightPosition (diffIndex st)];
          leftLineIndex := leftLineIndex st;
          rightLineIndex := rightLineIndex st + Z.of_nat (countNewlines (value part));
          diffIndex := diffIndex st + 1 |}
  else if removed part then
    leftPosition ← findPositionByLineIndex leftDoc (leftLineIndex st);
    Ok {| lineDiffs := lineDiffs st
                       ++ [lineDeletion leftDoc part leftPosition (diffIndex st)];
          leftLineIndex := leftLineIndex st + Z.of_nat (countNewlines (value part));
          rightLineIndex := rightLineIndex st;
          diffIndex := diffIndex st + 1 |}
  else
    method ← callMethod detectWordLevelChanges "this.detectWordLevelChanges";
    let wordDiffs :=
      method (value part) (value part) (leftLineIndex st) (rightLineIndex st)
             leftDoc rightDoc in
    let lineCount := Z.of_nat (countNewlines (value part)) in
    Ok {| lineDiffs := lineDiffs st ++ wordDiffs;
          leftLineIndex := leftLineIndex st + lineCount;
          rightLineIndex := rightLineIndex st + lineCount;
          diffIndex := diffIndex st |}.

(** The difference pushed for an added or removed part of a paragraph. *)
Definition wordDifference (leftDoc rightDoc : DocumentStructure)
    (leftPara rightPara : jsstring) (i index : nat) (wordIndex : Z) (part : Change)
    : PreciseDifference :=
  let position :=
    findPositionByContent (if added part then rightDoc else leftDoc) (value part) i in
  {| diffId := js "word-" ++ (if added part then js "add" else js "del") ++ js "-"
               ++ numToString (Z.of_nat i) ++ js "-" ++ numToString (Z.of_nat index);
     diffType := if added part then addition else deletion;
     severity := calculateWordSeverity (value part);
     category := textCategory;
     description := (if added part then txtAdded else txtDeleted) ++ txtWord ++ value part;
     leftContent := if removed part then value part else [];
     rightContent := if added part then value part else [];
     leftPosition := position;
     rightPosition := position;
     contextBefore := getWordContext leftPara wordIndex (-10);
     contextAfter :=
       getWordContext leftPara (wordIndex + Z.of_nat (length (value part))) 10;
     similarity := calculateWordSimilarity leftPara rightPara;
     confidence := Fin (8 # 10) |}.

(** The callback of [wordDiffs.forEach((part, index) => ...)]: the state is
    the differences pushed so far, the array index and [wordIndex]. *)
Definition wordStep (leftDoc rightDoc : DocumentStructure)
    (leftPara rightPara : jsstring) (i : nat)
    (st : list PreciseDifference * nat * Z) (part : Change)
    : list PreciseDifference * nat * Z :=
  let '(differences, index, wordIndex) := st in
  ((if added part || removed part
    then differences
         ++ [wordDifference leftDoc rightDoc leftPara rightPara i index wordIndex part]
    else differences),
   S index,
   wordIndex + Z.of_nat (length (value part))).

Definition sectionDifference (part : Change) (sectionIndex : Z) : PreciseDifference :=
  {| diffId := js "struct-section-" ++ numToString sectionIndex;
     diffType := if added part then addition else deletion;
     severity := medium;
     category := structureCategory;
     description := txtSection ++ (if added part then txtAdded else txtDeleted)
                    ++ js ": " ++ value part;
     leftContent := if removed part then value part else [];
     rightContent := if added part then value part else [];
     leftPosition := defaultPosition;
     rightPosition := defaultPosition;
     contextBefore := [];
     contextAfter := [];
     similarity := Fin 0;
     confidence := Fin (9 # 10) |}.

Definition pageCountDifference (leftDoc rightDoc : DocumentStructure)
    : PreciseDifference :=
  {| diffId := js "struct-page-count";
     diffType := structure;
     severity := high;
     category := structureCategory;
     description := txtPageCountChange ++ numToString (pageCount leftDoc) ++ txtArrow
                    ++ numToString (pageCount rightDoc);
     leftContent := numToString (pageCount leftDoc) ++ txtPages;
     rightContent := numToString (pageCount rightDoc) ++ txtPages;
     leftPosition := defaultPosition;
     rightPosition := defaultPosition;
     contextBefore := [];
     contextAfter := [];
     similarity := Fin (1 # 2);
     confidence := Fin 1 |}.

(** The callback of [sectionDiffs.forEach]. *)
Definition sectionStep (st : list PreciseDifference * Z) (part : Change)
    : list PreciseDifference * Z :=
  let '(differences, sectionIndex) := st in
  if added part || removed part
  then (differences ++ [sectionDifference part sectionIndex], sectionIndex + 1)
  else st.

Section Differs.
(** [diffLines] and [diffWords] of the [diff] package. *)
Variables diffLines diffWords : jsstring → jsstring → list Change.

Definition detectLineDifferences (leftDoc rightDoc : DocumentStructure)
    : Result (list PreciseDifference) :=
  let leftContent := extractFullContent leftDoc in
  let rightContent := extractFullContent rightDoc in
  st ← forEachM (lineStep leftDoc rightDoc)
         {| lineDiffs := []; leftLineIndex := 0; rightLineIndex := 0; diffIndex := 0 |}
         (diffLines leftContent rightContent);
  Ok (lineDiffs st).

(** Body of [for (let i = 0; i < maxLength; i++)] of [detectWordDifferences]. *)
Definition paragraphStep (leftDoc rightDoc : DocumentStructure)
    (leftParagraphs rightParagraphs : list jsstring)
    (differences : list PreciseDifference) (i : nat) : list PreciseDifference :=
  let leftPara := default [] (leftParagraphs !! i) in
  let rightPara := default [] (rightParagraphs !! i) in
  if decide (leftPara ≠ rightPara) then
    (foldl (wordStep leftDoc rightDoc leftPara rightPara i)
           (differences, 0%nat, 0) (diffWords leftPara rightPara)).1.1
  else differences.

Definition detectWordDifferences (leftDoc rightDoc : DocumentStructure)
    : list PreciseDifference :=
  let leftParagraphs := extractParagraphs leftDoc in
  let rightParagraphs := extractParagraphs rightDoc in
  let maxLength := Nat.max (length leftParagraphs) (length rightParagraphs) in
  foldl (paragraphStep leftDoc rightDoc leftParagraphs rightParagraphs)
        [] (seq 0 maxLength).

Definition detectStructuralDifferences (leftDoc rightDoc : DocumentStructure)
    : list PreciseDifference :=
  let differences :=
    if decide (pageCount leftDoc ≠ pageCount rightDoc)
    then [pageCountDifference leftDoc rightDoc] else [] in
  let leftSections := title <$> sections leftDoc in
  let rightSections := title <$> sections rightDoc in
  let sectionDiffs := diffLines (joinLines leftSections) (joinLines rightSections) in
  (foldl sectionStep (differences, 0) sectionDiffs).1.

Definition compareDocuments (leftDoc rightDoc : DocumentStructure)
    : Result ComparisonResult :=
  lineDifferences ← detectLineDifferences leftDoc rightDoc;
  let wordDifferences := detectWordDifferences leftDoc rightDoc in
  let structuralDifferences := detectStructuralDifferences leftDoc rightDoc in
  let differences := lineDifferences ++ wordDifferences ++ structuralDifferences in
  let optimizedDifferences := optimizeDifferences differences in
  let statistics := calculateStatistics optimizedDifferences leftDoc rightDoc in
  let summary := generateSummary optimizedDifferences statistics in
  Ok {| differences := optimizedDifferences;
        statistics := statistics;
        summary := summary |}.
End Differs.

End AdvancedDiffEngine.

(** ** A reference edit script

    A small longest-common-subsequence differ over line and word tokens with
    the interface of the [diff] package.  It stands in for the package when
    the engine is run on concrete documents. *)

Module ReferenceDiff.

Inductive Edit := Keep | Ins | Del.

Global Instance Edit_eq_dec : EqDecision Edit.
Proof. solve_decision. Defined.

Definition cost (script : list (Edit * jsstring)) : nat :=
  length (filter (λ e, e.1 ≠ Keep) script).

Fixpoint editScript (xs : list jsstring) : list jsstring → list (Edit * jsstring) :=
  fix go (ys : list jsstring) : list (Edit * jsstring) :=
    match xs, ys with
    | [], _ => (λ y, (Ins, y)) <$> ys
    | _, [] => (λ x, (Del, x)) <$> xs
    | x :: xs', y :: ys' =>
        if decide (x = y) then (Keep, x) :: editScript xs' ys'
        else
          let viaDel := (Del, x) :: editScript xs' ys in
          let viaIns := (Ins, y) :: go ys' in
          if decide (cost viaDel ≤ cost viaIns)%nat then viaDel else viaIns
    end.

Definition changeOf (e : Edit) (text : jsstring) : Change :=
  {| value := text;
     added := bool_decide (e = Ins);
     removed := bool_decide (e = Del) |}.

(** Adjacent tokens with the same tag form one part. *)
Fixpoint group (script : list (Edit * jsstring)) : list Change :=
  match script with
  | [] => []
  | (e, text) :: rest =>
      match group rest with
      | part :: parts =>
          if decide (head rest.*1 = Some e) then changeOf e (text ++ value part) :: parts
          else changeOf e text :: part :: parts
      | [] => [changeOf e text]
      end
  end.

(** Lines, each with its line feed. *)
Fixpoint lineTokensFrom (s cur : jsstring) : list jsstring :=
  match s with
  | [] => if decide (cur = []) then [] else [reverse cur]
  | c :: s' =>
      if decide (c = LF) then reverse (c :: cur) :: lineTokensFrom s' []
      else lineTokensFrom s' (c :: cur)
  end.

(** Maximal runs of white space and of other characters. *)
Fixpoint wordTokensFrom (s cur : jsstring) (space : bool) : list jsstring :=
  match s with
  | [] => if decide (cur = []) then [] else [reverse cur]
  | c :: s' =>
      if decide (cur = []) then wordTokensFrom s' [c] (isWhiteSpace c)
      else if bool_decide (isWhiteSpace c = space) then wordTokensFrom s' (c :: cur) space
      else reverse cur :: wordTokensFrom s' [c] (isWhiteSpace c)
  end.

Definition diffLines (old new : jsstring) : list Change :=
  group (editScript (lineTokensFrom old []) (lineTokensFrom new [])).

Definition diffWords (old new : jsstring) : list Change :=
  group (editScript (wordTokensFrom old [] false) (wordTokensFrom new [] false)).

End ReferenceDiff.

(** * Vocabulary of the statements *)

Import AdvancedDocumentParser AdvancedDiffEngine.

(** A plain-text document with the given content. *)
Definition textDocument (text : jsstring) : DocumentStructure :=
  parseTextDocument asciiUpper (js "k3x91mzqa")
    {| fileName := js "a.txt"; fileType := js "text/plain";
       fileSize := Z.of_nat (length text); fileText := text; lastModified := 0 |}.

(** The lines of a document in reading order, each with its page. *)
Definition allLines (pages : list DocumentPage) : list (DocumentPage * DocumentLine) :=
  pages ≫= λ page, (λ line, (page, line)) <$> lines page.

(** The position that [findPositionByLineIndex] builds for a line. *)
Definition lineStartPosition (entry : DocumentPage * DocumentLine) : DocumentPosition :=
  {| page := pageNumber entry.1; line := lineNumber entry.2; column := 1;
     offset := 0; absoluteOffset := startOffset entry.2 |}.

(** The pair of contents that decides whether two differences are duplicates. *)
Definition contentKey (d : PreciseDifference) : jsstring * jsstring :=
  (leftContent d, rightContent d).

(** The deduplication rule in the words of the design: going through the
    differences in input order, a difference is kept when no earlier one had
    the same pair of contents, and dropped otherwise. *)
Fixpoint keepFirstByContent (seen : list (jsstring * jsstring))
    (differences : list PreciseDifference) : list PreciseDifference :=
  match differences with
  | [] => []
  | d :: rest =>
      if decide (contentKey d ∈ seen) then keepFirstByContent seen rest
      else d :: keepFirstByContent (contentKey d :: seen) rest
  end.

(** The sort key of a difference and the ascending order on keys. *)
Definition sortKey (d : PreciseDifference) : Z * Z * Z :=
  (page (leftPosition d), line (leftPosition d), column (leftPosition d)).

(** Lexicographic order on (page, line, column). *)
Definition keyLe (a b : Z * Z * Z) : Prop :=
  a.1.1 < b.1.1
  ∨ (a.1.1 = b.1.1 ∧ (a.1.2 < b.1.2 ∨ (a.1.2 = b.1.2 ∧ a.2 ≤ b.2))).

(** The order in which the comparator of the optimizer puts two differences. *)
Definition positionOrder (a b : PreciseDifference) : Prop :=
  keyLe (sortKey a) (sortKey b).

(** The token run that a word-level difference reports: the right content of
    an addition, the left content of a deletion. *)
Definition changedRun (d : PreciseDifference) : jsstring :=
  match diffType d with
  | addition => rightContent d
  | _ => leftContent d
  end.

(** A difference reports one position for both sides. *)
Definition sharesPosition (d : PreciseDifference) : Prop :=
  leftPosition d = rightPosition d.

(** The single part that the [diff] package reports for two equal inputs. *)
Definition unchangedPart (text : jsstring) : Change :=
  {| value := text; added := false; removed := false |}.

(** The code units of the decimal digits and of the minus sign. *)
Definition digitUnit (c : N) : Prop := (48 ≤ c ≤ 57)%N.
Definition dashUnit : N := 45%N.

(** One iteration of the character loop of [buildPositionIndex]: the page,
    the line and the offset [i]. *)
Definition IndexWrite : Type := DocumentPage * DocumentLine * Z.

Definition writePosition (w : IndexWrite) : DocumentPosition :=
  positionOf w.1.1 w.1.2 w.2.

(** The iterations of the loops of [buildPositionIndex], in execution order. *)
Definition lineWrites (page : DocumentPage) (line : DocumentLine) : list IndexWrite :=
  (λ i, (page, line, i)) <$> lineOffsets line.

Definition pageWrites (page : DocumentPage) : list IndexWrite :=
  lines page ≫= lineWrites page.

Definition allWrites (pages : list DocumentPage) : list IndexWrite :=
  pages ≫= pageWrites.

(** The two maps of an index that the character loop updates. *)
Definition offsetMaps (index : PositionIndex)
    : gmap Z DocumentPosition * gmap jsstring Z :=
  (offsetToPosition index, positionToOffset index).

(** The effect of one iteration on the two maps. *)
Definition applyWrite (m : gmap Z DocumentPosition * gmap jsstring Z) (w : IndexWrite)
    : gmap Z DocumentPosition * gmap jsstring Z :=
  (<[w.2 := writePosition w]> m.1, <[positionKey (writePosition w) := w.2]> m.2).

(** An offset is valid in a document when one of its lines covers it. *)
Definition validOffset (pages : list DocumentPage) (o : Z) : Prop :=
  ∃ page line, page ∈ pages ∧ line ∈ lines page
               ∧ startOffset line ≤ o ≤ endOffset line.

(** Pages as the data model has them: page numbers are unique, and so are
    the line numbers within a page. *)
Definition uniqueNumbering (pages : list DocumentPage) : Prop :=
  NoDup (pageNumber <$> pages)
  ∧ Forall (λ page, NoDup (lineNumber <$> lines page)) pages.

(** The offsets that a list of lines occupies, line feeds included. *)
Definition span (textLines : list jsstring) : nat :=
  sumList ((λ l, S (length l)) <$> textLines).

(** Every cell of row [i] is bounded by the larger of its two indices. *)
Definition rowBounded (i : nat) (row : list nat) : Prop :=
  ∀ j, (nth j row 0 ≤ Nat.max i j)%nat.

(** Similarity and confidence of a difference are in the unit interval. *)
Definition scoresBounded (d : PreciseDifference) : Prop :=
  inUnitInterval (similarity d) ∧ inUnitInterval (confidence d).

(** The error raised by calling the missing method. *)
Definition undefinedMethod : JSError :=
  TypeError "this.detectWordLevelChanges is not a function".

(** A part of an edit script that is neither added nor removed. *)
Definition isUnchanged (part : Change) : Prop :=
  added part = false ∧ removed part = false.

Global Instance isUnchanged_dec part : Decision (isUnchanged part).
Proof. unfold isUnchanged. apply _. Defined.

(** The edit distance by the usual recursion on the last characters of two
    strings (equal last characters cost nothing; otherwise one more than the
    cheapest of substitution, insertion and deletion).  The arguments are
    the two strings reversed, so that the last character is the head. *)
Fixpoint editDistance (ra : jsstring) : jsstring → nat :=
  fix go (rb : jsstring) : nat :=
    match ra, rb with
    | [], _ => length rb
    | _, [] => length ra
    | x :: ra', y :: rb' =>
        if decide (x = y) then editDistance ra' rb'
        else S (min3 (editDistance ra' rb') (editDistance ra' rb) (go rb'))
    end.

(** The number of differences reported on a page. *)
Definition differencesOnPage (p : Z) (differences : list PreciseDifference) : nat :=
  length (filter (λ d, page (leftPosition d) = p) differences).

(** The types and categories that the three differs assign. *)
Definition emittedKind (d : PreciseDifference) : Prop :=
  (diffType d = addition ∨ diffType d = deletion ∨ diffType d = structure)
  ∧ (category d = textCategory ∨ category d = structureCategory).

(** What an identifier of a difference is built from: the counter of the
    line-level differ, the paragraph and part indices of the word-level
    differ, and the section counter of the structural differ. *)
Inductive IdTag :=
| LineTag (isAdded : bool) (k : Z)
| WordTag (isAdded : bool) (i index : nat)
| PageCountTag
| SectionTag (k : Z).

(** The identifier templates of the three differs. *)
Definition encodeId (t : IdTag) : jsstring :=
  match t with
  | LineTag b k => (if b then js "line-add-" else js "line-del-") ++ numToString k
  | WordTag b i index =>
      js "word-" ++ (if b then js "add" else js "del") ++ js "-"
      ++ numToString (Z.of_nat i) ++ js "-" ++ numToString (Z.of_nat index)
  | PageCountTag => js "struct-page-count"
  | SectionTag k => js "struct-section-" ++ numToString k
  end.

(** The differ a tag belongs to, and the counters it carries. *)
Definition tagClass (t : IdTag) : nat :=
  match t with
  | LineTag _ _ => 0
  | WordTag _ _ _ => 1
  | PageCountTag => 2
  | SectionTag _ => 3
  end%nat.

Definition tagNumber (t : IdTag) : Z :=
  match t with
  | LineTag _ k | SectionTag k => k
  | _ => 0
  end.

Definition tagPair (t : IdTag) : nat * nat :=
  match t with
  | WordTag _ i index => (i, index)
  | _ => (0, 0)%nat
  end.

(** The pages of a PDF document by recursion on the extracted texts, from
    page number [pageNum] and offset [currentOffset]. *)
Fixpoint pdfPagesFrom (extracted : list (jsstring * Q * Q)) (pageNum currentOffset : Z)
    : list DocumentPage :=
  match extracted with
  | [] => []
  | (pageText, pageHeight, pageWidth) :: rest =>
      {| pageNumber := pageNum; content := pageText;
         lines := buildLineStructure pageText pageNum currentOffset;
         height := pageHeight; width := pageWidth;
         renderOffset := currentOffset |}
      :: pdfPagesFrom rest (pageNum + 1)
           (currentOffset + Z.of_nat (length pageText) + 1)
  end.

(** A property of the sections that [extractSections] builds. *)
Definition sectionShape (s : DocumentSection) : Prop :=
  title s ≠ [] ∧ sectionContent s = title s ∧ level s = 1
  ∧ column (startPosition s) = 1
  ∧ page (endPosition s) = page (startPosition s)
  ∧ line (endPosition s) = line (startPosition s).


(** The test of [extractSections] for a heading line. *)
Definition isHeading (toUpperCase : jsstring → jsstring) (line : jsstring) : bool :=
  bool_decide (0 < length (trim line))%nat
  && (bool_decide (line = toUpperCase line) || startsWithNumberDot (trim line)).

(** The text lines of all pages, in reading order. *)
Definition textLinesOf (pages : list DocumentPage) : list jsstring :=
  pages ≫= (λ page, splitLines (content page)).

(** * The hook useAdvancedComparison

    The state of the hook is the tuple of its [useState] cells.  A callback
    is modelled as the function from the state of the render that created it
    to the state after its updates have been applied, for a call made during
    that render: the values the callback reads from its closure are those of
    the state it updates.  The two fields of [isLoading] and [errors] named
    left and right in the source are [leftLoading], [rightLoading],
    [leftError] and [rightError] here, [comparison] of [errors] is
    [comparisonError]. *)
Module useAdvancedComparison.

Record IsLoading := {
  leftLoading : bool;
  rightLoading : bool;
  comparing : bool;
}.

Record Errors := {
  leftError : option string;
  rightError : option string;
  comparisonError : option string;
}.

Record ViewportState := {
  leftScrollTop : Q;
  rightScrollTop : Q;
  leftVisibleRange : Z * Z;
  rightVisibleRange : Z * Z;
  selectedDifference : option jsstring;
  highlightedDifferences : list jsstring;
  syncScrolling : bool;
  zoomLevel : Z;
}.

Record NavigationState := {
  currentDifferenceIndex : Z;
  totalDifferences : Z;
  navigationHistory : list jsstring;
  bookmarks : list jsstring;
}.

Record HookState := {
  leftDocument : option DocumentStructure;
  rightDocument : option DocumentStructure;
  comparisonResult : option ComparisonResult;
  isLoading : IsLoading;
  errors : Errors;
  viewportState : ViewportState;
  navigationState : NavigationState;
}.

Definition initialViewportState : ViewportState :=
  {| leftScrollTop := 0; rightScrollTop := 0;
     leftVisibleRange := (0, 0); rightVisibleRange := (0, 0);
     selectedDifference := None; highlightedDifferences := [];
     syncScrolling := true; zoomLevel := 100 |}.

Definition initialNavigationState : NavigationState :=
  {| currentDifferenceIndex := -1; totalDifferences := 0;
     navigationHistory := []; bookmarks := [] |}.

Definition initialState : HookState :=
  {| leftDocument := None; rightDocument := None; comparisonResult := None;
     isLoading := {| leftLoading := false; rightLoading := false; comparing := false |};
     errors := {| leftError := None; rightError := None; comparisonError := None |};
     viewportState := initialViewportState;
     navigationState := initialNavigationState |}.

(** The state setters returned by [useState]. *)
Definition setLeftDocument (document : option DocumentStructure) (st : HookState)
    : HookState :=
  {| leftDocument := document; rightDocument := rightDocument st;
     comparisonResult := comparisonResult st; isLoading := isLoading st;
     errors := errors st; viewportState := viewportState st;
     navigationState := navigationState st |}.

Definition setRightDocument (document : option DocumentStructure) (st : HookState)
    : HookState :=
  {| leftDocument := leftDocument st; rightDocument := document;
     comparisonResult := comparisonResult st; isLoading := isLoading st;
     errors := errors st; viewportState := viewportState st;
     navigationState := navigationState st |}.

Definition setComparisonResult (result : option ComparisonResult) (st : HookState)
    : HookState :=
  {| leftDocument := leftDocument st; rightDocument := rightDocument st;
     comparisonResult := result; isLoading := isLoading st;
     errors := errors st; viewportState := viewportState st;
     navigationState := navigationState st |}.

Definition setIsLoading (update : IsLoading → IsLoading) (st : HookState) : HookState :=
  {| leftDocument := leftDocument st; rightDocument := rightDocument st;
     comparisonResult := comparisonResult st; isLoading := update (isLoading st);
     errors := errors st; viewportState := viewportState st;
     navigationState := navigationState st |}.

Definition setErrors (update : Errors → Errors) (st : HookState) : HookState :=
  {| leftDocument := leftDocument st; rightDocument := rightDocument st;
     comparisonResult := comparisonResult st; isLoading := isLoading st;
     errors := update (errors st); viewportState := viewportState st;
     navigationState := navigationState st |}.

Definition setViewportState (update : ViewportState → ViewportState) (st : HookState)
    : HookState :=
  {| leftDocument := leftDocument st; rightDocument := rightDocument st;
     comparisonResult := comparisonResult st; isLoading := isLoading st;
     errors := errors st; viewportState := update (viewportState st);
     navigationState := navigationState st |}.

Definition setNavigationState (update : NavigationState → NavigationState)
    (st : HookState) : HookState :=
  {| leftDocument := leftDocument st; rightDocument := rightDocument st;
     comparisonResult := comparisonResult st; isLoading := isLoading st;
     errors := errors st; viewportState := viewportState st;
     navigationState := update (navigationState st) |}.

Inductive Side := leftSide | rightSide.

Definition withLoading (side : Side) (b : bool) (prev : IsLoading) : IsLoading :=
  match side with
  | leftSide =>
      {| leftLoading := b; rightLoading := rightLoading prev;
         comparing := comparing prev |}
  | rightSide =>
      {| leftLoading := leftLoading prev; rightLoading := b;
         comparing := comparing prev |}
  end.

Definition withError (side : Side) (e : option string) (prev : Errors) : Errors :=
  match side with
  | leftSide =>
      {| leftError := e; rightError := rightError prev;
         comparisonError := comparisonError prev |}
  | rightSide =>
      {| leftError := leftError prev; rightError := e;
         comparisonError := comparisonError prev |}
  end.

Definition withComparing (b : bool) (prev : IsLoading) : IsLoading :=
  {| leftLoading := leftLoading prev; rightLoading := rightLoading prev;
     comparing := b |}.

Definition withComparisonError (e : option string) (prev : Errors) : Errors :=
  {| leftError := leftError prev; rightError := rightError prev;
     comparisonError := e |}.

Definition withSelectedDifference (id : option jsstring) (prev : ViewportState)
    : ViewportState :=
  {| leftScrollTop := leftScrollTop prev; rightScrollTop := rightScrollTop prev;
     leftVisibleRange := leftVisibleRange prev;
     rightVisibleRange := rightVisibleRange prev;
     selectedDifference := id;
     highlightedDifferences := highlightedDifferences prev;
     syncScrolling := syncScrolling prev; zoomLevel := zoomLevel prev |}.

(** [array.slice(start)]. *)
Definition slice {A} (l : list A) (start : Z) : list A :=
  let len := Z.of_nat (length l) in
  let k := if decide (start < 0) then Z.max (len + start) 0 else Z.min start len in
  drop (Z.to_nat k) l.

(** [processDocument] up to its [await]. *)
Definition processDocumentStart (side : Side) (st : HookState) : HookState :=
  let st := setIsLoading (withLoading side true) st in
  setErrors (withError side None) st.

(** [processDocument] after its [await]; [parsed] is the document that
    [parseDocument] returned, or the message of the error it threw. *)
Definition processDocumentEnd (side : Side) (parsed : DocumentStructure + string)
    (st : HookState) : HookState :=
  let st :=
    match parsed with
    | inl document =>
        match side with
        | leftSide => setLeftDocument (Some document) st
        | rightSide => setRightDocument (Some document) st
        end
    | inr errorMessage => setErrors (withError side (Some errorMessage)) st
    end in
  setIsLoading (withLoading side false) st.

Section Hook.
Variables diffLines diffWords : jsstring → jsstring → list Change.

(** [compareDocuments] of the hook: the engine is called inside [try], its
    error message is stored by [catch], and [finally] ends the loading. *)
Definition compareDocuments (st : HookState) : HookState :=
  match leftDocument st, rightDocument st with
  | Some leftDoc, Some rightDoc =>
      let st := setIsLoading (withComparing true) st in
      let st := setErrors (withComparisonError None) st in
      let st :=
        match AdvancedDiffEngine.compareDocuments diffLines diffWords leftDoc rightDoc with
        | Ok result =>
            let st := setComparisonResult (Some result) st in
            let st :=
              setNavigationState
                (λ prev,
                   {| currentDifferenceIndex :=
                        if decide (0 < length (differences result))%nat then 0 else -1;
                      totalDifferences := Z.of_nat (length (differences result));
                      navigationHistory := navigationHistory prev;
                      bookmarks := bookmarks prev |}) st in
            match differences result with
            | first :: _ =>
                setViewportState (withSelectedDifference (Some (diffId first))) st
            | [] => st
            end
        | Throw (TypeError message) =>
            setErrors (withComparisonError (Some message)) st
        end in
      setIsLoading (withComparing false) st
  | _, _ => setComparisonResult None st
  end.
End Hook.

Definition selectDifference (differenceId : jsstring) (st : HookState) : HookState :=
  match comparisonResult st with
  | None => st
  | Some result =>
      let index :=
        findIndex (λ d, bool_decide (diffId d = differenceId)) (differences result) in
      if decide (index ≠ -1) then
        let st := setViewportState (withSelectedDifference (Some differenceId)) st in
        setNavigationState
          (λ prev,
             {| currentDifferenceIndex := index;
                totalDifferences := totalDifferences prev;
                navigationHistory := slice (navigationHistory prev) (-9) ++ [differenceId];
                bookmarks := bookmarks prev |}) st
      else st
  end.

Definition navigateToNext (st : HookState) : HookState :=
  match comparisonResult st with
  | None => st
  | Some result =>
      if decide (length (differences result) = 0%nat) then st
      else
        let nextIndex :=
          Z.min (currentDifferenceIndex (navigationState st) + 1)
                (Z.of_nat (length (differences result)) - 1) in
        match at_ (differences result) nextIndex with
        | Some nextDifference => selectDifference (diffId nextDifference) st
        | None => st
        end
  end.

Definition navigateToPrevious (st : HookState) : HookState :=
  match comparisonResult st with
  | None => st
  | Some result =>
      if decide (length (differences result) = 0%nat) then st
      else
        let prevIndex := Z.max (currentDifferenceIndex (navigationState st) - 1) 0 in
        match at_ (differences result) prevIndex with
        | Some prevDifference => selectDifference (diffId prevDifference) st
        | None => st
        end
  end.

Definition updateScrollState (side : Side) (scrollTop : Q) (st : HookState)
    : HookState :=
  setViewportState
    (λ prev,
       {| leftScrollTop :=
            match side with leftSide => scrollTop | rightSide => leftScrollTop prev end;
          rightScrollTop :=
            match side with leftSide => rightScrollTop prev | rightSide => scrollTop end;
          leftVisibleRange := leftVisibleRange prev;
          rightVisibleRange := rightVisibleRange prev;
          selectedDifference := selectedDifference prev;
          highlightedDifferences := highlightedDifferences prev;
          syncScrolling := syncScrolling prev; zoomLevel := zoomLevel prev |}) st.

Definition toggleSyncScrolling (st : HookState) : HookState :=
  setViewportState
    (λ prev,
       {| leftScrollTop := leftScrollTop prev; rightScrollTop := rightScrollTop prev;
          leftVisibleRange := leftVisibleRange prev;
          rightVisibleRange := rightVisibleRange prev;
          selectedDifference := selectedDifference prev;
          highlightedDifferences := highlightedDifferences prev;
          syncScrolling := negb (syncScrolling prev); zoomLevel := zoomLevel prev |}) st.

Definition addBookmark (differenceId : jsstring) (st : HookState) : HookState :=
  setNavigationState
    (λ prev,
       {| currentDifferenceIndex := currentDifferenceIndex prev;
          totalDifferences := totalDifferences prev;
          navigationHistory := navigationHistory prev;
          bookmarks := filter (λ id, id ≠ differenceId) (bookmarks prev)
                       ++ [differenceId] |}) st.

Definition removeBookmark (differenceId : jsstring) (st : HookState) : HookState :=
  setNavigationState
    (λ prev,
       {| currentDifferenceIndex := currentDifferenceIndex prev;
          totalDifferences := totalDifferences prev;
          navigationHistory := navigationHistory prev;
          bookmarks := filter (λ id, id ≠ differenceId) (bookmarks prev) |}) st.

Definition clearComparison (st : HookState) : HookState :=
  let st := setLeftDocument None st in
  let st := setRightDocument None st in
  let st := setComparisonResult None st in
  let st :=
    setErrors (λ _, {| leftError := None; rightError := None;
                       comparisonError := None |}) st in
  let st := setViewportState (λ _, initialViewportState) st in
  setNavigationState (λ _, initialNavigationState) st.

End useAdvancedComparison.

(** The calls a component can make on the hook: the callbacks it returns,
    with [processDocument] split at its [await], so that other calls can
    come in between.  The comparison that the effect of the hook starts when
    both documents are present is a call of [CompareDocuments]. *)
Inductive HookCall :=
| ProcessDocumentStart (side : useAdvancedComparison.Side)
| ProcessDocumentEnd (side : useAdvancedComparison.Side)
    (parsed : DocumentStructure + string)
| CompareDocuments
| SelectDifference (differenceId : jsstring)
| NavigateToNext
| NavigateToPrevious
| UpdateScrollState (side : useAdvancedComparison.Side) (scrollTop : Q)
| ToggleSyncScrolling
| AddBookmark (differenceId : jsstring)
| RemoveBookmark (differenceId : jsstring)
| ClearComparison.

Definition hookCall (diffLines diffWords : jsstring → jsstring → list Change)
    (st : useAdvancedComparison.HookState) (c : HookCall)
    : useAdvancedComparison.HookState :=
  match c with
  | ProcessDocumentStart side => useAdvancedComparison.processDocumentStart side st
  | ProcessDocumentEnd side parsed =>
      useAdvancedComparison.processDocumentEnd side parsed st
  | CompareDocuments => useAdvancedComparison.compareDocuments diffLines diffWords st
  | SelectDifference id => useAdvancedComparison.selectDifference id st
  | NavigateToNext => useAdvancedComparison.navigateToNext st
  | NavigateToPrevious => useAdvancedComparison.navigateToPrevious st
  | UpdateScrollState side scrollTop =>
      useAdvancedComparison.updateScrollState side scrollTop st
  | ToggleSyncScrolling => useAdvancedComparison.toggleSyncScrolling st
  | AddBookmark id => useAdvancedComparison.addBookmark id st
  | RemoveBookmark id => useAdvancedComparison.removeBookmark id st
  | ClearComparison => useAdvancedComparison.clearComparison st
  end.

(** The state after a sequence of calls from the initial state. *)
Definition hookRun (diffLines diffWords : jsstring → jsstring → list Change)
    (calls : list HookCall) : useAdvancedComparison.HookState :=
  foldl (hookCall diffLines diffWords) useAdvancedComparison.initialState calls.

(** The navigation state agrees with the comparison result: the bookmarks
    have no duplicates, the history has at most ten entries, and when a
    result is shown the total is its number of differences, the current index
    is -1 or the index of one of its differences, and the selected difference
    is the one at the current index. *)
Definition navigationConsistent (st : useAdvancedComparison.HookState) : Prop :=
  let nav := useAdvancedComparison.navigationState st in
  NoDup (useAdvancedComparison.bookmarks nav)
  ∧ (length (useAdvancedComparison.navigationHistory nav) ≤ 10)%nat
  ∧ ∀ result, useAdvancedComparison.comparisonResult st = Some result →
      useAdvancedComparison.totalDifferences nav
      = Z.of_nat (length (differences result))
      ∧ -1 ≤ useAdvancedComparison.currentDifferenceIndex nav
        < Z.of_nat (length (differences result))
      ∧ (0 ≤ useAdvancedComparison.currentDifferenceIndex nav →
         ∃ d, at_ (differences result)
                  (useAdvancedComparison.currentDifferenceIndex nav) = Some d
              ∧ useAdvancedComparison.selectedDifference
                  (useAdvancedComparison.viewportState st) = Some (diffId d)).

(** * Properties *)

(** ** Position queries by line index *)

Lemma at_of_nat {A} (l : list A) (k : nat) : at_ l (Z.of_nat k) = l !! k.
Proof. unfold at_. rewrite decide_True by lia. by rewrite Nat2Z.id. Qed.

Lemma findPositionFrom_spec (pages : list DocumentPage) (k : nat) (currentLine : Z) :
  findPositionFrom pages (currentLine + Z.of_nat k) currentLine
  = Ok (from_option lineStartPosition defaultPosition (allLines pages !! k)).
Proof.
  revert k currentLine. induction pages as [|page rest IH]; intros k currentLine.
  - done.
  - cbn [findPositionFrom]. unfold allLines. rewrite bind_cons.
    fold (allLines rest). case_decide as Hlt.
    + assert (k < length (lines page))%nat as Hk by lia.
      replace (currentLine + Z.of_nat k - currentLine) with (Z.of_nat k) by lia.
      rewrite at_of_nat.
      destruct (lookup_lt_is_Some_2 (lines page) k Hk) as [line Hline].
      rewrite Hline, lookup_app_l by (by rewrite length_fmap).
      by rewrite list_lookup_fmap, Hline.
    + assert (length (lines page) ≤ k)%nat as Hk by lia.
      rewrite lookup_app_r by (by rewrite length_fmap).
      rewrite length_fmap.
      replace (currentLine + Z.of_nat k)
        with (currentLine + Z.of_nat (length (lines page))
              + Z.of_nat (k - length (lines page))) by lia.
      apply IH.
Qed.

(** A negative index is not answered at all: the first page is selected
    and reading the line at a negative array index throws. *)
Lemma findPositionByLineIndex_negative doc page rest lineIndex :
  pages doc = page :: rest → lineIndex < 0 →
  findPositionByLineIndex doc lineIndex
  = Throw (TypeError "Cannot read properties of undefined (reading 'lineNumber')").
Proof.
  intros Hpages Hneg. unfold findPositionByLineIndex. rewrite Hpages.
  cbn [findPositionFrom]. rewrite decide_True by lia.
  unfold at_. by rewrite decide_False by lia.
Qed.

(** C3, as the code has it: a query by line index never fails for an index
    that is not negative.  Within the document it yields the start of the
    addressed line; at or beyond the number of lines it yields the default
    position (page 1, line 1, column 1, offset 0, absoluteOffset 0). *)
Theorem findPositionByLineIndex_total (doc : DocumentStructure) (lineIndex : nat) :
  findPositionByLineIndex doc (Z.of_nat lineIndex)
  = Ok (match allLines (pages doc) !! lineIndex with
        | Some entry => lineStartPosition entry
        | None => defaultPosition
        end)
  ∧ (allLines (pages doc) !! lineIndex = None
     ↔ (length (allLines (pages doc)) ≤ lineIndex)%nat).
Proof.
  split; [|apply lookup_ge_None].
  unfold findPositionByLineIndex.
  rewrite <-(Z.add_0_l (Z.of_nat lineIndex)), findPositionFrom_spec.
  by destruct (allLines (pages doc) !! lineIndex).
Qed.

(** C3 fails as stated: line index 7 of a one-line document is answered with
    the default position, not with an error. *)
Lemma findPositionByLineIndex_beyond_end_defaults :
  findPositionByLineIndex (textDocument (js "A")) 7
  = Ok {| page := 1; line := 1; column := 1; offset := 0; absoluteOffset := 0 |}
  ∧ ¬ ∃ e, findPositionByLineIndex (textDocument (js "A")) 7 = Throw e.
Proof. split; [by vm_compute|]. intros [e He]. vm_compute in He. discriminate. Qed.

(** ** What the differs push *)

Section DifferInvariants.
Variables diffLines diffWords : jsstring → jsstring → list Change.
Variable P : PreciseDifference → Prop.

Lemma wordStep_Forall leftDoc rightDoc leftPara rightPara i parts st :
  (∀ index wordIndex part, added part || removed part = true →
     P (wordDifference leftDoc rightDoc leftPara rightPara i index wordIndex part)) →
  Forall P st.1.1 →
  Forall P (foldl (wordStep leftDoc rightDoc leftPara rightPara i) st parts).1.1.
Proof.
  intros HP. revert st. induction parts as [|part parts IH]; intros st Hst; [done|].
  cbn [foldl]. apply IH. destruct st as [[ds index] wordIndex]. cbn in *.
  destruct (added part || removed part) eqn:Hflags; [|done].
  apply Forall_app; split; [done|]. apply Forall_singleton. by apply HP.
Qed.

Lemma detectWordDifferences_Forall leftDoc rightDoc :
  (∀ leftPara rightPara i index wordIndex part, added part || removed part = true →
     P (wordDifference leftDoc rightDoc leftPara rightPara i index wordIndex part)) →
  Forall P (detectWordDifferences diffWords leftDoc rightDoc).
Proof.
  intros HP. unfold detectWordDifferences.
  generalize (seq 0 (Nat.max (length (extractParagraphs leftDoc))
                             (length (extractParagraphs rightDoc)))).
  intros indices.
  assert (Forall P []) as Hacc by constructor.
  revert Hacc. generalize (@nil PreciseDifference).
  induction indices as [|i indices IH]; intros acc Hacc; [done|].
  cbn [foldl]. apply IH. unfold paragraphStep. case_decide; [|done].
  apply wordStep_Forall; [|done]. intros. by apply HP.
Qed.

Lemma sectionStep_Forall parts st :
  (∀ part sectionIndex, added part || removed part = true →
     P (sectionDifference part sectionIndex)) →
  Forall P st.1 →
  Forall P (foldl sectionStep st parts).1.
Proof.
  intros HP. revert st. induction parts as [|part parts IH]; intros st Hst; [done|].
  cbn [foldl]. apply IH. destruct st as [ds index]. cbn in *.
  destruct (added part || removed part) eqn:Hflags; [|done].
  cbn. apply Forall_app; split; [done|]. apply Forall_singleton. by apply HP.
Qed.

Lemma detectStructuralDifferences_Forall leftDoc rightDoc :
  (pageCount leftDoc ≠ pageCount rightDoc → P (pageCountDifference leftDoc rightDoc)) →
  (∀ part sectionIndex, added part || removed part = true →
     P (sectionDifference part sectionIndex)) →
  Forall P (detectStructuralDifferences diffLines leftDoc rightDoc).
Proof.
  intros Hpage HP. unfold detectStructuralDifferences.
  apply sectionStep_Forall; [done|]. cbn.
  case_decide; [|constructor]. apply Forall_singleton. auto.
Qed.

Lemma lineStep_Forall leftDoc rightDoc parts st st' :
  (∀ part position diffIndex lineIndex,
     findPositionByLineIndex rightDoc lineIndex = Ok position →
     P (lineAddition rightDoc part position diffIndex)) →
  (∀ part position diffIndex lineIndex,
     findPositionByLineIndex leftDoc lineIndex = Ok position →
     P (lineDeletion leftDoc part position diffIndex)) →
  Forall P (lineDiffs st) →
  forEachM (lineStep leftDoc rightDoc) st parts = Ok st' →
  Forall P (lineDiffs st').
Proof.
  intros Hadd Hdel. revert st.
  induction parts as [|part parts IH]; intros st Hst Hrun; cbn in Hrun.
  - by inversion Hrun; subst.
  - destruct (lineStep leftDoc rightDoc st part) as [st1|e] eqn:Hstep;
      cbn in Hrun; [|discriminate].
    apply (IH st1); [|done]. clear Hrun IH.
    unfold lineStep in Hstep. destruct (added part).
    + destruct (findPositionByLineIndex rightDoc _) eqn:Hpos; cbn in Hstep;
        [|discriminate].
      inversion Hstep; subst; cbn.
      apply Forall_app; split; [done|]. apply Forall_singleton. eauto.
    + destruct (removed part).
      * destruct (findPositionByLineIndex leftDoc _) eqn:Hpos; cbn in Hstep;
          [|discriminate].
        inversion Hstep; subst; cbn.
        apply Forall_app; split; [done|]. apply Forall_singleton. eauto.
      * cbn in Hstep. discriminate.
Qed.

Lemma detectLineDifferences_Forall leftDoc rightDoc ds :
  (∀ part position diffIndex lineIndex,
     findPositionByLineIndex rightDoc lineIndex = Ok position →
     P (lineAddition rightDoc part position diffIndex)) →
  (∀ part position diffIndex lineIndex,
     findPositionByLineIndex leftDoc lineIndex = Ok position →
     P (lineDeletion leftDoc part position diffIndex)) →
  detectLineDifferences diffLines leftDoc rightDoc = Ok ds →
  Forall P ds.
Proof.
  intros Hadd Hdel. unfold detectLineDifferences.
  destruct (forEachM _ _ _) as [st|e] eqn:Hrun; cbn; [|discriminate].
  intros [= <-]. eapply lineStep_Forall; [done..| |exact Hrun]. constructor.
Qed.
End DifferInvariants.

(** ** The optimizer: duplicates *)

Lemma sameContent_true diff d :
  sameContent diff d = true ↔ contentKey d = contentKey diff.
Proof.
  unfold sameContent, contentKey.
  rewrite andb_true_iff, !bool_decide_eq_true. split; [by intros [-> ->]|].
  by intros [= -> ->].
Qed.

Lemma findIndexFrom_app_hit {A} (p : A → bool) (pre : list A) (x : A) (rest : list A) i :
  p x = true →
  findIndexFrom p (pre ++ x :: rest) i = i + Z.of_nat (length pre)
  ↔ Forall (λ y, p y = false) pre.
Proof.
  intros Hx. revert i. induction pre as [|y pre IH]; intros i.
  - cbn. rewrite Hx. split; [constructor|lia].
  - change (findIndexFrom p ((y :: pre) ++ x :: rest) i)
      with (if p y then i else findIndexFrom p (pre ++ x :: rest) (i + 1)).
    rewrite length_cons, Nat2Z.inj_succ, Forall_cons.
    destruct (p y) eqn:Hy.
    + split; [lia|]. intros [? _]. congruence.
    + replace (i + Z.succ (Z.of_nat (length pre)))
        with (i + 1 + Z.of_nat (length pre)) by lia.
      rewrite IH. tauto.
Qed.

Lemma keepFirstByContent_seen_ext seen seen' l :
  (∀ k, k ∈ seen ↔ k ∈ seen') →
  keepFirstByContent seen l = keepFirstByContent seen' l.
Proof.
  revert seen seen'. induction l as [|d l IH]; intros seen seen' Hext; [done|].
  cbn. destruct (decide (contentKey d ∈ seen)) as [Hin|Hin];
    [rewrite decide_True by (by apply Hext)|rewrite decide_False by (by rewrite <-Hext)].
  - by apply IH.
  - f_equal. apply IH. intros k. rewrite !elem_of_cons. by rewrite Hext.
Qed.

Lemma uniqueDifferences_from pre l :
  filterFrom (λ diff index,
                bool_decide (findIndex (sameContent diff) (pre ++ l) = index))
             l (Z.of_nat (length pre))
  = keepFirstByContent (contentKey <$> pre) l.
Proof.
  revert pre. induction l as [|d l IH]; intros pre; [done|].
  cbn [filterFrom keepFirstByContent].
  specialize (IH (pre ++ [d])). rewrite <-app_assoc, length_app in IH. cbn in IH.
  replace (Z.of_nat (length pre) + 1) with (Z.of_nat (length pre + 1)) by lia.
  rewrite IH. clear IH.
  assert (sameContent d d = true) as Hdd by (by apply sameContent_true).
  pose proof (findIndexFrom_app_hit (sameContent d) pre d l 0 Hdd) as Hhit.
  rewrite Z.add_0_l in Hhit. unfold findIndex.
  destruct (decide (contentKey d ∈ contentKey <$> pre)) as [Hin|Hin].
  - rewrite bool_decide_eq_false_2.
    + apply keepFirstByContent_seen_ext. intros k.
      rewrite fmap_app, elem_of_app. cbn. rewrite list_elem_of_singleton.
      split; [intros [?| ->]; done|by left].
    + rewrite Hhit, Forall_forall. intros Hall.
      apply list_elem_of_fmap in Hin as (y & Hy & Hyin).
      specialize (Hall y Hyin). apply not_true_iff_false in Hall.
      apply Hall, sameContent_true. done.
  - rewrite bool_decide_eq_true_2.
    + f_equal. apply keepFirstByContent_seen_ext. intros k.
      rewrite fmap_app, elem_of_app, elem_of_cons. cbn.
      rewrite list_elem_of_singleton. tauto.
    + rewrite Hhit, Forall_forall. intros y Hyin.
      apply not_true_iff_false. rewrite sameContent_true. intros Hkey.
      apply Hin, list_elem_of_fmap. eauto.
Qed.

Lemma uniqueDifferences_keepFirst l :
  uniqueDifferences l = keepFirstByContent [] l.
Proof. apply (uniqueDifferences_from [] l). Qed.

Lemma keepFirstByContent_sublist seen l : sublist (keepFirstByContent seen l) l.
Proof.
  revert seen. induction l as [|d l IH]; intros seen; cbn; [done|].
  case_decide; [apply sublist_cons|apply sublist_skip]; apply IH.
Qed.

Lemma keepFirstByContent_keys seen l :
  NoDup (contentKey <$> keepFirstByContent seen l)
  ∧ ∀ d, d ∈ keepFirstByContent seen l → contentKey d ∉ seen.
Proof.
  revert seen. induction l as [|d l IH]; intros seen; cbn.
  - split; [constructor|]. intros d Hd. by apply elem_of_nil in Hd.
  - case_decide as Hin; [apply IH|].
    destruct (IH (contentKey d :: seen)) as [Hnodup Hfresh]. split.
    + cbn. constructor; [|done]. intros Hdup.
      apply list_elem_of_fmap in Hdup as (y & Hy & Hyin).
      apply (Hfresh y Hyin). rewrite Hy. left.
    + intros y [->|Hy]%elem_of_cons; [done|].
      intros Hseen. apply (Hfresh y Hy). by right.
Qed.

Lemma keepFirstByContent_elem seen l d :
  d ∈ keepFirstByContent seen l
  ↔ (contentKey d ∉ seen)
    ∧ ∃ i, l !! i = Some d
           ∧ ∀ j d', (j < i)%nat → l !! j = Some d' → contentKey d' ≠ contentKey d.
Proof.
  revert seen. induction l as [|x l IH]; intros seen; cbn.
  - split; [by intros ?%elem_of_nil|]. by intros (_ & i & ? & _).
  - case_decide as Hin.
    + rewrite IH. split.
      * intros (Hd & i & Hi & Hfirst). split; [done|]. exists (S i). split; [done|].
        intros [|j] d' Hj Hd'; cbn in Hd'.
        -- intros Hkey. apply Hd. injection Hd' as <-. by rewrite <-Hkey.
        -- apply (Hfirst j); [lia|done].
      * intros (Hd & [|i] & Hi & Hfirst); cbn in Hi.
        -- injection Hi as ->. done.
        -- split; [done|]. exists i. split; [done|]. intros j d' Hj Hd'.
           apply (Hfirst (S j)); [lia|done].
    + rewrite elem_of_cons, IH. split.
      * intros [->|(Hd & i & Hi & Hfirst)].
        -- split; [done|]. exists 0%nat. split; [done|]. intros j d' Hj. lia.
        -- apply not_elem_of_cons in Hd as [Hne Hd]. split; [done|].
           exists (S i). split; [done|]. intros [|j] d' Hj Hd'; cbn in Hd'.
           ++ injection Hd' as <-. done.
           ++ apply (Hfirst j); [lia|done].
      * intros (Hd & [|i] & Hi & Hfirst); cbn in Hi.
        -- injection Hi as ->. by left.
        -- right. split.
           ++ apply not_elem_of_cons. split; [|done].
              intros Hkey. by apply (Hfirst 0%nat x); [lia| |].
           ++ exists i. split; [done|]. intros j d' Hj Hd'.
              apply (Hfirst (S j)); [lia|done].
Qed.

(** ** The optimizer: order *)

Lemma comparePositions_le a b : comparePositions a b ≤ 0 ↔ positionOrder a b.
Proof.
  unfold comparePositions, positionOrder, keyLe, sortKey. cbn.
  repeat case_decide; lia.
Qed.

Lemma comparePositions_tie a b : sortKey a = sortKey b → comparePositions a b ≤ 0.
Proof.
  unfold comparePositions, sortKey. intros [= Hp Hl Hc].
  repeat case_decide; lia.
Qed.

Lemma positionOrder_trans a b c :
  positionOrder a b → positionOrder b c → positionOrder a c.
Proof. unfold positionOrder, keyLe. lia. Qed.

Lemma positionOrder_total a b : positionOrder a b ∨ positionOrder b a.
Proof. unfold positionOrder, keyLe. lia. Qed.

Lemma positionOrder_tie a b :
  positionOrder a b → positionOrder b a → sortKey a = sortKey b.
Proof.
  unfold positionOrder, keyLe, sortKey. cbn. intros H1 H2.
  f_equal; [f_equal|]; lia.
Qed.

Section Sort.
Context {A : Type} (compare : A → A → Z).

Lemma sortInsert_Permutation x l : sortInsert compare x l ≡ₚ x :: l.
Proof.
  induction l as [|y l IH]; cbn; [done|].
  case_decide; [done|]. rewrite IH. apply Permutation_swap.
Qed.

Lemma jsSort_Permutation l : jsSort compare l ≡ₚ l.
Proof.
  induction l as [|x l IH]; cbn; [done|].
  by rewrite sortInsert_Permutation, IH.
Qed.

Context (R : relation A).
Hypothesis compare_R : ∀ a b, compare a b ≤ 0 ↔ R a b.
Hypothesis R_trans : ∀ a b c, R a b → R b c → R a c.
Hypothesis R_total : ∀ a b, R a b ∨ R b a.

Lemma sortInsert_StronglySorted x l :
  StronglySorted R l → StronglySorted R (sortInsert compare x l).
Proof.
  induction 1 as [|y l Hl IH Hy]; cbn.
  - repeat constructor.
  - case_decide as Hxy.
    + apply compare_R in Hxy. constructor; [by constructor|].
      constructor; [done|]. eapply Forall_impl; [exact Hy|]. eauto.
    + constructor; [done|].
      rewrite sortInsert_Permutation. constructor; [|done].
      destruct (R_total x y) as [Hxy'|]; [|done].
      by apply compare_R in Hxy'.
Qed.

Lemma jsSort_StronglySorted l : StronglySorted R (jsSort compare l).
Proof.
  induction l as [|x l IH]; cbn; [constructor|].
  by apply sortInsert_StronglySorted.
Qed.

(** Stability, stated for a key on which the comparator reports ties. *)
Context {K : Type} `{EqDecision K} (key : A → K).
Hypothesis compare_tie : ∀ a b, key a = key b → compare a b ≤ 0.

Lemma sortInsert_filter_key x l k :
  filter (λ a, key a = k) (sortInsert compare x l)
  = filter (λ a, key a = k) (x :: l).
Proof.
  induction l as [|y l IH]; cbn [sortInsert]; [done|].
  case_decide as Hxy; [done|].
  rewrite filter_cons, IH, !filter_cons.
  destruct (decide (key y = k)) as [Hy|Hy]; [|done].
  destruct (decide (key x = k)) as [Hx|Hx]; [|done].
  destruct Hxy. apply compare_tie. congruence.
Qed.

Lemma jsSort_stable l k :
  filter (λ a, key a = k) (jsSort compare l) = filter (λ a, key a = k) l.
Proof.
  induction l as [|x l IH]; cbn [jsSort]; [done|].
  by rewrite sortInsert_filter_key, !filter_cons, IH.
Qed.

(** A sorted list is determined by its members of each key, in their order:
    whatever stable sorting procedure an engine uses, it returns the list
    that [jsSort] returns. *)
Hypothesis R_tie : ∀ a b, R a b → R b a → key a = key b.

Lemma sorted_stable_unique l1 l2 :
  StronglySorted R l1 → StronglySorted R l2 →
  (∀ k, filter (λ a, key a = k) l1 = filter (λ a, key a = k) l2) →
  l1 = l2.
Proof.
  intros Hs1. revert l2. induction Hs1 as [|a l1 Hs1 IH Ha]; intros l2 Hs2 Hfilter.
  - destruct l2 as [|b l2]; [done|].
    specialize (Hfilter (key b)). by rewrite filter_cons_True in Hfilter.
  - destruct Hs2 as [|b l2 Hs2 Hb].
    { specialize (Hfilter (key a)). by rewrite filter_cons_True in Hfilter. }
    assert (key a = key b) as Hkey.
    { destruct (decide (key a = key b)) as [|Hne]; [done|].
      apply R_tie.
      - rewrite Forall_forall in Ha. apply Ha.
        specialize (Hfilter (key b)).
        rewrite filter_cons_False, (filter_cons_True _ b) in Hfilter by done.
        assert (b ∈ filter (λ x, key x = key b) l1) as Hin
          by (rewrite Hfilter; left).
        by apply list_elem_of_filter in Hin as [_ ?].
      - rewrite Forall_forall in Hb. apply Hb.
        specialize (Hfilter (key a)).
        rewrite filter_cons_True, (filter_cons_False _ b) in Hfilter
          by (done || by intros ?).
        assert (a ∈ filter (λ x, key x = key a) l2) as Hin
          by (rewrite <-Hfilter; left).
        by apply list_elem_of_filter in Hin as [_ ?]. }
    pose proof (Hfilter (key a)) as Hhead.
    rewrite filter_cons_True, (filter_cons_True _ b) in Hhead by done.
    injection Hhead as -> Htail. f_equal. apply IH; [done|].
    intros k. destruct (decide (key b = k)) as [<-|Hne]; [done|].
    specialize (Hfilter k). by rewrite !filter_cons_False in Hfilter.
Qed.

Lemma jsSort_determined l l' :
  StronglySorted R l' →
  (∀ k, filter (λ a, key a = k) l' = filter (λ a, key a = k) l) →
  l' = jsSort compare l.
Proof.
  intros Hsorted Hstable. apply sorted_stable_unique; [done|apply jsSort_StronglySorted|].
  intros k. by rewrite jsSort_stable.
Qed.
End Sort.

(** C6: the optimizer keeps, of the differences with one pair of contents,
    exactly the first in input order.  Its output is a rearrangement of the
    list that the deduplication rule describes; no two of its members have
    the same pair of contents; and a difference is a member exactly when it
    occurs in the input with no earlier difference of the same contents,
    whatever the positions are. *)
Theorem optimizeDifferences_keeps_first_by_content (l : list PreciseDifference) :
  uniqueDifferences l = keepFirstByContent [] l
  ∧ optimizeDifferences l ≡ₚ keepFirstByContent [] l
  ∧ NoDup (contentKey <$> optimizeDifferences l)
  ∧ ∀ d, d ∈ optimizeDifferences l
         ↔ ∃ i, l !! i = Some d
                ∧ ∀ j d', (j < i)%nat → l !! j = Some d'
                          → contentKey d' ≠ contentKey d.
Proof.
  assert (optimizeDifferences l ≡ₚ keepFirstByContent [] l) as Hperm.
  { unfold optimizeDifferences.
    by rewrite jsSort_Permutation, uniqueDifferences_keepFirst. }
  split; [apply uniqueDifferences_keepFirst|]. split; [done|]. split.
  - rewrite Hperm. apply keepFirstByContent_keys.
  - intros d. rewrite Hperm, keepFirstByContent_elem. split.
    + by intros [_ ?].
    + intros ?. split; [|done]. apply not_elem_of_nil.
Qed.

(** The optimizer's output does not depend on how the engine sorts, as long
    as it sorts stably. *)
Lemma optimizeDifferences_determined (l sorted : list PreciseDifference) :
  StronglySorted positionOrder sorted →
  (∀ k, filter (λ d, sortKey d = k) sorted
        = filter (λ d, sortKey d = k) (uniqueDifferences l)) →
  sorted = optimizeDifferences l.
Proof.
  intros Hsorted Hstable.
  apply (jsSort_determined comparePositions positionOrder comparePositions_le
           positionOrder_trans positionOrder_total sortKey comparePositions_tie
           positionOrder_tie); done.
Qed.

(** C7: the optimizer's output ascends in (page, line, column) of the left
    position, and the differences with one sort key come in the order in
    which deduplication left them, which is their order in the input. *)
Theorem optimizeDifferences_sorted_stable (l : list PreciseDifference) :
  StronglySorted positionOrder (optimizeDifferences l)
  ∧ (∀ k, filter (λ d, sortKey d = k) (optimizeDifferences l)
          = filter (λ d, sortKey d = k) (uniqueDifferences l))
  ∧ sublist (uniqueDifferences l) l.
Proof.
  split; [|split].
  - apply jsSort_StronglySorted.
    + apply comparePositions_le.
    + apply positionOrder_trans.
    + apply positionOrder_total.
  - intros k. apply jsSort_stable, comparePositions_tie.
  - rewrite uniqueDifferences_keepFirst. apply keepFirstByContent_sublist.
Qed.

(** ** The structural differ *)

Lemma sectionStep_extends parts st :
  ∃ extra, (foldl sectionStep st parts).1 = st.1 ++ extra
           ∧ Forall (λ d, severity d = medium) extra.
Proof.
  revert st. induction parts as [|part parts IH]; intros st.
  - exists []. by rewrite app_nil_r.
  - cbn [foldl]. destruct (IH (sectionStep st part)) as (extra & -> & Hextra).
    destruct st as [ds index]. unfold sectionStep.
    destruct (added part || removed part); [|by exists extra].
    cbn. exists (sectionDifference part index :: extra).
    split; [by rewrite <-app_assoc|]. by constructor.
Qed.

(** C5: among the differences of the structural differ, those of category
    structure and severity high are the one page-count difference when the
    page counts differ and none when they are equal; that difference has
    confidence 1, names both page counts and sits at page 1, line 1. *)
Theorem detectStructuralDifferences_page_count
    (diffLines : jsstring → jsstring → list Change)
    (leftDoc rightDoc : DocumentStructure) :
  filter (λ d, category d = structureCategory ∧ severity d = high)
         (detectStructuralDifferences diffLines leftDoc rightDoc)
  = (if decide (pageCount leftDoc ≠ pageCount rightDoc)
     then [pageCountDifference leftDoc rightDoc] else [])
  ∧ confidence (pageCountDifference leftDoc rightDoc) = Fin 1
  ∧ description (pageCountDifference leftDoc rightDoc)
    = txtPageCountChange ++ numToString (pageCount leftDoc) ++ txtArrow
      ++ numToString (pageCount rightDoc)
  ∧ page (leftPosition (pageCountDifference leftDoc rightDoc)) = 1
  ∧ line (leftPosition (pageCountDifference leftDoc rightDoc)) = 1
  ∧ rightPosition (pageCountDifference leftDoc rightDoc)
    = leftPosition (pageCountDifference leftDoc rightDoc).
Proof.
  split; [|done]. unfold detectStructuralDifferences.
  destruct (sectionStep_extends
              (diffLines (joinLines (title <$> sections leftDoc))
                         (joinLines (title <$> sections rightDoc)))
              (if decide (pageCount leftDoc ≠ pageCount rightDoc)
               then [pageCountDifference leftDoc rightDoc] else [], 0))
    as (extra & -> & Hextra).
  cbn [fst]. rewrite filter_app.
  assert (filter (λ d, category d = structureCategory ∧ severity d = high) extra = [])
    as ->.
  { induction Hextra as [|d extra Hd _ IH]; [done|].
    rewrite filter_cons_False; [done|]. intros [_ Hhigh]. congruence. }
  rewrite app_nil_r. by case_decide.
Qed.

(** ** The word-level differ *)

(** C10: a difference of the word-level differ has severity medium when its
    token run is longer than 20 characters and low otherwise; it is never
    high or critical. *)
Theorem detectWordDifferences_severity
    (diffWords : jsstring → jsstring → list Change)
    (leftDoc rightDoc : DocumentStructure) :
  Forall (λ d, severity d = (if decide (20 < length (changedRun d))%nat
                             then medium else low)
               ∧ severity d ≠ high ∧ severity d ≠ critical)
         (detectWordDifferences diffWords leftDoc rightDoc).
Proof.
  apply detectWordDifferences_Forall.
  intros leftPara rightPara i index wordIndex part Hflags.
  unfold changedRun, calculateWordSeverity; cbn. unfold calculateWordSeverity.
  destruct (added part); cbn in *; [|rewrite Hflags]; by case_decide.
Qed.

(** ** The result of a comparison *)

Lemma optimizeDifferences_elem_of l d : d ∈ optimizeDifferences l → d ∈ l.
Proof.
  unfold optimizeDifferences.
  rewrite jsSort_Permutation, uniqueDifferences_keepFirst, keepFirstByContent_elem.
  intros (_ & i & Hi & _). by eapply list_elem_of_lookup_2.
Qed.

Lemma optimizeDifferences_Forall (P : PreciseDifference → Prop) l :
  Forall P l → Forall P (optimizeDifferences l).
Proof.
  rewrite !Forall_forall. intros Hl d Hd. by apply Hl, optimizeDifferences_elem_of.
Qed.

Lemma compareDocuments_Ok diffLines diffWords leftDoc rightDoc res :
  compareDocuments diffLines diffWords leftDoc rightDoc = Ok res →
  ∃ lineDifferences,
    detectLineDifferences diffLines leftDoc rightDoc = Ok lineDifferences
    ∧ differences res
      = optimizeDifferences
          (lineDifferences ++ detectWordDifferences diffWords leftDoc rightDoc
           ++ detectStructuralDifferences diffLines leftDoc rightDoc)
    ∧ statistics res = calculateStatistics (differences res) leftDoc rightDoc.
Proof.
  unfold compareDocuments.
  destruct (detectLineDifferences diffLines leftDoc rightDoc) as [ds|e]; cbn;
    [|discriminate].
  intros [= <-]. by exists ds.
Qed.

(** C9: every difference of a comparison result has equal left and right
    positions.  A line-level addition carries a position found in the right
    document on both sides, a line-level deletion one found in the left
    document; a word-level difference carries one position on both sides;
    a structural difference carries the document start on both sides. *)
Theorem differences_share_position
    (diffLines diffWords : jsstring → jsstring → list Change)
    (leftDoc rightDoc : DocumentStructure) (res : ComparisonResult) :
  compareDocuments diffLines diffWords leftDoc rightDoc = Ok res →
  Forall sharesPosition (differences res)
  ∧ (∃ lineDifferences,
       detectLineDifferences diffLines leftDoc rightDoc = Ok lineDifferences
       ∧ Forall (λ d, sharesPosition d
                      ∧ ((diffType d = addition
                          ∧ ∃ lineIndex, findPositionByLineIndex rightDoc lineIndex
                                         = Ok (leftPosition d))
                         ∨ (diffType d = deletion
                            ∧ ∃ lineIndex, findPositionByLineIndex leftDoc lineIndex
                                           = Ok (rightPosition d))))
                lineDifferences)
  ∧ Forall sharesPosition (detectWordDifferences diffWords leftDoc rightDoc)
  ∧ Forall (λ d, leftPosition d = defaultPosition ∧ rightPosition d = defaultPosition)
           (detectStructuralDifferences diffLines leftDoc rightDoc).
Proof.
  intros Hres.
  destruct (compareDocuments_Ok _ _ _ _ _ Hres) as (lineDs & Hline & Hdiffs & _).
  assert (Forall (λ d, sharesPosition d
                      ∧ ((diffType d = addition
                          ∧ ∃ lineIndex, findPositionByLineIndex rightDoc lineIndex
                                         = Ok (leftPosition d))
                         ∨ (diffType d = deletion
                            ∧ ∃ lineIndex, findPositionByLineIndex leftDoc lineIndex
                                           = Ok (rightPosition d))))
                 lineDs) as HlineP.
  { eapply detectLineDifferences_Forall; [| |exact Hline].
    - intros part position diffIndex lineIndex Hpos. split; [done|]. left.
      split; [done|]. by exists lineIndex.
    - intros part position diffIndex lineIndex Hpos. split; [done|]. right.
      split; [done|]. by exists lineIndex. }
  assert (Forall sharesPosition (detectWordDifferences diffWords leftDoc rightDoc))
    as HwordP by (by apply detectWordDifferences_Forall).
  assert (Forall (λ d, leftPosition d = defaultPosition
                       ∧ rightPosition d = defaultPosition)
                 (detectStructuralDifferences diffLines leftDoc rightDoc)) as HstructP
    by (by apply detectStructuralDifferences_Forall).
  split; [|split; [by exists lineDs|done]].
  rewrite Hdiffs. apply optimizeDifferences_Forall.
  rewrite !Forall_app. split; [|split].
  - eapply Forall_impl; [exact HlineP|]. by intros d [? _].
  - done.
  - eapply Forall_impl; [exact HstructP|]. intros d [Hl Hr].
    unfold sharesPosition. congruence.
Qed.

(** Two documents without a common line: the comparison returns, with two
    line-level and two word-level differences. *)
Lemma differences_share_position_witness :
  ∃ res,
    compareDocuments ReferenceDiff.diffLines ReferenceDiff.diffWords
      (textDocument (js "a b")) (textDocument (js "c b")) = Ok res
    ∧ length (differences res) = 4%nat
    ∧ Forall sharesPosition (differences res).
Proof.
  destruct (compareDocuments ReferenceDiff.diffLines ReferenceDiff.diffWords
              (textDocument (js "a b")) (textDocument (js "c b"))) as [res|e] eqn:Hres.
  - exists res. split; [done|]. split.
    + revert Hres. vm_compute. by intros [= <-].
    + exact (proj1 (differences_share_position _ _ _ _ _ Hres)).
  - exfalso. revert Hres. vm_compute. discriminate.
Defined.

(** ** Comparing a document with itself *)

(** C1 fails in the code: when the line script of a document against itself
    is the one unchanged part, the comparison raises a TypeError, because the
    branch for unchanged parts calls a method that the class does not have. *)
Theorem compareDocuments_identical_throws
    (diffLines diffWords : jsstring → jsstring → list Change)
    (doc : DocumentStructure) :
  diffLines (extractFullContent doc) (extractFullContent doc)
  = [unchangedPart (extractFullContent doc)] →
  compareDocuments diffLines diffWords doc doc
  = Throw (TypeError "this.detectWordLevelChanges is not a function").
Proof.
  intros Hscript. unfold compareDocuments, detectLineDifferences.
  by rewrite Hscript.
Qed.

(** A one-line document against itself, with the reference edit script. *)
Lemma compareDocuments_identical_throws_witness :
  ReferenceDiff.diffLines (extractFullContent (textDocument (js "A")))
                          (extractFullContent (textDocument (js "A")))
  = [unchangedPart (extractFullContent (textDocument (js "A")))]
  ∧ compareDocuments ReferenceDiff.diffLines ReferenceDiff.diffWords
      (textDocument (js "A")) (textDocument (js "A"))
    = Throw (TypeError "this.detectWordLevelChanges is not a function").
Proof.
  split; [by vm_compute|].
  apply compareDocuments_identical_throws. by vm_compute.
Defined.

(** ** The position index *)

(** *** Keys of the inverse map *)

Lemma pretty_N_char_digit x : digitUnit (N_of_ascii (pretty_N_char x)).
Proof.
  unfold pretty_N_char, digitUnit.
  repeat case_match; vm_compute; split; discriminate.
Qed.

Lemma pretty_N_go_units x s :
  ∃ ds, js (pretty_N_go x s) = ds ++ js s
        ∧ Forall digitUnit ds ∧ ((0 < x)%N → ds ≠ []).
Proof.
  revert s. induction (N.lt_wf_0 x) as [x _ IH]; intros s.
  destruct (decide (x = 0%N)) as [->|Hx].
  - exists []. rewrite pretty_N_go_0. split; [done|]. split; [constructor|lia].
  - rewrite pretty_N_go_step by lia.
    destruct (IH (x `div` 10)%N (N.div_lt x 10 ltac:(lia) eq_refl)
                 (String (pretty_N_char (x `mod` 10)) s)) as (ds & -> & Hds & _).
    exists (ds ++ [N_of_ascii (pretty_N_char (x `mod` 10))]).
    split; [by rewrite <-app_assoc|]. split.
    + apply Forall_app. split; [done|]. apply Forall_singleton, pretty_N_char_digit.
    + intros _. by destruct ds.
Qed.

Lemma pretty_N_units (x : N) :
  ∃ c ds, js (pretty x) = c :: ds ∧ digitUnit c ∧ Forall digitUnit ds.
Proof.
  unfold pretty, pretty_N. case_decide as Hx.
  - exists 48%N, []. split; [done|]. split; [by vm_compute|constructor].
  - destruct (pretty_N_go_units x "") as (ds & Hds & Hall & Hne).
    rewrite Hds. cbn [js list_ascii_of_string fmap list_fmap]. rewrite app_nil_r.
    destruct ds as [|c ds]; [by destruct Hne; [lia|]|].
    apply Forall_cons in Hall as [? ?]. by exists c, ds.
Qed.

(** A printed number is a digit or a minus sign followed by digits. *)
Lemma numToString_units (z : Z) :
  ∃ c ds, numToString z = c :: ds
          ∧ (digitUnit c ∨ c = dashUnit) ∧ Forall digitUnit ds.
Proof.
  unfold numToString. destruct z as [|p|p].
  - exists 48%N, []. split; [done|]. split; [left; by vm_compute|constructor].
  - destruct (pretty_N_units (N.pos p)) as (c & ds & Hp & ? & ?).
    exists c, ds. by auto.
  - destruct (pretty_N_units (N.pos p)) as (c & ds & Hp & ? & ?).
    exists dashUnit, (c :: ds). split; [|by auto].
    change (pretty (Z.neg p)) with ("-" +:+ pretty (N.pos p)).
    cbn. by rewrite <-Hp.
Qed.

Lemma js_inj s1 s2 : js s1 = js s2 → s1 = s2.
Proof.
  unfold js. intros Heq.
  rewrite <-(string_of_list_ascii_of_string s1), <-(string_of_list_ascii_of_string s2).
  f_equal. revert Heq.
  generalize (list_ascii_of_string s1) (list_ascii_of_string s2).
  induction l as [|a l IH]; intros [|b k]; cbn; try done.
  intros [= Hab Hlk]. f_equal; [|by apply IH].
  by rewrite <-(ascii_N_embedding a), <-(ascii_N_embedding b), Hab.
Qed.

Lemma numToString_inj z1 z2 : numToString z1 = numToString z2 → z1 = z2.
Proof. intros Heq%js_inj. by apply (inj pretty). Qed.

Lemma digits_dash_split ds1 ds2 r1 r2 :
  Forall digitUnit ds1 → Forall digitUnit ds2 →
  ds1 ++ dashUnit :: r1 = ds2 ++ dashUnit :: r2 → ds1 = ds2 ∧ r1 = r2.
Proof.
  intros H1. revert ds2. induction H1 as [|c ds1 Hc _ IH]; intros ds2 H2 Heq.
  - destruct H2 as [|c' ds2 Hc' _]; cbn in Heq; [by injection Heq|].
    injection Heq as <- _. unfold digitUnit, dashUnit in Hc'. lia.
  - destruct H2 as [|c' ds2 Hc' H2]; cbn in Heq.
    + injection Heq as -> _. unfold digitUnit, dashUnit in Hc. lia.
    + injection Heq as -> Heq. destruct (IH ds2 H2 Heq) as [-> ->]. done.
Qed.

Lemma numToString_dash_split z1 z2 r1 r2 :
  numToString z1 ++ dashUnit :: r1 = numToString z2 ++ dashUnit :: r2 →
  z1 = z2 ∧ r1 = r2.
Proof.
  destruct (numToString_units z1) as (c1 & ds1 & Hz1 & _ & Hds1).
  destruct (numToString_units z2) as (c2 & ds2 & Hz2 & _ & Hds2).
  rewrite Hz1, Hz2. cbn. intros [= -> Heq].
  destruct (digits_dash_split _ _ _ _ Hds1 Hds2 Heq) as [-> ->].
  split; [|done]. apply numToString_inj. by rewrite Hz1, Hz2.
Qed.

Lemma positionKey_inj p q :
  positionKey p = positionKey q →
  page p = page q ∧ line p = line q ∧ column p = column q.
Proof.
  unfold positionKey. change (js "-") with [dashUnit]. cbn [app].
  intros [-> Heq]%numToString_dash_split.
  apply numToString_dash_split in Heq as [-> Heq].
  by apply numToString_inj in Heq as ->.
Qed.

(** *** The writes of [buildPositionIndex], in order *)

Lemma indexLine_maps page index line :
  offsetMaps (indexLine page index line)
  = foldl applyWrite (offsetMaps index) (lineWrites page line).
Proof.
  unfold indexLine, lineWrites.
  change (offsetMaps index)
    with (offsetMaps {| offsetToPosition := offsetToPosition index;
                        positionToOffset := positionToOffset index;
                        lineIndex := <[lineNumber line := line]> (lineIndex index);
                        pageIndex := pageIndex index |}).
  generalize {| offsetToPosition := offsetToPosition index;
                positionToOffset := positionToOffset index;
                lineIndex := <[lineNumber line := line]> (lineIndex index);
                pageIndex := pageIndex index |}.
  induction (lineOffsets line) as [|i offsets IH]; intros acc; [done|].
  cbn [foldl fmap list_fmap]. by rewrite IH.
Qed.

Lemma indexPage_maps index page :
  offsetMaps (indexPage index page)
  = foldl applyWrite (offsetMaps index) (pageWrites page).
Proof.
  unfold indexPage, pageWrites.
  change (offsetMaps index)
    with (offsetMaps {| offsetToPosition := offsetToPosition index;
                        positionToOffset := positionToOffset index;
                        lineIndex := lineIndex index;
                        pageIndex := <[pageNumber page := page]> (pageIndex index) |}).
  generalize {| offsetToPosition := offsetToPosition index;
                positionToOffset := positionToOffset index;
                lineIndex := lineIndex index;
                pageIndex := <[pageNumber page := page]> (pageIndex index) |}.
  induction (lines page) as [|line rest IH]; intros acc; [done|].
  cbn [foldl]. by rewrite bind_cons, foldl_app, IH, indexLine_maps.
Qed.

Lemma buildPositionIndex_maps pages :
  offsetMaps (buildPositionIndex pages) = foldl applyWrite (∅, ∅) (allWrites pages).
Proof.
  unfold buildPositionIndex, allWrites.
  change (∅, ∅) with (offsetMaps emptyIndex). generalize emptyIndex.
  induction pages as [|page rest IH]; intros acc; [done|].
  cbn [foldl]. by rewrite bind_cons, foldl_app, IH, indexPage_maps.
Qed.

Lemma elem_of_allWrites pages w :
  w ∈ allWrites pages
  ↔ w.1.1 ∈ pages ∧ w.1.2 ∈ lines w.1.1
    ∧ startOffset w.1.2 ≤ w.2 ≤ endOffset w.1.2.
Proof.
  unfold allWrites, pageWrites, lineWrites, lineOffsets.
  rewrite list_elem_of_bind. setoid_rewrite list_elem_of_bind.
  setoid_rewrite list_elem_of_fmap. setoid_rewrite elem_of_seqZ.
  destruct w as [[page line] i]; cbn. split.
  - intros (page' & (line' & (i' & [= -> -> ->] & Hi) & Hline) & Hpage).
    split; [done|]. split; [done|]. lia.
  - intros (Hpage & Hline & Hi). exists page. split; [|done].
    exists line. split; [|done]. exists i. split; [done|]. lia.
Qed.

(** *** Looking up after a sequence of writes *)

Lemma applyWrite_offset_inv ws o position :
  (foldl applyWrite (∅, ∅) ws).1 !! o = Some position →
  ∃ w, w ∈ ws ∧ w.2 = o ∧ position = writePosition w.
Proof.
  induction ws as [|w ws IH] using rev_ind; [cbn; by rewrite lookup_empty|].
  rewrite foldl_snoc. cbn [applyWrite fst].
  destruct (decide (w.2 = o)) as [<-|Hne].
  - rewrite lookup_insert_eq. intros [= <-]. exists w.
    split; [apply elem_of_app; right; by left|done].
  - rewrite lookup_insert_ne by done. intros (w' & Hw' & ?)%IH.
    exists w'. split; [apply elem_of_app; by left|done].
Qed.

Lemma applyWrite_offset_is_Some ws w :
  w ∈ ws → is_Some ((foldl applyWrite (∅, ∅) ws).1 !! w.2).
Proof.
  induction ws as [|w' ws IH] using rev_ind; [by intros ?%elem_of_nil|].
  rewrite foldl_snoc. cbn [applyWrite fst].
  destruct (decide (w'.2 = w.2)) as [->|Hne].
  - by rewrite lookup_insert_eq.
  - rewrite lookup_insert_ne by done.
    intros [?|Hw%list_elem_of_singleton]%elem_of_app; [by apply IH|].
    by subst.
Qed.

Lemma applyWrite_key ws w :
  w ∈ ws →
  (∀ w', w' ∈ ws →
     positionKey (writePosition w') = positionKey (writePosition w) → w'.2 = w.2) →
  (foldl applyWrite (∅, ∅) ws).2 !! positionKey (writePosition w) = Some w.2.
Proof.
  induction ws as [|w' ws IH] using rev_ind; [by intros ?%elem_of_nil|].
  intros Hw Hsame. rewrite foldl_snoc. cbn [applyWrite snd].
  destruct (decide (positionKey (writePosition w') = positionKey (writePosition w)))
    as [Hkey|Hkey].
  - rewrite Hkey, lookup_insert_eq. f_equal. apply Hsame; [|done].
    apply elem_of_app. right. by left.
  - rewrite lookup_insert_ne by done.
    apply elem_of_app in Hw as [Hw|Hw%list_elem_of_singleton]; [|by subst].
    apply IH; [done|]. intros w'' Hw''. apply Hsame, elem_of_app. by left.
Qed.

Lemma NoDup_fmap_eq {A B} (f : A → B) (l : list A) x y :
  NoDup (f <$> l) → x ∈ l → y ∈ l → f x = f y → x = y.
Proof.
  induction l as [|a l IH]; cbn; [by intros _ ?%elem_of_nil|].
  rewrite NoDup_cons, !elem_of_cons, list_elem_of_fmap.
  intros [Hfresh Hnodup] [->|Hx] [->|Hy] Hf; [done| | |by apply IH].
  - destruct Hfresh. by exists y.
  - destruct Hfresh. by exists x.
Qed.

(** X30: the index has an entry for an offset exactly when some line of some
    page covers it, from the start to the end offset of the line inclusive;
    a lookup of any other offset finds nothing. *)
Lemma offsetToPosition_domain (pages : list DocumentPage) (o : Z) :
  is_Some (offsetToPosition (buildPositionIndex pages) !! o) ↔ validOffset pages o.
Proof.
  pose proof (f_equal fst (buildPositionIndex_maps pages)) as Hfst.
  cbn [offsetMaps fst] in Hfst. rewrite Hfst. split.
  - intros [position (w & Hw & <- & _)%applyWrite_offset_inv].
    apply elem_of_allWrites in Hw as (? & ? & ?). by exists w.1.1, w.1.2.
  - intros (page & line & Hpage & Hline & Ho).
    apply (applyWrite_offset_is_Some _ (page, line, o)).
    by apply elem_of_allWrites.
Qed.

(** C2: in a document with unique page numbers and unique line numbers
    within each page, the index maps every valid offset to a position whose
    key the inverse map sends back to that offset; the position also
    records the offset as its absoluteOffset. *)
Theorem buildPositionIndex_round_trip (pages : list DocumentPage) (o : Z) :
  uniqueNumbering pages →
  validOffset pages o →
  ∃ position,
    offsetToPosition (buildPositionIndex pages) !! o = Some position
    ∧ absoluteOffset position = o
    ∧ positionToOffset (buildPositionIndex pages) !! positionKey position = Some o.
Proof.
  intros [Hpages Hlines] (page & line & Hpage & Hline & Ho).
  pose proof (buildPositionIndex_maps pages) as Hmaps.
  apply (f_equal fst) in Hmaps as Hfst. apply (f_equal snd) in Hmaps as Hsnd.
  cbn [offsetMaps fst snd] in Hfst, Hsnd. rewrite Hfst, Hsnd. clear Hmaps Hfst Hsnd.
  assert ((page, line, o) ∈ allWrites pages) as Hw by (by apply elem_of_allWrites).
  destruct (applyWrite_offset_is_Some _ _ Hw) as [position Hposition].
  cbn [snd] in Hposition. exists position. split; [done|].
  apply applyWrite_offset_inv in Hposition as (w & Hwin & <- & ->).
  split; [done|]. apply applyWrite_key; [done|].
  intros w' Hw'in Hkey.
  apply positionKey_inj in Hkey as (Hp & Hl & Hc). cbn in Hp, Hl, Hc.
  apply elem_of_allWrites in Hwin as (Hwp & Hwl & _).
  apply elem_of_allWrites in Hw'in as (Hw'p & Hw'l & _).
  assert (w'.1.1 = w.1.1) as Hsamepage by (by eapply NoDup_fmap_eq).
  rewrite Hsamepage in Hw'l.
  rewrite Forall_forall in Hlines.
  assert (w'.1.2 = w.1.2) as Hsameline
    by (eapply NoDup_fmap_eq; [by apply (Hlines w.1.1)|done..]).
  rewrite Hsameline in Hc. lia.
Qed.

(** *** Documents built by the parser *)

Lemma buildLinesFrom_lineNumbers textLines index pageNumber currentOffset :
  lineNumber <$> buildLinesFrom textLines index pageNumber currentOffset
  = (λ k, Z.of_nat k + 1) <$> seq index (length textLines).
Proof.
  revert index currentOffset.
  induction textLines as [|l rest IH]; intros index currentOffset; [done|].
  cbn. by rewrite IH.
Qed.

Lemma buildLineStructure_NoDup content pageNumber pageOffset :
  NoDup (lineNumber <$> buildLineStructure content pageNumber pageOffset).
Proof.
  unfold buildLineStructure. rewrite buildLinesFrom_lineNumbers.
  apply NoDup_fmap_2; [|apply NoDup_seq]. intros a b. lia.
Qed.

Lemma span_cons l textLines : span (l :: textLines) = S (length l + span textLines).
Proof. done. Qed.

Lemma splitLines_span s : span (splitLines s) = S (length s).
Proof.
  induction s as [|c s IH]; [done|].
  cbn [splitLines]. case_decide.
  - by rewrite span_cons, IH.
  - destruct (splitLines s) as [|l ls]; [done|].
    rewrite span_cons in *. cbn [length]. lia.
Qed.

Lemma buildLinesFrom_cover textLines index pageNumber currentOffset o :
  currentOffset ≤ o < currentOffset + Z.of_nat (span textLines) →
  ∃ line, line ∈ buildLinesFrom textLines index pageNumber currentOffset
          ∧ startOffset line ≤ o ≤ endOffset line.
Proof.
  revert index currentOffset.
  induction textLines as [|l rest IH]; intros index currentOffset Ho.
  - change (span []) with 0%nat in Ho. lia.
  - cbn [buildLinesFrom].
    destruct (decide (o ≤ currentOffset + Z.of_nat (length l))) as [Hin|Hout].
    + eexists. split; [by left|]. cbn. lia.
    + destruct (IH (S index) (currentOffset + Z.of_nat (length l) + 1))
        as (line & Hline & Hcover).
      { rewrite span_cons in Ho. lia. }
      exists line. split; [by right|done].
Qed.

Lemma buildLineStructure_cover content pageNumber pageOffset o :
  pageOffset ≤ o ≤ pageOffset + Z.of_nat (length content) →
  ∃ line, line ∈ buildLineStructure content pageNumber pageOffset
          ∧ startOffset line ≤ o ≤ endOffset line.
Proof.
  intros Ho. apply buildLinesFrom_cover. rewrite splitLines_span. lia.
Qed.

(** A plain-text document satisfies the premises of the round trip at every
    offset from 0 to its character count. *)
Lemma parseTextDocument_offsets toUpperCase randomId file o :
  let doc := parseTextDocument toUpperCase randomId file in
  uniqueNumbering (pages doc)
  ∧ (0 ≤ o ≤ characterCount doc → validOffset (pages doc) o).
Proof.
  cbn. split.
  - split; [apply NoDup_singleton|].
    apply Forall_singleton, buildLineStructure_NoDup.
  - intros Ho.
    destruct (buildLineStructure_cover (fileText file) 1 0 o) as (line & ? & ?);
      [lia|].
    eexists _, line. split; [by left|]. done.
Qed.

Lemma pdfPageStep_pages extracted st :
  ∃ new, (foldl pdfPageStep st extracted).1.1 = st.1.1 ++ new
         ∧ pageNumber <$> new = seqZ st.1.2 (Z.of_nat (length extracted))
         ∧ Forall (λ page, NoDup (lineNumber <$> lines page)) new.
Proof.
  revert st. induction extracted as [|[[text h] w] rest IH]; intros st.
  - exists []. by rewrite app_nil_r.
  - cbn [foldl]. destruct st as [[ps n] off].
    destruct (IH (pdfPageStep (ps, n, off) (text, h, w)))
      as (new & -> & Hnumbers & Hlines).
    cbn [pdfPageStep fst snd] in *.
    eexists (_ :: new). split; [by rewrite <-app_assoc|]. split.
    + rewrite fmap_cons, Hnumbers. cbn [pageNumber length].
      rewrite Nat2Z.inj_succ, (seqZ_cons n) by lia.
      by rewrite Z.pred_succ.
    + constructor; [apply buildLineStructure_NoDup|done].
Qed.

(** So do the pages built from the extracted text of a PDF file. *)
Lemma pdfPages_uniqueNumbering extracted : uniqueNumbering (pdfPages extracted).
Proof.
  unfold pdfPages.
  destruct (pdfPageStep_pages extracted ([], 1, 0)) as (new & -> & Hnumbers & Hlines).
  cbn. split; [|done]. rewrite Hnumbers. apply NoDup_seqZ.
Qed.

(** Offset 3, the first character of the second line of a two-line text. *)
Lemma buildPositionIndex_round_trip_witness :
  let pages := pages (textDocument (js "ab" ++ [LF] ++ js "cd")) in
  uniqueNumbering pages ∧ validOffset pages 3
  ∧ ∃ position,
      offsetToPosition (buildPositionIndex pages) !! 3 = Some position
      ∧ absoluteOffset position = 3
      ∧ positionToOffset (buildPositionIndex pages) !! positionKey position = Some 3.
Proof.
  pose proof (parseTextDocument_offsets asciiUpper (js "k3x91mzqa")
                {| fileName := js "a.txt"; fileType := js "text/plain";
                   fileSize := 5; fileText := js "ab" ++ [LF] ++ js "cd";
                   lastModified := 0 |} 3) as [Hunique Hvalid].
  specialize (Hvalid ltac:(by vm_compute)).
  split; [exact Hunique|]. split; [exact Hvalid|].
  exact (buildPositionIndex_round_trip _ 3 Hunique Hvalid).
Defined.

(** ** Scores *)

Lemma inUnitInterval_Qred q : inUnitInterval (Fin (Qred q)) ↔ (0 <= q)%Q ∧ (q <= 1)%Q.
Proof. cbn. by rewrite !Qred_correct. Qed.

Lemma Qeq_bool_inject_Z_pos (b : Z) : 0 < b → Qeq_bool (inject_Z b) 0 = false.
Proof.
  intros Hb. apply not_true_iff_false. rewrite Qeq_bool_iff.
  unfold Qeq. cbn. lia.
Qed.

Lemma jsDivQ_pos (x : Q) (b : Z) :
  0 < b → jsDivQ x (inject_Z b) = Fin (Qred (x / inject_Z b)).
Proof. intros Hb. unfold jsDivQ. by rewrite Qeq_bool_inject_Z_pos. Qed.

Lemma inject_Z_pos (b : Z) : 0 < b → (0 < inject_Z b)%Q.
Proof. intros Hb. unfold Qlt. cbn. lia. Qed.

Lemma inject_Z_nonneg (a : Z) : 0 ≤ a → (0 <= inject_Z a)%Q.
Proof. intros Ha. unfold Qle. cbn. lia. Qed.

Lemma Qdiv_inject_Z_le_1 (a b : Z) : a ≤ b → 0 < b → (inject_Z a / inject_Z b <= 1)%Q.
Proof.
  intros Hab Hb. apply Qle_shift_div_r; [by apply inject_Z_pos|].
  by rewrite Qmult_1_l, <-Zle_Qle.
Qed.

Lemma Qdiv_inject_Z_nonneg (a b : Z) : 0 ≤ a → 0 < b → (0 <= inject_Z a / inject_Z b)%Q.
Proof.
  intros Ha Hb. apply Qle_shift_div_l; [by apply inject_Z_pos|].
  rewrite Qmult_0_l. by apply inject_Z_nonneg.
Qed.

Lemma jsDiv_ofZ_unit (a b : Z) :
  0 ≤ a ≤ b → 0 < b → inUnitInterval (jsDiv (ofZ a) (ofZ b)).
Proof.
  intros Hab Hb. unfold jsDiv, ofZ. rewrite jsDivQ_pos by done.
  apply inUnitInterval_Qred.
  split; [by apply Qdiv_inject_Z_nonneg; lia|by apply Qdiv_inject_Z_le_1; lia].
Qed.

Lemma mathMax0_unit q : (q <= 1)%Q → inUnitInterval (mathMax0 (Fin q)).
Proof.
  intros Hq. unfold mathMax0. destruct (Qle_bool 0 q) eqn:Hsign; cbn.
  - by apply Qle_bool_iff in Hsign.
  - split; [apply Qle_refl|]. by unfold Qle; cbn.
Qed.

Lemma orZero_unit x : inUnitInterval x → inUnitInterval (orZero x).
Proof.
  destruct x as [q| | |]; cbn; try done.
  destruct (Qeq_bool q 0); cbn; [|done].
  intros _. split; [apply Qle_refl|]. by unfold Qle; cbn.
Qed.

Lemma changedChars_from_nonneg ds (acc : Z) :
  acc ≤ foldl (λ sum diff,
                 sum + Z.max (Z.of_nat (length (leftContent diff)))
                             (Z.of_nat (length (rightContent diff))))
              acc ds.
Proof.
  revert acc. induction ds as [|d ds IH]; intros acc; cbn; [lia|].
  etrans; [|apply IH]. lia.
Qed.

Lemma changedChars_nonneg ds : 0 ≤ changedChars ds.
Proof. apply changedChars_from_nonneg. Qed.

(** The overall similarity when at least one document has characters. *)
Lemma overallSimilarity_bounded ds leftDoc rightDoc :
  0 < Z.max (characterCount leftDoc) (characterCount rightDoc) →
  inUnitInterval (overallSimilarity (calculateStatistics ds leftDoc rightDoc)).
Proof.
  intros Htotal. cbn [calculateStatistics overallSimilarity].
  unfold jsDiv, ofZ. rewrite jsDivQ_pos by done. apply mathMax0_unit.
  rewrite Qred_correct. apply Qdiv_inject_Z_le_1; [|done].
  pose proof (changedChars_nonneg ds). lia.
Qed.

Lemma overallSimilarity_unchanged leftDoc rightDoc :
  0 < Z.max (characterCount leftDoc) (characterCount rightDoc) →
  overallSimilarity (calculateStatistics [] leftDoc rightDoc) = Fin 1.
Proof.
  intros Htotal. cbn [calculateStatistics overallSimilarity].
  change (changedChars []) with 0. rewrite Z.sub_0_r.
  unfold jsDiv, ofZ. rewrite jsDivQ_pos by done.
  assert (Qred (inject_Z (Z.max (characterCount leftDoc) (characterCount rightDoc))
                / inject_Z (Z.max (characterCount leftDoc) (characterCount rightDoc)))
          = Qred 1) as ->.
  { apply Qred_complete, Qmult_inv_r. unfold Qeq. cbn. lia. }
  done.
Qed.

(** The overall similarity when neither document has characters: the
    divisor is zero. *)
Lemma overallSimilarity_no_characters ds leftDoc rightDoc :
  characterCount leftDoc = 0 → characterCount rightDoc = 0 →
  overallSimilarity (calculateStatistics ds leftDoc rightDoc)
  = if decide (changedChars ds = 0) then NaN else Fin 0.
Proof.
  intros Hl Hr. cbn [calculateStatistics overallSimilarity]. rewrite Hl, Hr.
  pose proof (changedChars_nonneg ds) as Hnonneg.
  change (Z.max 0 0) with 0. case_decide as Hc.
  - by rewrite Hc.
  - destruct (changedChars ds) as [|p|p]; [done| |lia]. done.
Qed.

Lemma confidence_sum ds (a : Q) :
  Forall (λ d, inUnitInterval (confidence d)) ds →
  ∃ s, foldl (λ sum diff, jsAdd sum (confidence diff)) (Fin a) ds = Fin s
       ∧ (a <= s)%Q ∧ (s <= a + inject_Z (Z.of_nat (length ds)))%Q.
Proof.
  intros Hall. revert a. induction Hall as [|d ds Hd _ IH]; intros a.
  - exists a. split; [done|]. split; [apply Qle_refl|].
    cbn. rewrite Qplus_0_r. apply Qle_refl.
  - cbn [foldl]. destruct (confidence d) as [c| | |]; try done.
    destruct Hd as [Hc0 Hc1]. cbn [jsAdd].
    destruct (IH (Qred (a + c))) as (s & -> & Hlo & Hhi).
    exists s. split; [done|]. rewrite Qred_correct in Hlo, Hhi. split.
    + apply Qle_trans with (a + c)%Q; [|done].
      rewrite <-(Qplus_0_r a) at 1. by apply Qplus_le_r.
    + apply Qle_trans with (a + c + inject_Z (Z.of_nat (length ds)))%Q; [done|].
      rewrite length_cons, Nat2Z.inj_succ. unfold Z.succ. rewrite inject_Z_plus.
      rewrite <-Qplus_assoc. apply Qplus_le_r.
      rewrite (Qplus_comm (inject_Z (Z.of_nat (length ds)))).
      by apply Qplus_le_l.
Qed.

Lemma averageConfidence_bounded ds leftDoc rightDoc :
  Forall (λ d, inUnitInterval (confidence d)) ds →
  inUnitInterval (averageConfidence (calculateStatistics ds leftDoc rightDoc)).
Proof.
  intros Hall. cbn [calculateStatistics averageConfidence].
  destruct (confidence_sum ds 0 Hall) as (s & -> & Hlo & Hhi).
  destruct ds as [|d ds].
  - cbn in Hhi. assert (s == 0)%Q as Hs by (by apply Qle_antisym).
    unfold jsDiv, ofNat, ofZ, jsDivQ. cbn [length Z.of_nat].
    change (Qeq_bool (inject_Z 0) 0) with true. cbn match.
    rewrite (Qeq_alt s 0) in Hs. rewrite Hs. cbn.
    split; [apply Qle_refl|]. by unfold Qle; cbn.
  - apply orZero_unit. unfold jsDiv, ofNat, ofZ.
    rewrite jsDivQ_pos by (cbn; lia). apply inUnitInterval_Qred.
    rewrite Qplus_0_l in Hhi.
    assert (0 < inject_Z (Z.of_nat (length (d :: ds))))%Q as Hpos
      by (apply inject_Z_pos; cbn; lia).
    split.
    + apply Qle_shift_div_l; [done|]. by rewrite Qmult_0_l.
    + apply Qle_shift_div_r; [done|]. by rewrite Qmult_1_l.
Qed.

(** *** The edit distance is at most the longer length *)

Lemma rowBounded_nil i : rowBounded i [].
Proof. intros j. destruct j; cbn; lia. Qed.

Lemma rowBounded_seq n : rowBounded 0 (seq 0 n).
Proof.
  intros j. destruct (decide (j < n)%nat) as [Hj|Hj].
  - rewrite seq_nth by done. lia.
  - rewrite nth_overflow by (rewrite length_seq; lia). lia.
Qed.

Lemma rowBounded_snoc i row cell :
  rowBounded i row → (cell ≤ Nat.max i (length row))%nat →
  rowBounded i (row ++ [cell]).
Proof.
  intros Hrow Hcell j.
  destruct (Nat.lt_trichotomy j (length row)) as [Hj|[->|Hj]].
  - rewrite app_nth1 by done. apply Hrow.
  - by rewrite nth_middle.
  - rewrite nth_overflow by (rewrite length_app; cbn; lia). lia.
Qed.

Lemma fillRow_bounded str1 c2 prev row i :
  rowBounded i prev → rowBounded (S i) row → (0 < length row)%nat →
  rowBounded (S i) (fillRow str1 c2 prev row (length row)).
Proof.
  intros Hprev. revert row. induction str1 as [|c1 rest IH]; intros row Hrow Hlen.
  - done.
  - cbn [fillRow].
    match goal with
    | |- rowBounded _ (fillRow _ _ _ (row ++ [?cell]) _) => set (v := cell)
    end.
    assert (v ≤ Nat.max (S i) (length row))%nat as Hcell.
    { pose proof (Hprev (length row - 1)%nat) as Hdiag.
      subst v. case_decide; unfold min3; lia. }
    clearbody v. specialize (IH (row ++ [v])).
    rewrite length_app, Nat.add_1_r in IH.
    apply IH; [by apply rowBounded_snoc|lia].
Qed.

Lemma fillMatrix_bounded str1 str2 matrix :
  (0 < length matrix)%nat →
  (∀ k, rowBounded k (nth k matrix [])) →
  ∀ k, rowBounded k (nth k (fillMatrix str1 str2 matrix (length matrix)) []).
Proof.
  revert matrix. induction str2 as [|c2 rest IH]; intros matrix Hlen Hrows; [done|].
  cbn [fillMatrix].
  match goal with
  | |- ∀ k, rowBounded k (nth k (fillMatrix _ _ (matrix ++ [?row]) _) []) =>
      set (new := row)
  end.
  assert (rowBounded (length matrix) new) as Hnew.
  { subst new. destruct (length matrix) as [|i] eqn:Hi; [lia|].
    replace (S i - 1)%nat with i by lia.
    apply (fillRow_bounded str1 c2 (nth i matrix []) [S i] i); [apply Hrows| |cbn; lia].
    intros [|j]; cbn; [lia|]. destruct j; lia. }
  clearbody new. specialize (IH (matrix ++ [new])).
  rewrite length_app, Nat.add_1_r in IH.
  apply IH; [lia|].
  intros k. destruct (Nat.lt_trichotomy k (length matrix)) as [Hk|[->|Hk]].
  - rewrite app_nth1 by done. apply Hrows.
  - by rewrite nth_middle.
  - rewrite nth_overflow by (rewrite length_app; cbn; lia). apply rowBounded_nil.
Qed.

Lemma levenshteinDistance_bounded str1 str2 :
  (levenshteinDistance str1 str2 ≤ Nat.max (length str1) (length str2))%nat.
Proof.
  unfold levenshteinDistance.
  pose proof (fillMatrix_bounded str1 str2 [seq 0 (S (length str1))]) as Hrows.
  cbn [length] in Hrows.
  specialize (Hrows ltac:(lia)). rewrite Nat.max_comm. apply Hrows.
  intros [|k]; [apply rowBounded_seq|]. cbn. destruct k; apply rowBounded_nil.
Qed.

Lemma calculateWordSimilarity_bounded left right :
  inUnitInterval (calculateWordSimilarity left right).
Proof.
  unfold calculateWordSimilarity.
  set (longer := if decide (length right < length left)%nat then left else right).
  set (shorter := if decide (length right < length left)%nat then right else left).
  case_decide as Hempty.
  - cbn. split; [by unfold Qle; cbn|apply Qle_refl].
  - pose proof (levenshteinDistance_bounded longer shorter) as Hdist.
    assert (length shorter ≤ length longer)%nat
      by (unfold longer, shorter; case_decide; lia).
    unfold ofNat. apply jsDiv_ofZ_unit; lia.
Qed.

(** *** Scores of the differences *)

Lemma unit_constants :
  inUnitInterval (Fin 0) ∧ inUnitInterval (Fin 1) ∧ inUnitInterval (Fin (1 # 2))
  ∧ inUnitInterval (Fin (8 # 10)) ∧ inUnitInterval (Fin (9 # 10)).
Proof. cbn. unfold Qle. cbn. lia. Qed.

(** Every difference of a comparison result has similarity and confidence
    in the unit interval, and so has the average confidence. *)
Lemma difference_scores_bounded diffLines diffWords leftDoc rightDoc res :
  compareDocuments diffLines diffWords leftDoc rightDoc = Ok res →
  Forall scoresBounded (differences res)
  ∧ inUnitInterval (averageConfidence (statistics res)).
Proof.
  intros Hres.
  destruct (compareDocuments_Ok _ _ _ _ _ Hres) as (lineDs & Hline & Hdiffs & Hstats).
  destruct unit_constants as (H0 & H1 & Hhalf & H8 & H9).
  assert (Forall scoresBounded (differences res)) as Hall.
  { rewrite Hdiffs. apply optimizeDifferences_Forall. rewrite !Forall_app.
    split; [|split].
    - eapply detectLineDifferences_Forall; [| |exact Hline]; by intros.
    - apply detectWordDifferences_Forall. intros. split; [|done].
      apply calculateWordSimilarity_bounded.
    - apply detectStructuralDifferences_Forall; by intros. }
  split; [done|]. rewrite Hstats. apply averageConfidence_bounded.
  eapply Forall_impl; [exact Hall|]. by intros d [_ ?].
Qed.

(** With a document that has characters, so has the overall similarity. *)
Lemma statistics_scores_bounded diffLines diffWords leftDoc rightDoc res :
  compareDocuments diffLines diffWords leftDoc rightDoc = Ok res →
  0 < Z.max (characterCount leftDoc) (characterCount rightDoc) →
  inUnitInterval (overallSimilarity (statistics res)).
Proof.
  intros Hres Htotal.
  destruct (compareDocuments_Ok _ _ _ _ _ Hres) as (_ & _ & _ & ->).
  by apply overallSimilarity_bounded.
Qed.

(** ** When the comparison returns *)

Lemma findPositionByLineIndex_nonneg doc lineIndex :
  0 ≤ lineIndex → ∃ position, findPositionByLineIndex doc lineIndex = Ok position.
Proof.
  intros Hk. unfold findPositionByLineIndex.
  rewrite <-(Z2Nat.id lineIndex), <-(Z.add_0_l (Z.of_nat _)) by done.
  rewrite findPositionFrom_spec. by eexists.
Qed.

Lemma lineStep_indices leftDoc rightDoc st part st' :
  0 ≤ leftLineIndex st → 0 ≤ rightLineIndex st →
  lineStep leftDoc rightDoc st part = Ok st' →
  0 ≤ leftLineIndex st' ∧ 0 ≤ rightLineIndex st'.
Proof.
  intros Hl Hr. unfold lineStep. destruct (added part).
  - destruct (findPositionByLineIndex rightDoc _); cbn; [|discriminate].
    intros [= <-]. cbn. lia.
  - destruct (removed part).
    + destruct (findPositionByLineIndex leftDoc _); cbn; [|discriminate].
      intros [= <-]. cbn. lia.
    + cbn. discriminate.
Qed.

(** The line-level differ raises exactly when the script has a part that is
    neither added nor removed. *)
Lemma lineStep_throws leftDoc rightDoc parts st :
  0 ≤ leftLineIndex st → 0 ≤ rightLineIndex st →
  Exists isUnchanged parts →
  forEachM (lineStep leftDoc rightDoc) st parts = Throw undefinedMethod.
Proof.
  revert st. induction parts as [|part parts IH]; intros st Hl Hr Hex.
  - by apply Exists_nil in Hex.
  - cbn [forEachM].
    destruct (lineStep leftDoc rightDoc st part) as [st'|e] eqn:Hstep.
    + cbn. destruct (lineStep_indices _ _ _ _ _ Hl Hr Hstep) as [Hl' Hr'].
      apply IH; [done..|]. apply Exists_cons in Hex as [[Ha Hrm]|Hex]; [|done].
      unfold lineStep in Hstep. rewrite Ha, Hrm in Hstep. cbn in Hstep. discriminate.
    + cbn. f_equal. unfold lineStep in Hstep. destruct (added part).
      * destruct (findPositionByLineIndex_nonneg rightDoc _ Hr) as [pos Hpos].
        rewrite Hpos in Hstep. cbn in Hstep. discriminate.
      * destruct (removed part).
        -- destruct (findPositionByLineIndex_nonneg leftDoc _ Hl) as [pos Hpos].
           rewrite Hpos in Hstep. cbn in Hstep. discriminate.
        -- cbn in Hstep. by injection Hstep as <-.
Qed.

Lemma lineStep_returns leftDoc rightDoc parts st :
  0 ≤ leftLineIndex st → 0 ≤ rightLineIndex st →
  Forall (λ part, ¬ isUnchanged part) parts →
  ∃ st', forEachM (lineStep leftDoc rightDoc) st parts = Ok st'.
Proof.
  revert st. induction parts as [|part parts IH]; intros st Hl Hr Hall.
  - by eexists.
  - apply Forall_cons in Hall as [Hpart Hall]. cbn [forEachM].
    assert (∃ st1, lineStep leftDoc rightDoc st part = Ok st1) as [st1 Hstep].
    { unfold lineStep. destruct (added part) eqn:Ha.
      - destruct (findPositionByLineIndex_nonneg rightDoc _ Hr) as [pos ->].
        by eexists.
      - destruct (removed part) eqn:Hrm; [|by destruct Hpart].
        destruct (findPositionByLineIndex_nonneg leftDoc _ Hl) as [pos ->].
        by eexists. }
    rewrite Hstep. cbn.
    destruct (lineStep_indices _ _ _ _ _ Hl Hr Hstep) as [Hl' Hr'].
    by apply IH.
Qed.

Lemma compareDocuments_throws_iff diffLines diffWords leftDoc rightDoc :
  compareDocuments diffLines diffWords leftDoc rightDoc = Throw undefinedMethod
  ↔ Exists isUnchanged
      (diffLines (extractFullContent leftDoc) (extractFullContent rightDoc)).
Proof.
  unfold compareDocuments, detectLineDifferences. split.
  - intros Hthrow.
    destruct (decide (Exists isUnchanged
                        (diffLines (extractFullContent leftDoc)
                                   (extractFullContent rightDoc)))) as [|Hall];
      [done|].
    apply not_Exists_Forall in Hall; [|apply _].
    destruct (lineStep_returns leftDoc rightDoc _
                {| lineDiffs := []; leftLineIndex := 0; rightLineIndex := 0;
                   diffIndex := 0 |} ltac:(done) ltac:(done) Hall) as [st' Hrun].
    rewrite Hrun in Hthrow. cbn in Hthrow. discriminate.
  - intros Hex. by rewrite lineStep_throws.
Qed.

(** The other two differs find nothing between a document and itself. *)
Lemma detectWordDifferences_identical diffWords doc :
  detectWordDifferences diffWords doc doc = [].
Proof.
  unfold detectWordDifferences.
  generalize (seq 0 (Nat.max (length (extractParagraphs doc))
                             (length (extractParagraphs doc)))).
  intros indices. induction indices as [|i indices IH]; [done|].
  cbn [foldl]. unfold paragraphStep at 2. by rewrite decide_False by (by intros []).
Qed.

Lemma detectStructuralDifferences_identical diffLines doc :
  Forall isUnchanged (diffLines (joinLines (title <$> sections doc))
                                (joinLines (title <$> sections doc))) →
  detectStructuralDifferences diffLines doc doc = [].
Proof.
  unfold detectStructuralDifferences. rewrite decide_False by (intros Hne; by apply Hne).
  intros Hall. generalize 0.
  induction Hall as [|part parts [Ha Hr] _ IH]; intros index; [done|].
  cbn [foldl]. unfold sectionStep at 2. rewrite Ha, Hr. apply IH.
Qed.

(** ** Documents without characters *)

(** C4 fails in the code: for two documents without characters the overall
    similarity of a returned result is NaN or 0, never 1; it is NaN when no
    difference was found, because the divisor is not guarded.  The average
    confidence, whose divisor is guarded, is then 0 and the counts are zero. *)
Theorem compareDocuments_no_characters
    (diffLines diffWords : jsstring → jsstring → list Change)
    (leftDoc rightDoc : DocumentStructure) (res : ComparisonResult) :
  characterCount leftDoc = 0 → characterCount rightDoc = 0 →
  compareDocuments diffLines diffWords leftDoc rightDoc = Ok res →
  (overallSimilarity (statistics res) = NaN
   ∨ overallSimilarity (statistics res) = Fin 0)
  ∧ overallSimilarity (statistics res) ≠ Fin 1
  ∧ (differences res = [] →
     overallSimilarity (statistics res) = NaN
     ∧ averageConfidence (statistics res) = Fin 0
     ∧ totalDifferences (statistics res) = 0%nat
     ∧ additions (statistics res) = 0%nat
     ∧ deletions (statistics res) = 0%nat
     ∧ modifications (statistics res) = 0%nat).
Proof.
  intros Hl Hr Hres.
  destruct (compareDocuments_Ok _ _ _ _ _ Hres) as (_ & _ & _ & ->).
  rewrite overallSimilarity_no_characters by done. split; [|split].
  - case_decide; [by left|by right].
  - case_decide; discriminate.
  - intros ->. done.
Qed.

(** Two empty plain-text documents, with the reference edit script. *)
Lemma compareDocuments_no_characters_witness :
  characterCount (textDocument []) = 0
  ∧ ∃ res,
      compareDocuments ReferenceDiff.diffLines ReferenceDiff.diffWords
        (textDocument []) (textDocument []) = Ok res
      ∧ differences res = []
      ∧ overallSimilarity (statistics res) = NaN
      ∧ averageConfidence (statistics res) = Fin 0.
Proof.
  split; [done|].
  destruct (compareDocuments ReferenceDiff.diffLines ReferenceDiff.diffWords
              (textDocument []) (textDocument [])) as [res|e] eqn:Hres.
  - exists res. split; [done|].
    assert (differences res = []) as Hnone
      by (revert Hres; vm_compute; by intros [= <-]).
    split; [done|].
    destruct (compareDocuments_no_characters _ _ (textDocument []) (textDocument [])
                res eq_refl eq_refl Hres)
      as (_ & _ & Hstats).
    destruct (Hstats Hnone) as (? & ? & _). done.
  - exfalso. revert Hres. vm_compute. discriminate.
Defined.

(** C8 fails in the code: the statistics of no differences between two
    empty documents have NaN as overall similarity, which is not a number of
    the unit interval; the comparison of two empty documents returns these
    statistics when the line script of two empty texts is empty. *)
Theorem overallSimilarity_not_bounded :
  overallSimilarity (calculateStatistics [] (textDocument []) (textDocument [])) = NaN
  ∧ ¬ inUnitInterval
        (overallSimilarity
           (calculateStatistics [] (textDocument []) (textDocument [])))
  ∧ (overallSimilarity ∘ statistics)
      <$> compareDocuments ReferenceDiff.diffLines ReferenceDiff.diffWords
            (textDocument []) (textDocument [])
    = Ok NaN.
Proof.
  split; [by vm_compute|]. split; [by vm_compute|].
  vm_compute. done.
Qed.

(** * Further properties *)

(** ** The edit distance *)

Lemma editDistance_nil_l rb : editDistance [] rb = length rb.
Proof. by destruct rb. Qed.

Lemma editDistance_nil_r ra : editDistance ra [] = length ra.
Proof. by destruct ra. Qed.

Lemma editDistance_cons x ra y rb :
  editDistance (x :: ra) (y :: rb)
  = if decide (x = y) then editDistance ra rb
    else S (min3 (editDistance ra rb) (editDistance ra (y :: rb))
                 (editDistance (x :: ra) rb)).
Proof. done. Qed.

(** Row [i] of the matrix holds the distances of the prefixes of [str1] to
    the prefix of length [i] of [str2]. *)
Lemma fillRow_editDistance rest c2 prev rb done row :
  length row = S (length done) →
  (∀ k, (k ≤ length (done ++ rest))%nat →
     nth k prev 0%nat = editDistance (reverse (take k (done ++ rest))) rb) →
  (∀ k, (k ≤ length done)%nat →
     nth k row 0%nat = editDistance (reverse (take k (done ++ rest))) (c2 :: rb)) →
  ∀ k, (k ≤ length (done ++ rest))%nat →
    nth k (fillRow rest c2 prev row (S (length done))) 0%nat
    = editDistance (reverse (take k (done ++ rest))) (c2 :: rb).
Proof.
  revert done row. induction rest as [|c1 rest IH]; intros done row Hlen Hprev Hrow.
  - rewrite app_nil_r in *. done.
  - cbn [fillRow].
    match goal with
    | |- ∀ k, _ → nth k (fillRow _ _ _ (row ++ [?cell]) _) _ = _ => set (v := cell)
    end.
    assert (v = editDistance (reverse (take (S (length done)) (done ++ c1 :: rest)))
                             (c2 :: rb)) as Hv.
    { assert (take (length done) (done ++ c1 :: rest) = done) as Hd
        by apply take_app_length.
      assert (take (S (length done)) (done ++ c1 :: rest) = done ++ [c1]) as Hu.
      { replace (done ++ c1 :: rest) with ((done ++ [c1]) ++ rest)
          by (by rewrite <-app_assoc).
        replace (S (length done)) with (length (done ++ [c1]))
          by (rewrite length_app; cbn; lia).
        apply take_app_length. }
      pose proof (Hprev (length done) ltac:(rewrite length_app; lia)) as Hdiag.
      pose proof (Hprev (S (length done)) ltac:(rewrite length_app; cbn; lia)) as Hup.
      pose proof (Hrow (length done) ltac:(lia)) as Hleft.
      rewrite Hd in Hdiag, Hleft. rewrite Hu in Hup. rewrite Hu.
      rewrite reverse_snoc in Hup |- *. rewrite editDistance_cons.
      subst v. replace (S (length done) - 1)%nat with (length done) by lia.
      rewrite Hdiag, Hleft, Hup.
      destruct (decide (c2 = c1)) as [->|Hne].
      - by rewrite decide_True.
      - rewrite decide_False by congruence. unfold min3. lia. }
    clearbody v.
    specialize (IH (done ++ [c1]) (row ++ [v])).
    replace ((done ++ [c1]) ++ rest) with (done ++ c1 :: rest) in IH
      by (by rewrite <-app_assoc).
    replace (length (done ++ [c1])) with (S (length done)) in IH
      by (rewrite length_app; cbn; lia).
    replace (length (row ++ [v])) with (S (length row)) in IH
      by (rewrite length_app; cbn; lia).
    apply IH; [lia|done|].
    intros k Hk. destruct (decide (k = S (length done))) as [->|Hne].
    + rewrite <-Hlen, nth_middle. by rewrite Hlen.
    + rewrite app_nth1 by lia. apply Hrow. lia.
Qed.


Lemma fillMatrix_editDistance str1 rest2 done2 matrix :
  length matrix = S (length done2) →
  (∀ i k, (i ≤ length done2)%nat → (k ≤ length str1)%nat →
     nth k (nth i matrix []) 0%nat
     = editDistance (reverse (take k str1)) (reverse (take i (done2 ++ rest2)))) →
  ∀ i k, (i ≤ length (done2 ++ rest2))%nat → (k ≤ length str1)%nat →
    nth k (nth i (fillMatrix str1 rest2 matrix (S (length done2))) []) 0%nat
    = editDistance (reverse (take k str1)) (reverse (take i (done2 ++ rest2))).
Proof.
  revert done2 matrix.
  induction rest2 as [|c2 rest2 IH]; intros done2 matrix Hlen Hrows.
  - rewrite app_nil_r in *. done.
  - cbn [fillMatrix].
    match goal with
    | |- ∀ i k, _ → _ → nth k (nth i (fillMatrix _ _ (matrix ++ [?row]) _) []) _ = _ =>
        set (new := row)
    end.
    assert (take (length done2) (done2 ++ c2 :: rest2) = done2) as Hd
      by apply take_app_length.
    assert (take (S (length done2)) (done2 ++ c2 :: rest2) = done2 ++ [c2]) as Hu.
    { replace (done2 ++ c2 :: rest2) with ((done2 ++ [c2]) ++ rest2)
        by (by rewrite <-app_assoc).
      replace (S (length done2)) with (length (done2 ++ [c2]))
        by (rewrite length_app; cbn; lia).
      apply take_app_length. }
    assert (∀ k, (k ≤ length str1)%nat →
              nth k new 0%nat
              = editDistance (reverse (take k str1))
                  (reverse (take (S (length done2)) (done2 ++ c2 :: rest2)))) as Hnew.
    { rewrite Hu, reverse_snoc. subst new.
      replace (S (length done2) - 1)%nat with (length done2) by lia.
      apply (fillRow_editDistance str1 c2 _ (reverse done2) [] [S (length done2)]).
      - done.
      - intros k Hk. cbn [app] in *. rewrite (Hrows (length done2) k) by (done || lia).
        by rewrite Hd.
      - intros k Hk. cbn [length] in Hk. replace k with 0%nat by lia.
        cbn [nth take reverse]. rewrite editDistance_nil_l. cbn [length].
        by rewrite length_reverse. }
    clearbody new.
    specialize (IH (done2 ++ [c2]) (matrix ++ [new])).
    replace ((done2 ++ [c2]) ++ rest2) with (done2 ++ c2 :: rest2) in IH
      by (by rewrite <-app_assoc).
    replace (length (done2 ++ [c2])) with (S (length done2)) in IH
      by (rewrite length_app; cbn; lia).
    replace (length (matrix ++ [new])) with (S (length matrix)) in IH
      by (rewrite length_app; cbn; lia).
    apply IH; [lia|].
    intros i k Hi Hk. destruct (decide (i = S (length done2))) as [->|Hne].
    + rewrite <-Hlen, nth_middle, Hlen. by apply Hnew.
    + rewrite app_nth1 by lia. apply Hrows; [lia|done].
Qed.

(** [levenshteinDistance] computes the edit distance. *)
Lemma levenshteinDistance_editDistance str1 str2 :
  levenshteinDistance str1 str2 = editDistance (reverse str1) (reverse str2).
Proof.
  unfold levenshteinDistance.
  pose proof (fillMatrix_editDistance str1 str2 [] [seq 0 (S (length str1))]) as Hspec.
  cbn [app length] in Hspec.
  rewrite Hspec; [by rewrite !firstn_all|done| |done|done].
  intros i k Hi Hk. replace i with 0%nat by lia. cbn [nth take reverse].
  rewrite seq_nth by lia. rewrite editDistance_nil_r, length_reverse, length_take.
  lia.
Qed.

Lemma editDistance_refl ra : editDistance ra ra = 0%nat.
Proof.
  induction ra as [|x ra IH]; [done|].
  by rewrite editDistance_cons, decide_True.
Qed.

Lemma editDistance_zero ra rb : editDistance ra rb = 0%nat → ra = rb.
Proof.
  revert rb. induction ra as [|x ra IH]; intros [|y rb]; try done.
  rewrite editDistance_cons. case_decide as Hxy; [|done].
  intros Hzero. subst. f_equal. by apply IH.
Qed.

Lemma editDistance_sym ra rb : editDistance ra rb = editDistance rb ra.
Proof.
  revert rb. induction ra as [|x ra IHa]; intros rb.
  - by rewrite editDistance_nil_l, editDistance_nil_r.
  - induction rb as [|y rb IHb]; [done|].
    rewrite !editDistance_cons.
    destruct (decide (x = y)) as [->|Hne].
    + rewrite decide_True by done. apply IHa.
    + rewrite decide_False by congruence.
      rewrite (IHa rb), (IHa (y :: rb)), IHb. unfold min3. lia.
Qed.

Lemma editDistance_length_gap ra rb :
  (length ra ≤ editDistance ra rb + length rb)%nat.
Proof.
  revert rb. induction ra as [|x ra IHa]; intros rb; [cbn; lia|].
  induction rb as [|y rb IHb]; [cbn; lia|].
  rewrite editDistance_cons. pose proof (IHa rb). pose proof (IHa (y :: rb)).
  cbn [length] in *. case_decide; unfold min3; lia.
Qed.


Lemma levenshteinDistance_editDistance_zero str1 str2 :
  levenshteinDistance str1 str2 = 0%nat → str1 = str2.
Proof.
  rewrite levenshteinDistance_editDistance. intros Hzero%editDistance_zero.
  by apply (inj reverse).
Qed.

Lemma levenshteinDistance_swap str1 str2 :
  levenshteinDistance str1 str2 = levenshteinDistance str2 str1.
Proof. rewrite !levenshteinDistance_editDistance. apply editDistance_sym. Qed.

(** X1: the matrix computation of [levenshteinDistance] yields the edit
    distance of the two strings as the usual recursion defines it. *)
Theorem levenshteinDistance_is_editDistance (str1 str2 : jsstring) :
  levenshteinDistance str1 str2 = editDistance (reverse str1) (reverse str2).
Proof. apply levenshteinDistance_editDistance. Qed.

(** X2: the distance of two strings is zero exactly when they are equal. *)
Theorem levenshteinDistance_zero_iff (str1 str2 : jsstring) :
  levenshteinDistance str1 str2 = 0%nat ↔ str1 = str2.
Proof.
  rewrite levenshteinDistance_editDistance. split.
  - intros Hzero%editDistance_zero. by apply (inj reverse).
  - intros ->. apply editDistance_refl.
Qed.

(** X3: the distance does not depend on the order of the two strings. *)
Theorem levenshteinDistance_symmetric (str1 str2 : jsstring) :
  levenshteinDistance str1 str2 = levenshteinDistance str2 str1.
Proof. apply levenshteinDistance_swap. Qed.

(** X4: the distance is at least the difference of the two lengths and at
    most the larger length; against the empty string it is the length. *)
Theorem levenshteinDistance_between (str1 str2 : jsstring) :
  (length str1 - length str2 ≤ levenshteinDistance str1 str2)%nat
  ∧ (length str2 - length str1 ≤ levenshteinDistance str1 str2)%nat
  ∧ (levenshteinDistance str1 str2 ≤ Nat.max (length str1) (length str2))%nat
  ∧ levenshteinDistance str1 [] = length str1
  ∧ levenshteinDistance [] str2 = length str2.
Proof.
  pose proof (editDistance_length_gap (reverse str1) (reverse str2)) as Hgap1.
  pose proof (editDistance_length_gap (reverse str2) (reverse str1)) as Hgap2.
  rewrite (editDistance_sym (reverse str2)) in Hgap2.
  rewrite !length_reverse in Hgap1, Hgap2.
  pose proof (levenshteinDistance_bounded str1 str2).
  rewrite !levenshteinDistance_editDistance.
  rewrite levenshteinDistance_editDistance in *.
  rewrite editDistance_nil_r, editDistance_nil_l, !length_reverse. lia.
Qed.

Lemma jsDiv_ofZ_one_iff (a b : Z) :
  0 < b → jsDiv (ofZ a) (ofZ b) = Fin 1 ↔ a = b.
Proof.
  intros Hb. unfold jsDiv, ofZ. rewrite jsDivQ_pos by done. split.
  - intros [= Hq].
    assert (inject_Z a / inject_Z b == 1)%Q as Hone
      by (by rewrite <-(Qred_correct (_ / _)), Hq).
    assert (¬ (inject_Z b == 0)%Q) as Hnz by (unfold Qeq; cbn; lia).
    apply (Qmult_inj_r _ _ (inject_Z b) Hnz) in Hone.
    rewrite Qmult_1_l, Qmult_comm, Qmult_div_r in Hone by done.
    revert Hone. unfold Qeq. cbn. lia.
  - intros ->. f_equal. change 1%Q with (Qred 1).
    apply Qred_complete, Qmult_inv_r. unfold Qeq. cbn. lia.
Qed.

(** X5: the word similarity of two paragraphs is 1 exactly when they are
    equal, and it is the same in both directions. *)
Theorem calculateWordSimilarity_one_iff (left right : jsstring) :
  (calculateWordSimilarity left right = Fin 1 ↔ left = right)
  ∧ calculateWordSimilarity left right = calculateWordSimilarity right left.
Proof.
  split.
  - unfold calculateWordSimilarity. destruct (decide (length right < length left)%nat).
    + case_decide as Hlen; [lia|]. unfold ofNat.
      rewrite jsDiv_ofZ_one_iff by lia. split.
      * intros Hd. assert (levenshteinDistance left right = 0%nat) as Hz by lia.
        by apply levenshteinDistance_editDistance_zero in Hz.
      * intros ->. lia.
    + case_decide as Hlen.
      * split; [|done]. intros _.
        destruct right; [|done]. destruct left; [done|cbn in *; lia].
      * unfold ofNat. rewrite jsDiv_ofZ_one_iff by lia. split.
        -- intros Hd. assert (levenshteinDistance right left = 0%nat) as Hz by lia.
           by apply levenshteinDistance_editDistance_zero in Hz.
        -- intros ->. rewrite levenshteinDistance_editDistance, editDistance_refl. lia.
  - unfold calculateWordSimilarity.
    destruct (decide (length right < length left)%nat),
             (decide (length left < length right)%nat); try lia; try done.
    assert (length left = length right) as Heq by lia.
    rewrite Heq. case_decide; [done|].
    by rewrite (levenshteinDistance_swap right left).
Qed.


(** ** Statistics and summary *)

Lemma countWhere_cons p d ds :
  countWhere p (d :: ds) = ((if p d then 1 else 0) + countWhere p ds)%nat.
Proof.
  unfold countWhere. rewrite filter_cons. destruct (p d); by case_decide.
Qed.

Lemma countWhere_zero p ds :
  Forall (λ d, p d = false) ds → countWhere p ds = 0%nat.
Proof.
  induction 1 as [|d ds Hd _ IH]; [done|]. by rewrite countWhere_cons, Hd, IH.
Qed.

Ltac simpl_flags :=
  repeat match goal with
         | |- context [@bool_decide ?P ?D] =>
             let v := eval vm_compute in (@bool_decide P D) in
             match v with
             | true => change (@bool_decide P D) with true
             | false => change (@bool_decide P D) with false
             end
         end;
  cbn -[countWhere].

(** X6: the statistics count every difference once by severity, and at most
    once by type: the four severity counts add up to the total, and the
    three type counts add up to the total less the differences of type
    format or structure. *)
Theorem calculateStatistics_counts
    (ds : list PreciseDifference) (leftDoc rightDoc : DocumentStructure) :
  let stats := calculateStatistics ds leftDoc rightDoc in
  totalDifferences stats = length ds
  ∧ (criticalCount stats + highCount stats + mediumCount stats + lowCount stats
     = totalDifferences stats)%nat
  ∧ (additions stats + deletions stats + modifications stats
     + length (filter (λ d, diffType d = format ∨ diffType d = structure) ds)
     = totalDifferences stats)%nat
  ∧ (formatChanges stats + structureChanges stats ≤ totalDifferences stats)%nat.
Proof.
  cbn [calculateStatistics totalDifferences criticalCount highCount mediumCount
       lowCount additions deletions modifications formatChanges structureChanges].
  split; [done|]. split; [|split].
  - induction ds as [|d ds IH]; [done|].
    rewrite !countWhere_cons. cbn [length].
    destruct (severity d); simpl_flags; lia.
  - induction ds as [|d ds IH]; [done|].
    rewrite !countWhere_cons, filter_cons. cbn [length].
    destruct (diffType d) eqn:Htype; simpl_flags.
    1-3: rewrite decide_False by (intros [?|?]; discriminate); lia.
    all: rewrite decide_True by auto; cbn [length]; lia.
  - induction ds as [|d ds IH]; [done|].
    rewrite !countWhere_cons. cbn [length].
    destruct (category d); simpl_flags; lia.
Qed.

Lemma countPage_lookup m d p :
  countPage m d !! p
  = if decide (page (leftPosition d) = p)
    then Some (default 0 (m !! p) + 1)%nat else m !! p.
Proof.
  unfold countPage. case_decide as Hp.
  - subst. by rewrite lookup_insert_eq.
  - by rewrite lookup_insert_ne.
Qed.

Lemma pageDistribution_lookup ds p :
  foldl countPage ∅ ds !! p
  = if decide (differencesOnPage p ds = 0%nat) then None
    else Some (differencesOnPage p ds).
Proof.
  unfold differencesOnPage.
  induction ds as [|d ds IH] using rev_ind; [done|].
  rewrite foldl_snoc, countPage_lookup, filter_app, length_app, IH.
  rewrite filter_cons, filter_nil.
  destruct (decide (page (leftPosition d) = p)) as [Hp|Hp]; cbn [length].
  - destruct (length (filter _ ds)) as [|n]; repeat case_decide; try lia; try done.
  - rewrite Nat.add_0_r. done.
Qed.

(** X7: the page distribution has an entry exactly for the pages on which a
    difference is reported, and the entry is the number of differences whose
    left position is on that page. *)
Theorem pageDistribution_counts
    (ds : list PreciseDifference) (leftDoc rightDoc : DocumentStructure) (p : Z) :
  pageDistribution (calculateStatistics ds leftDoc rightDoc) !! p
  = if decide (differencesOnPage p ds = 0%nat) then None
    else Some (differencesOnPage p ds).
Proof. apply pageDistribution_lookup. Qed.


Lemma compareDocuments_Ok_summary diffLines diffWords leftDoc rightDoc res :
  compareDocuments diffLines diffWords leftDoc rightDoc = Ok res →
  summary res = generateSummary (differences res) (statistics res).
Proof.
  unfold compareDocuments.
  destruct (detectLineDifferences diffLines leftDoc rightDoc) as [ds|e]; cbn;
    [|discriminate].
  by intros [= <-].
Qed.

Lemma emittedKind_differences diffLines diffWords leftDoc rightDoc res :
  compareDocuments diffLines diffWords leftDoc rightDoc = Ok res →
  Forall emittedKind (differences res).
Proof.
  intros Hres.
  destruct (compareDocuments_Ok _ _ _ _ _ Hres) as (lineDs & Hline & -> & _).
  apply optimizeDifferences_Forall. rewrite !Forall_app. split; [|split].
  - eapply detectLineDifferences_Forall; [| |exact Hline];
      intros; split; cbn; auto.
  - apply detectWordDifferences_Forall. intros. split; cbn; [|auto].
    destruct (added part); auto.
  - apply detectStructuralDifferences_Forall; intros; split; cbn; auto.
    destruct (added part); auto.
Qed.

(** X8: no difference of a comparison result has type modification or
    format, or category format or metadata; so the counts of modifications
    and of format changes are always zero and the summary lists no format
    change. *)
Theorem compareDocuments_never_modification
    (diffLines diffWords : jsstring → jsstring → list Change)
    (leftDoc rightDoc : DocumentStructure) (res : ComparisonResult) :
  compareDocuments diffLines diffWords leftDoc rightDoc = Ok res →
  Forall emittedKind (differences res)
  ∧ modifications (statistics res) = 0%nat
  ∧ formatChanges (statistics res) = 0%nat
  ∧ summaryFormatChanges (summary res) = [].
Proof.
  intros Hres. pose proof (emittedKind_differences _ _ _ _ _ Hres) as Hkind.
  rewrite (compareDocuments_Ok_summary _ _ _ _ _ Hres).
  destruct (compareDocuments_Ok _ _ _ _ _ Hres) as (_ & _ & _ & ->).
  split; [done|].
  cbn [calculateStatistics generateSummary modifications formatChanges
       summaryFormatChanges].
  split; [|split].
  - apply countWhere_zero. eapply Forall_impl; [exact Hkind|].
    intros d [[Ht|[Ht|Ht]] _]; by rewrite Ht.
  - apply countWhere_zero. eapply Forall_impl; [exact Hkind|].
    intros d [_ [Hc|Hc]]; by rewrite Hc.
  - induction Hkind as [|d ds [_ Hcat] _ IH]; [done|].
    rewrite filter_cons_False; [done|]. intros Hf. destruct Hcat; congruence.
Qed.

Lemma compareDocuments_never_modification_witness :
  ∃ res,
    compareDocuments ReferenceDiff.diffLines ReferenceDiff.diffWords
      (textDocument (js "a b")) (textDocument (js "c b")) = Ok res
    ∧ additions (statistics res) = 2%nat
    ∧ deletions (statistics res) = 2%nat
    ∧ modifications (statistics res) = 0%nat.
Proof.
  destruct (compareDocuments ReferenceDiff.diffLines ReferenceDiff.diffWords
              (textDocument (js "a b")) (textDocument (js "c b"))) as [res|e] eqn:Hres.
  - exists res. split; [done|].
    split; [revert Hres; vm_compute; by intros [= <-]|].
    split; [revert Hres; vm_compute; by intros [= <-]|].
    exact (proj1 (proj2 (compareDocuments_never_modification _ _ _ _ _ Hres))).
  - exfalso. revert Hres. vm_compute. discriminate.
Defined.

Lemma severe_count ds :
  length (filter (λ d, severity d = high ∨ severity d = critical) ds)
  = (countWhere (λ d, bool_decide (severity d = high)) ds
     + countWhere (λ d, bool_decide (severity d = critical)) ds)%nat.
Proof.
  induction ds as [|d ds IH]; [done|].
  rewrite !countWhere_cons, filter_cons.
  destruct (severity d); simpl_flags.
  1-2: rewrite decide_False by (intros [?|?]; discriminate); lia.
  all: rewrite decide_True by auto; cbn [length]; lia.
Qed.

Lemma countWhere_filter {P : PreciseDifference → Prop} `{∀ d, Decision (P d)} ds :
  length (filter P ds) = countWhere (λ d, bool_decide (P d)) ds.
Proof.
  induction ds as [|d ds IH]; [done|].
  rewrite countWhere_cons, filter_cons.
  destruct (decide (P d)).
  - rewrite bool_decide_eq_true_2 by done. cbn. lia.
  - rewrite bool_decide_eq_false_2 by done. done.
Qed.

(** X9: the summary agrees with the statistics it is built from: it lists
    the first five differences of severity high or critical, one entry for
    each structure change and one for each format change; it recommends a
    check of the structure exactly when there is a structure change and
    attention exactly when there is a critical difference. *)
Theorem generateSummary_agrees
    (ds : list PreciseDifference) (leftDoc rightDoc : DocumentStructure) :
  let stats := calculateStatistics ds leftDoc rightDoc in
  let sm := generateSummary ds stats in
  length (majorChanges sm) = Nat.min 5 (highCount stats + criticalCount stats)
  ∧ length (structuralChanges sm) = structureChanges stats
  ∧ length (summaryFormatChanges sm) = formatChanges stats
  ∧ (txtStructural ∈ recommendations sm ↔ (0 < structureChanges stats)%nat)
  ∧ (txtCritical ∈ recommendations sm ↔ (0 < criticalCount stats)%nat)
  ∧ (length (recommendations sm) ≤ 3)%nat.
Proof.
  cbn zeta.
  cbn [generateSummary calculateStatistics majorChanges structuralChanges
       summaryFormatChanges recommendations highCount criticalCount
       structureChanges formatChanges overallSimilarity].
  rewrite !length_fmap, length_take, severe_count, !countWhere_filter.
  split; [done|]. split; [done|]. split; [done|].
  set (review := if belowHalf _ then _ else _).
  assert ((txtStructural ∉ review) ∧ (txtCritical ∉ review)
          ∧ (length review ≤ 1)%nat) as (Hrs & Hrc & Hrl).
  { subst review. destruct (belowHalf _).
    - split; [|split; [|done]]; intros Hin%list_elem_of_singleton; revert Hin;
        by vm_compute.
    - split; [|split; [|cbn; lia]]; apply not_elem_of_nil. }
  clearbody review.
  assert (txtStructural ≠ txtCritical) as Hne by (by vm_compute).
  rewrite !elem_of_app, !length_app.
  repeat case_decide; rewrite ?list_elem_of_singleton, ?elem_of_nil; cbn [length];
    (split; [|split]); try lia; intuition (congruence || lia).
Qed.


(** ** The optimizer, once more *)

Lemma keepFirstByContent_fixed seen l :
  NoDup (contentKey <$> l) →
  Forall (λ d, contentKey d ∉ seen) l →
  keepFirstByContent seen l = l.
Proof.
  revert seen. induction l as [|d l IH]; intros seen Hnodup Hfresh; [done|].
  cbn in Hnodup. apply NoDup_cons in Hnodup as [Hd Hnodup].
  apply Forall_cons in Hfresh as [Hdfresh Hfresh].
  cbn [keepFirstByContent]. rewrite decide_False by done. f_equal.
  apply IH; [done|]. rewrite Forall_forall in Hfresh |- *.
  intros y Hy [Heq|Hin]%elem_of_cons; [|by apply (Hfresh y)].
  apply Hd, list_elem_of_fmap. eauto.
Qed.

Lemma jsSort_sorted_fixed {A} (compare : A → A → Z) (R : relation A) l :
  (∀ a b, compare a b ≤ 0 ↔ R a b) →
  StronglySorted R l → jsSort compare l = l.
Proof.
  intros Hcompare. induction 1 as [|x l Hl IH Hx]; [done|].
  cbn [jsSort]. rewrite IH. destruct l as [|y l]; [done|].
  cbn [sortInsert]. rewrite decide_True; [done|].
  apply Hcompare. by apply Forall_cons in Hx as [? _].
Qed.

Lemma optimizeDifferences_fixed l :
  NoDup (contentKey <$> l) → StronglySorted positionOrder l →
  optimizeDifferences l = l.
Proof.
  intros Hnodup Hsorted. unfold optimizeDifferences.
  rewrite uniqueDifferences_keepFirst, keepFirstByContent_fixed; [|done|].
  - by apply (jsSort_sorted_fixed _ positionOrder), Hsorted; apply comparePositions_le.
  - apply Forall_forall. intros d _. apply not_elem_of_nil.
Qed.

(** X10: optimizing is idempotent and never adds a difference; a list that
    is already free of duplicate contents and sorted by position is left
    as it is. *)
Theorem optimizeDifferences_idempotent (l : list PreciseDifference) :
  optimizeDifferences (optimizeDifferences l) = optimizeDifferences l
  ∧ (length (optimizeDifferences l) ≤ length l)%nat
  ∧ (NoDup (contentKey <$> l) → StronglySorted positionOrder l →
     optimizeDifferences l = l).
Proof.
  split; [|split; [|apply optimizeDifferences_fixed]].
  - apply optimizeDifferences_fixed.
    + unfold optimizeDifferences.
      rewrite jsSort_Permutation, uniqueDifferences_keepFirst.
      apply keepFirstByContent_keys.
    + apply jsSort_StronglySorted.
      * apply comparePositions_le.
      * apply positionOrder_trans.
      * apply positionOrder_total.
  - unfold optimizeDifferences.
    rewrite jsSort_Permutation, uniqueDifferences_keepFirst.
    apply sublist_length, keepFirstByContent_sublist.
Qed.

(** ** When the comparison returns, once more *)

(** X11: the comparison raises the TypeError of the missing method exactly
    when the line script has a part that is neither added nor removed, and
    returns a result exactly when every part is added or removed; it never
    fails in another way. *)
Theorem compareDocuments_outcome
    (diffLines diffWords : jsstring → jsstring → list Change)
    (leftDoc rightDoc : DocumentStructure) :
  let script := diffLines (extractFullContent leftDoc) (extractFullContent rightDoc) in
  (compareDocuments diffLines diffWords leftDoc rightDoc = Throw undefinedMethod
   ↔ Exists isUnchanged script)
  ∧ ((∃ res, compareDocuments diffLines diffWords leftDoc rightDoc = Ok res)
     ↔ Forall (λ part, added part = true ∨ removed part = true) script).
Proof.
  cbn zeta. split; [apply compareDocuments_throws_iff|].
  pose proof (compareDocuments_throws_iff diffLines diffWords leftDoc rightDoc)
    as Hthrow.
  assert (∀ part, ¬ isUnchanged part ↔ added part = true ∨ removed part = true)
    as Hflags.
  { intros part. unfold isUnchanged. destruct (added part), (removed part);
      intuition congruence. }
  split.
  - intros [res Hres]. apply Forall_forall. intros part Hpart. apply Hflags.
    intros Hun. rewrite Hres in Hthrow.
    assert (Ok res = Throw undefinedMethod) as Habs; [|discriminate].
    apply Hthrow, Exists_exists. eauto.
  - intros Hall. unfold compareDocuments, detectLineDifferences.
    destruct (lineStep_returns leftDoc rightDoc
                (diffLines (extractFullContent leftDoc) (extractFullContent rightDoc))
                {| lineDiffs := []; leftLineIndex := 0; rightLineIndex := 0;
                   diffIndex := 0 |} ltac:(done) ltac:(done)) as [st' Hrun].
    { eapply Forall_impl; [exact Hall|]. intros part. apply Hflags. }
    rewrite Hrun. cbn. by eexists.
Qed.

(** X12: between a document and itself the word-level differ finds nothing,
    whatever the word script is, and the structural differ finds nothing
    when the script of the section titles has no added or removed part. *)
Theorem differs_find_nothing_in_identical
    (diffLines diffWords : jsstring → jsstring → list Change)
    (doc : DocumentStructure) :
  Forall isUnchanged (diffLines (joinLines (title <$> sections doc))
                                (joinLines (title <$> sections doc))) →
  detectWordDifferences diffWords doc doc = []
  ∧ detectStructuralDifferences diffLines doc doc = [].
Proof.
  intros Hscript. split.
  - apply detectWordDifferences_identical.
  - by apply detectStructuralDifferences_identical.
Qed.

Lemma differs_find_nothing_in_identical_witness :
  let doc := textDocument (js "INTRO" ++ [LF] ++ js "some text") in
  Forall isUnchanged
    (ReferenceDiff.diffLines (joinLines (title <$> sections doc))
                             (joinLines (title <$> sections doc)))
  ∧ detectWordDifferences ReferenceDiff.diffWords doc doc = []
  ∧ detectStructuralDifferences ReferenceDiff.diffLines doc doc = [].
Proof.
  cbn zeta.
  assert (Forall isUnchanged
            (ReferenceDiff.diffLines
               (joinLines (title <$> sections
                             (textDocument (js "INTRO" ++ [LF] ++ js "some text"))))
               (joinLines (title <$> sections
                             (textDocument (js "INTRO" ++ [LF] ++ js "some text"))))))
    as Hscript by (vm_compute; repeat constructor).
  split; [exact Hscript|].
  exact (differs_find_nothing_in_identical _ ReferenceDiff.diffWords _ Hscript).
Defined.

(** X13: a negative line index is answered with a TypeError as soon as the
    document has a page: the first page is selected and its line array is
    read at a negative index. *)
Theorem findPositionByLineIndex_negative_throws
    (doc : DocumentStructure) (lineIndex : Z) :
  pages doc ≠ [] → lineIndex < 0 →
  findPositionByLineIndex doc lineIndex
  = Throw (TypeError "Cannot read properties of undefined (reading 'lineNumber')").
Proof.
  intros Hpages Hneg. destruct (pages doc) as [|page rest] eqn:Heq; [done|].
  by eapply findPositionByLineIndex_negative.
Qed.

Lemma findPositionByLineIndex_negative_throws_witness :
  pages (textDocument (js "A")) ≠ [] ∧ -1 < 0
  ∧ findPositionByLineIndex (textDocument (js "A")) (-1)
    = Throw (TypeError "Cannot read properties of undefined (reading 'lineNumber')").
Proof.
  assert (pages (textDocument (js "A")) ≠ []) as Hpages by (by vm_compute).
  split; [exact Hpages|]. split; [lia|].
  exact (findPositionByLineIndex_negative_throws _ (-1) Hpages ltac:(lia)).
Defined.

(** X14: in every comparison result the similarity and the confidence of
    each difference and the average confidence are numbers between 0 and 1;
    so is the overall similarity when one of the documents has characters. *)
Theorem scores_bounded_with_characters
    (diffLines diffWords : jsstring → jsstring → list Change)
    (leftDoc rightDoc : DocumentStructure) (res : ComparisonResult) :
  compareDocuments diffLines diffWords leftDoc rightDoc = Ok res →
  Forall scoresBounded (differences res)
  ∧ inUnitInterval (averageConfidence (statistics res))
  ∧ (0 < Z.max (characterCount leftDoc) (characterCount rightDoc) →
     inUnitInterval (overallSimilarity (statistics res))).
Proof.
  intros Hres.
  destruct (difference_scores_bounded _ _ _ _ _ Hres) as [Hds Havg].
  split; [done|]. split; [done|].
  by apply (statistics_scores_bounded _ _ _ _ _ Hres).
Qed.

Lemma scores_bounded_with_characters_witness :
  ∃ res,
    compareDocuments ReferenceDiff.diffLines ReferenceDiff.diffWords
      (textDocument (js "a b")) (textDocument (js "c b")) = Ok res
    ∧ Forall scoresBounded (differences res)
    ∧ inUnitInterval (averageConfidence (statistics res))
    ∧ inUnitInterval (overallSimilarity (statistics res)).
Proof.
  destruct (compareDocuments ReferenceDiff.diffLines ReferenceDiff.diffWords
              (textDocument (js "a b")) (textDocument (js "c b"))) as [res|e] eqn:Hres.
  - exists res. split; [done|].
    destruct (scores_bounded_with_characters _ _ _ _ _ Hres) as (Hds & Havg & Hsim).
    split; [done|]. split; [done|]. apply Hsim. by vm_compute.
  - exfalso. revert Hres. vm_compute. discriminate.
Defined.


(** ** Context windows *)

Lemma substring_lookup (s : jsstring) (from to : Z) (i : nat) :
  substring s from to !! i
  = if decide (i < Nat.max (clampIndex s from) (clampIndex s to)
                   - Nat.min (clampIndex s from) (clampIndex s to))%nat
    then s !! (Nat.min (clampIndex s from) (clampIndex s to) + i)%nat
    else None.
Proof.
  unfold substring, jsstring in *. cbn zeta. by rewrite lookup_take, lookup_drop.
Qed.

Lemma substring_length (s : jsstring) (from to : Z) :
  length (substring s from to)
  = (Nat.max (clampIndex s from) (clampIndex s to)
     - Nat.min (clampIndex s from) (clampIndex s to))%nat.
Proof.
  unfold substring, jsstring in *. cbn zeta. rewrite length_take, length_drop.
  unfold clampIndex. lia.
Qed.

Ltac solve_window :=
  repeat case_decide; try done;
  first [ f_equal; lia
        | apply lookup_ge_None_2; lia
        | symmetry; apply lookup_ge_None_2; lia
        | lia ].

Lemma getWordContext_bound (text : jsstring) (position length : Z) :
  (List.length (getWordContext text position length) ≤ Z.abs_nat length)%nat.
Proof.
  unfold getWordContext. rewrite substring_length. unfold clampIndex.
  repeat case_decide; lia.
Qed.

(** X15: the context after a position is the (at most) [n] characters that
    follow it and the context before a position is the (at most) [n]
    characters that precede it; a context is never longer than the window
    asked for. *)
Theorem getWordContext_window (text : jsstring) (p n : nat) (position length : Z) :
  getWordContext text (Z.of_nat p) (Z.of_nat n) = take n (drop p text)
  ∧ getWordContext text (Z.of_nat p) (- Z.of_nat n) = drop (p - n) (take p text)
  ∧ (List.length (getWordContext text position length) ≤ Z.abs_nat length)%nat.
Proof.
  split; [|split].
  - apply list_eq. intros i. unfold getWordContext.
    rewrite substring_lookup. unfold jsstring in *.
    rewrite lookup_take, lookup_drop. unfold clampIndex.
    solve_window.
  - apply list_eq. intros i. unfold getWordContext.
    rewrite substring_lookup. unfold jsstring in *.
    rewrite lookup_drop, lookup_take. unfold clampIndex.
    solve_window.
  - apply getWordContext_bound.
Qed.

(** X16: the contexts of a word-level difference are windows of at most ten
    characters; its confidence is 0.8, its category is text, and it is
    reported on page 1, column 1. *)
Theorem detectWordDifferences_contexts
    (diffWords : jsstring → jsstring → list Change)
    (leftDoc rightDoc : DocumentStructure) :
  Forall (λ d, (length (contextBefore d) ≤ 10)%nat
               ∧ (length (contextAfter d) ≤ 10)%nat
               ∧ confidence d = Fin (8 # 10)
               ∧ category d = textCategory
               ∧ page (leftPosition d) = 1 ∧ column (leftPosition d) = 1)
         (detectWordDifferences diffWords leftDoc rightDoc).
Proof.
  apply detectWordDifferences_Forall.
  intros leftPara rightPara i index wordIndex part _. cbn.
  pose proof (getWordContext_bound leftPara wordIndex (-10)).
  pose proof (getWordContext_bound leftPara
                (wordIndex + Z.of_nat (length (value part))) 10).
  repeat split; lia.
Qed.


(** ** Identifiers of the differences *)

Lemma encodeId_inj t1 t2 : encodeId t1 = encodeId t2 → t1 = t2.
Proof.
  destruct t1 as [b1 k1|b1 i1 x1| |k1], t2 as [b2 k2|b2 i2 x2| |k2];
    try destruct b1; try destruct b2; cbn -[numToString];
    intros Heq; try discriminate; simplify_eq.
  all: try (match goal with
            | H : numToString _ = numToString _ |- _ =>
                apply numToString_inj in H; by subst
            end).
  all: try (match goal with
            | H : numToString _ ++ _ :: numToString _ = _ |- _ =>
                apply numToString_dash_split in H as [Hi Hx];
                apply numToString_inj in Hx;
                apply Nat2Z.inj in Hi; apply Nat2Z.inj in Hx; by subst
            end).
  done.
Qed.


Lemma lineStep_tags leftDoc rightDoc parts st st' :
  forEachM (lineStep leftDoc rightDoc) st parts = Ok st' →
  ∃ tags, diffId <$> lineDiffs st' = (diffId <$> lineDiffs st) ++ (encodeId <$> tags)
          ∧ Forall (λ t, tagClass t = 0%nat) tags
          ∧ tagNumber <$> tags = seqZ (diffIndex st) (Z.of_nat (length tags)).
Proof.
  revert st. induction parts as [|part parts IH]; intros st Hrun; cbn in Hrun.
  - injection Hrun as <-. exists []. by rewrite app_nil_r.
  - destruct (lineStep leftDoc rightDoc st part) as [st1|e] eqn:Hstep;
      cbn in Hrun; [|discriminate].
    destruct (IH st1 Hrun) as (tags & -> & Hclass & Hnumbers). clear IH Hrun.
    assert (∃ b, diffId <$> lineDiffs st1
                 = (diffId <$> lineDiffs st) ++ [encodeId (LineTag b (diffIndex st))]
                 ∧ diffIndex st1 = diffIndex st + 1) as (b & Hids & Hindex).
    { unfold lineStep in Hstep. destruct (added part).
      - destruct (findPositionByLineIndex rightDoc _); cbn in Hstep; [|discriminate].
        injection Hstep as <-. exists true. cbn. by rewrite fmap_app.
      - destruct (removed part); [|cbn in Hstep; discriminate].
        destruct (findPositionByLineIndex leftDoc _); cbn in Hstep; [|discriminate].
        injection Hstep as <-. exists false. cbn. by rewrite fmap_app. }
    exists (LineTag b (diffIndex st) :: tags).
    rewrite Hids, <-app_assoc. split; [done|]. split; [by constructor|].
    cbn [fmap list_fmap tagNumber length]. rewrite Hnumbers, Hindex.
    rewrite Nat2Z.inj_succ, (seqZ_cons (diffIndex st)) by lia.
    by rewrite Z.pred_succ.
Qed.

Lemma wordStep_tags leftDoc rightDoc leftPara rightPara i parts st :
  ∃ tags,
    diffId <$> (foldl (wordStep leftDoc rightDoc leftPara rightPara i) st parts).1.1
    = (diffId <$> st.1.1) ++ (encodeId <$> tags)
    ∧ Forall (λ t, tagClass t = 1%nat ∧ (tagPair t).1 = i
                   ∧ (st.1.2 ≤ (tagPair t).2)%nat) tags
    ∧ NoDup (tagPair <$> tags).
Proof.
  revert st. induction parts as [|part parts IH]; intros st.
  - exists []. rewrite app_nil_r. split; [done|]. split; constructor.
  - cbn [foldl].
    destruct (IH (wordStep leftDoc rightDoc leftPara rightPara i st part))
      as (tags & -> & Hclass & Hnodup). clear IH.
    destruct st as [[ds index] wordIndex]. cbn [wordStep fst snd] in *.
    destruct (added part || removed part).
    + exists (WordTag (added part) i index :: tags).
      rewrite fmap_app, <-app_assoc. split; [done|]. split.
      * constructor; [done|]. eapply Forall_impl; [exact Hclass|].
        cbn. intros t (? & ? & ?). repeat split; [done..|lia].
      * cbn. constructor; [|done]. intros Hin.
        apply list_elem_of_fmap in Hin as (t & Ht & Htin).
        rewrite Forall_forall in Hclass. destruct (Hclass t Htin) as (_ & _ & Hle).
        rewrite <-Ht in Hle. cbn in Hle. lia.
    + exists tags. split; [done|]. split; [|done].
      eapply Forall_impl; [exact Hclass|].
      cbn. intros t (? & ? & ?). repeat split; [done..|lia].
Qed.

Lemma paragraphStep_tags diffWords leftDoc rightDoc leftParagraphs rightParagraphs
    (n a : nat) acc :
  ∃ tags,
    diffId <$> foldl (paragraphStep diffWords leftDoc rightDoc
                        leftParagraphs rightParagraphs) acc (seq a n)
    = (diffId <$> acc) ++ (encodeId <$> tags)
    ∧ Forall (λ t, tagClass t = 1%nat ∧ (a ≤ (tagPair t).1)%nat) tags
    ∧ NoDup (tagPair <$> tags).
Proof.
  revert a acc. induction n as [|n IH]; intros a acc.
  - exists []. rewrite app_nil_r. split; [done|]. split; constructor.
  - cbn [seq foldl].
    destruct (IH (S a) (paragraphStep diffWords leftDoc rightDoc
                          leftParagraphs rightParagraphs acc a))
      as (tags & -> & Hclass & Hnodup). clear IH.
    assert (∃ first,
              diffId <$> paragraphStep diffWords leftDoc rightDoc
                           leftParagraphs rightParagraphs acc a
              = (diffId <$> acc) ++ (encodeId <$> first)
              ∧ Forall (λ t, tagClass t = 1%nat ∧ (tagPair t).1 = a) first
              ∧ NoDup (tagPair <$> first)) as (first & -> & Hfirst & Hnodup1).
    { unfold paragraphStep. case_decide.
      - destruct (wordStep_tags leftDoc rightDoc
                    (default [] (leftParagraphs !! a))
                    (default [] (rightParagraphs !! a)) a
                    (diffWords (default [] (leftParagraphs !! a))
                               (default [] (rightParagraphs !! a)))
                    (acc, 0%nat, 0)) as (first & Hids & Hclass1 & Hnodup1).
        exists first. split; [done|]. split; [|done].
        eapply Forall_impl; [exact Hclass1|]. by intros t (? & ? & _).
      - exists []. rewrite app_nil_r. split; [done|]. split; constructor. }
    exists (first ++ tags). rewrite fmap_app, <-app_assoc. split; [done|]. split.
    + apply Forall_app. split.
      * eapply Forall_impl; [exact Hfirst|]. intros t [? ?]. split; [done|lia].
      * eapply Forall_impl; [exact Hclass|]. intros t [? ?]. split; [done|lia].
    + rewrite fmap_app. apply NoDup_app. split; [done|]. split; [|done].
      intros pair Hin1 Hin2.
      apply list_elem_of_fmap in Hin1 as (t1 & -> & Ht1).
      apply list_elem_of_fmap in Hin2 as (t2 & Heq & Ht2).
      rewrite Forall_forall in Hfirst, Hclass.
      destruct (Hfirst t1 Ht1) as [_ H1]. destruct (Hclass t2 Ht2) as [_ H2].
      rewrite Heq in H1. lia.
Qed.

Lemma sectionStep_tags parts st :
  ∃ tags, diffId <$> (foldl sectionStep st parts).1
          = (diffId <$> st.1) ++ (encodeId <$> tags)
          ∧ Forall (λ t, tagClass t = 3%nat) tags
          ∧ tagNumber <$> tags = seqZ st.2 (Z.of_nat (length tags)).
Proof.
  revert st. induction parts as [|part parts IH]; intros st.
  - exists []. by rewrite app_nil_r.
  - cbn [foldl]. destruct (IH (sectionStep st part)) as (tags & -> & Hclass & Hnumbers).
    clear IH. destruct st as [ds index]. unfold sectionStep in *.
    destruct (added part || removed part); [|by exists tags].
    cbn [fst snd] in *. exists (SectionTag index :: tags).
    rewrite fmap_app, <-app_assoc. split; [done|]. split; [by constructor|].
    cbn [fmap list_fmap tagNumber length]. rewrite Hnumbers.
    rewrite Nat2Z.inj_succ, (seqZ_cons index) by lia.
    by rewrite Z.pred_succ.
Qed.

Lemma NoDup_by_class (tags1 tags2 : list IdTag) (c1 c2 : nat) :
  c1 ≠ c2 →
  Forall (λ t, tagClass t = c1) tags1 → Forall (λ t, tagClass t = c2) tags2 →
  ∀ t, t ∈ tags1 → t ∉ tags2.
Proof.
  rewrite !Forall_forall. intros Hne H1 H2 t Ht1 Ht2.
  apply Hne. by rewrite <-(H1 t Ht1), <-(H2 t Ht2).
Qed.

(** The identifiers that the three differs assign are pairwise distinct. *)
Lemma differ_ids_NoDup diffLines diffWords leftDoc rightDoc lineDs :
  detectLineDifferences diffLines leftDoc rightDoc = Ok lineDs →
  NoDup (diffId <$> (lineDs ++ detectWordDifferences diffWords leftDoc rightDoc
                     ++ detectStructuralDifferences diffLines leftDoc rightDoc)).
Proof.
  unfold detectLineDifferences.
  destruct (forEachM _ _ _) as [st|e] eqn:Hrun; cbn; [|discriminate].
  intros [= <-].
  destruct (lineStep_tags _ _ _ _ _ Hrun) as (lineTags & Hline & Hlclass & Hlnum).
  cbn [lineDiffs fmap list_fmap app diffIndex] in Hline, Hlnum.
  destruct (paragraphStep_tags diffWords leftDoc rightDoc
              (extractParagraphs leftDoc) (extractParagraphs rightDoc)
              (Nat.max (length (extractParagraphs leftDoc))
                       (length (extractParagraphs rightDoc))) 0 [])
    as (wordTags & Hword & Hwclass & Hwnodup).
  cbn [fmap list_fmap app] in Hword.
  destruct (sectionStep_tags
              (diffLines (joinLines (title <$> sections leftDoc))
                         (joinLines (title <$> sections rightDoc)))
              (if decide (pageCount leftDoc ≠ pageCount rightDoc)
               then [pageCountDifference leftDoc rightDoc] else [], 0))
    as (sectionTags & Hsection & Hsclass & Hsnum).
  cbn [fst snd] in Hsection, Hsnum.
  set (pageTags := if decide (pageCount leftDoc ≠ pageCount rightDoc)
                   then [PageCountTag] else []).
  assert (diffId <$> (if decide (pageCount leftDoc ≠ pageCount rightDoc)
                      then [pageCountDifference leftDoc rightDoc] else [])
          = encodeId <$> pageTags) as Hpage by (subst pageTags; by case_decide).
  assert (Forall (λ t, tagClass t = 2%nat) pageTags ∧ NoDup pageTags)
    as [Hpclass Hpnodup].
  { subst pageTags. case_decide; split; repeat constructor.
    apply not_elem_of_nil. }
  rewrite Hpage in Hsection. clearbody pageTags.
  rewrite !fmap_app. unfold detectWordDifferences, detectStructuralDifferences.
  rewrite Hline, Hword, Hsection, <-!fmap_app.
  apply NoDup_fmap_2_strong; [intros t1 t2 _ _; apply encodeId_inj|].
  assert (NoDup lineTags) as Hlnodup.
  { apply (NoDup_fmap_1 tagNumber). rewrite Hlnum. apply NoDup_seqZ. }
  assert (NoDup wordTags) as Hwnodup' by (by apply (NoDup_fmap_1 tagPair)).
  assert (NoDup sectionTags) as Hsnodup.
  { apply (NoDup_fmap_1 tagNumber). rewrite Hsnum. apply NoDup_seqZ. }
  assert (Forall (λ t, tagClass t = 1%nat) wordTags) as Hwclass'
    by (eapply Forall_impl; [exact Hwclass|]; by intros t [? _]).
  repeat (apply NoDup_app; split; [done|split]); try done.
  - intros t Ht [Hin|[Hin|Hin]%elem_of_app]%elem_of_app.
    + by eapply (NoDup_by_class lineTags wordTags 0 1).
    + by eapply (NoDup_by_class lineTags pageTags 0 2).
    + by eapply (NoDup_by_class lineTags sectionTags 0 3).
  - intros t Ht [Hin|Hin]%elem_of_app.
    + by eapply (NoDup_by_class wordTags pageTags 1 2).
    + by eapply (NoDup_by_class wordTags sectionTags 1 3).
  - by eapply (NoDup_by_class pageTags sectionTags 2 3).
Qed.

Lemma optimizeDifferences_NoDup_ids l :
  NoDup (diffId <$> l) → NoDup (diffId <$> optimizeDifferences l).
Proof.
  intros Hnodup. unfold optimizeDifferences.
  rewrite jsSort_Permutation, uniqueDifferences_keepFirst.
  eapply sublist_NoDup; [exact Hnodup|].
  apply fmap_sublist, keepFirstByContent_sublist.
Qed.

(** X17: the identifiers of the differences of a comparison result are
    pairwise distinct. *)
Theorem difference_ids_unique
    (diffLines diffWords : jsstring → jsstring → list Change)
    (leftDoc rightDoc : DocumentStructure) (res : ComparisonResult) :
  compareDocuments diffLines diffWords leftDoc rightDoc = Ok res →
  NoDup (diffId <$> differences res).
Proof.
  intros Hres.
  destruct (compareDocuments_Ok _ _ _ _ _ Hres) as (lineDs & Hline & -> & _).
  by eapply optimizeDifferences_NoDup_ids, differ_ids_NoDup.
Qed.

Lemma difference_ids_unique_witness :
  ∃ res,
    compareDocuments ReferenceDiff.diffLines ReferenceDiff.diffWords
      (textDocument (js "a b")) (textDocument (js "c b")) = Ok res
    ∧ length (differences res) = 4%nat
    ∧ NoDup (diffId <$> differences res).
Proof.
  destruct (compareDocuments ReferenceDiff.diffLines ReferenceDiff.diffWords
              (textDocument (js "a b")) (textDocument (js "c b"))) as [res|e] eqn:Hres.
  - exists res. split; [done|]. split.
    + revert Hres. vm_compute. by intros [= <-].
    + exact (difference_ids_unique _ _ _ _ _ Hres).
  - exfalso. revert Hres. vm_compute. discriminate.
Defined.


(** ** The line structure of a page *)

Lemma splitLines_nonempty s : splitLines s ≠ [].
Proof. destruct s as [|c s]; cbn; [done|]. case_decide; [done|]. by destruct (splitLines s). Qed.

Lemma joinLines_cons s ss :
  ss ≠ [] → joinLines (s :: ss) = s ++ LF :: joinLines ss.
Proof. by destruct ss. Qed.

Lemma joinLines_splitLines s : joinLines (splitLines s) = s.
Proof.
  induction s as [|c s IH]; [done|]. cbn [splitLines]. case_decide as Hc.
  - rewrite joinLines_cons by apply splitLines_nonempty. cbn. by rewrite IH, Hc.
  - pose proof (splitLines_nonempty s) as Hne.
    destruct (splitLines s) as [|l ls]; [done|].
    destruct ls as [|l' ls]; cbn in *; by rewrite <-IH.
Qed.

Lemma splitLines_length s : length (splitLines s) = S (countNewlines s).
Proof.
  unfold countNewlines, jsstring in *. induction s as [|c s IH]; [done|].
  cbn [splitLines]. rewrite filter_cons. case_decide.
  - cbn [length]. by rewrite IH.
  - pose proof (splitLines_nonempty s). destruct (splitLines s); [done|].
    cbn [length] in *. done.
Qed.

Lemma buildLinesFrom_contents textLines index pageNumber currentOffset :
  lineContent <$> buildLinesFrom textLines index pageNumber currentOffset = textLines.
Proof.
  revert index currentOffset.
  induction textLines as [|l rest IH]; intros index currentOffset; [done|].
  cbn. by rewrite IH.
Qed.

Lemma buildLinesFrom_bounds textLines index pageNumber currentOffset :
  Forall (λ line, currentOffset ≤ startOffset line
                  ∧ endOffset line = startOffset line
                                     + Z.of_nat (length (lineContent line))
                  ∧ endOffset line < currentOffset + Z.of_nat (span textLines)
                  ∧ linePageNumber line = pageNumber)
         (buildLinesFrom textLines index pageNumber currentOffset).
Proof.
  revert index currentOffset.
  induction textLines as [|l rest IH]; intros index currentOffset; [constructor|].
  cbn [buildLinesFrom]. rewrite span_cons. constructor; [cbn; lia|].
  eapply Forall_impl; [apply IH|]. cbn. intros line. lia.
Qed.

Lemma buildLinesFrom_adjacent textLines index pageNumber currentOffset k line next :
  buildLinesFrom textLines index pageNumber currentOffset !! k = Some line →
  buildLinesFrom textLines index pageNumber currentOffset !! S k = Some next →
  startOffset next = endOffset line + 1.
Proof.
  revert index currentOffset k.
  induction textLines as [|l rest IH]; intros index currentOffset k; [done|].
  cbn [buildLinesFrom]. destruct k as [|k]; cbn.
  - intros [= <-]. destruct rest; cbn; [done|]. by intros [= <-].
  - apply IH.
Qed.

Lemma buildLinesFrom_addresses textLines index pageNumber currentOffset line :
  line ∈ buildLinesFrom textLines index pageNumber currentOffset →
  take (length (lineContent line))
       (drop (Z.to_nat (startOffset line - currentOffset)) (joinLines textLines))
  = lineContent line.
Proof.
  revert index currentOffset.
  induction textLines as [|l rest IH]; intros index currentOffset.
  - by intros ?%elem_of_nil.
  - cbn [buildLinesFrom]. intros [->|Hin]%elem_of_cons.
    + cbn [startOffset lineContent]. rewrite Z.sub_diag.
      change (Z.to_nat 0) with 0%nat. rewrite drop_0.
      destruct rest; [by rewrite firstn_all|].
      rewrite joinLines_cons by done. unfold jsstring in *.
      by rewrite take_app_length.
    + pose proof (buildLinesFrom_bounds rest (S index) pageNumber
                    (currentOffset + Z.of_nat (length l) + 1)) as Hbounds.
      rewrite Forall_forall in Hbounds. destruct (Hbounds line Hin) as (Hstart & _).
      rewrite joinLines_cons by (intros ->; by apply elem_of_nil in Hin).
      replace (Z.to_nat (startOffset line - currentOffset))
        with (length (l ++ [LF])
              + Z.to_nat (startOffset line
                          - (currentOffset + Z.of_nat (length l) + 1)))%nat
        by (rewrite length_app; cbn; lia).
      replace (l ++ LF :: joinLines rest) with ((l ++ [LF]) ++ joinLines rest)
        by (by rewrite <-app_assoc).
      unfold jsstring in *. rewrite drop_app_add. by apply (IH (S index)).
Qed.

(** X18: the lines of a page are the pieces of its text between line feeds,
    numbered from 1; each line ends its content length after its start, the
    next line starts one character (the line feed) after the end of the
    previous one, the first line starts at the page offset, and joining the
    line contents with line feeds gives the page text back. *)
Theorem buildLineStructure_layout (content : jsstring) (pageNumber pageOffset : Z) :
  let lines := buildLineStructure content pageNumber pageOffset in
  lineContent <$> lines = splitLines content
  ∧ joinLines (lineContent <$> lines) = content
  ∧ length lines = S (countNewlines content)
  ∧ lineNumber <$> lines = (λ k, Z.of_nat k + 1) <$> seq 0 (length lines)
  ∧ (startOffset <$> head lines) = Some pageOffset
  ∧ Forall (λ line, endOffset line
                    = startOffset line + Z.of_nat (length (lineContent line))
                    ∧ pageOffset ≤ startOffset line
                    ∧ endOffset line ≤ pageOffset + Z.of_nat (length content)
                    ∧ linePageNumber line = pageNumber) lines
  ∧ (∀ k line next, lines !! k = Some line → lines !! S k = Some next →
       startOffset next = endOffset line + 1).
Proof.
  cbn zeta. unfold buildLineStructure.
  rewrite buildLinesFrom_contents, joinLines_splitLines.
  assert (length (buildLinesFrom (splitLines content) 0 pageNumber pageOffset)
          = length (splitLines content)) as Hlen
    by (by rewrite <-(length_fmap lineContent), buildLinesFrom_contents).
  split; [done|]. split; [done|]. split; [by rewrite Hlen, splitLines_length|].
  split; [by rewrite buildLinesFrom_lineNumbers, Hlen|]. split.
  - pose proof (splitLines_nonempty content).
    by destruct (splitLines content).
  - split; [|apply buildLinesFrom_adjacent].
    eapply Forall_impl; [apply buildLinesFrom_bounds|]. cbn.
    intros line (? & ? & Hend & ?). rewrite splitLines_span in Hend. lia.
Qed.

(** X19: the offsets of a line address its content in the page text: the
    characters of the text from the start offset of the line (relative to the
    page offset) are the content of the line. *)
Theorem buildLineStructure_addresses
    (content : jsstring) (pageNumber pageOffset : Z) (line : DocumentLine) :
  line ∈ buildLineStructure content pageNumber pageOffset →
  substring content (startOffset line - pageOffset) (endOffset line - pageOffset)
  = lineContent line.
Proof.
  intros Hin. unfold buildLineStructure in Hin.
  pose proof (buildLinesFrom_addresses _ _ _ _ _ Hin) as Haddr.
  rewrite joinLines_splitLines in Haddr.
  pose proof (buildLinesFrom_bounds (splitLines content) 0 pageNumber pageOffset)
    as Hbounds.
  rewrite Forall_forall in Hbounds.
  destruct (Hbounds line Hin) as (Hstart & Hend & Hlast & _).
  rewrite splitLines_span in Hlast.
  etrans; [|exact Haddr]. unfold substring, clampIndex. cbn zeta.
  f_equal; [lia|]. f_equal. lia.
Qed.

Lemma buildLineStructure_addresses_witness :
  let content := js "ab" ++ [LF] ++ js "cd" in
  let line := {| lineNumber := 2; lineContent := js "cd"; startOffset := 3;
                 endOffset := 5; linePageNumber := 1 |} in
  line ∈ buildLineStructure content 1 0
  ∧ substring content (startOffset line - 0) (endOffset line - 0) = lineContent line.
Proof.
  cbn zeta.
  assert ({| lineNumber := 2; lineContent := js "cd"; startOffset := 3;
             endOffset := 5; linePageNumber := 1 |}
          ∈ buildLineStructure (js "ab" ++ [LF] ++ js "cd") 1 0) as Hin
    by (vm_compute; right; left).
  split; [exact Hin|].
  exact (buildLineStructure_addresses _ 1 0 _ Hin).
Defined.


(** ** The index of a document *)

Lemma offsetToPosition_unique_cover pages page line o :
  page ∈ pages → line ∈ lines page → startOffset line ≤ o ≤ endOffset line →
  (∀ page' line', page' ∈ pages → line' ∈ lines page' →
     startOffset line' ≤ o ≤ endOffset line' → page' = page ∧ line' = line) →
  offsetToPosition (buildPositionIndex pages) !! o = Some (positionOf page line o).
Proof.
  intros Hpage Hline Ho Hunique.
  pose proof (f_equal fst (buildPositionIndex_maps pages)) as Hfst.
  cbn [offsetMaps fst] in Hfst. rewrite Hfst.
  assert ((page, line, o) ∈ allWrites pages) as Hw by (by apply elem_of_allWrites).
  destruct (applyWrite_offset_is_Some _ _ Hw) as [position Hposition].
  cbn [snd] in Hposition. rewrite Hposition. f_equal.
  apply applyWrite_offset_inv in Hposition as ([[page' line'] o'] & Hw' & Ho' & ->).
  cbn in Ho'. subst o'. apply elem_of_allWrites in Hw' as (Hp' & Hl' & Hcover).
  cbn in Hp', Hl', Hcover. by destruct (Hunique page' line' Hp' Hl' Hcover) as [-> ->].
Qed.

Lemma buildLinesFrom_disjoint textLines index pageNumber currentOffset l1 l2 o :
  l1 ∈ buildLinesFrom textLines index pageNumber currentOffset →
  l2 ∈ buildLinesFrom textLines index pageNumber currentOffset →
  startOffset l1 ≤ o ≤ endOffset l1 → startOffset l2 ≤ o ≤ endOffset l2 →
  l1 = l2.
Proof.
  revert index currentOffset.
  induction textLines as [|l rest IH]; intros index currentOffset.
  - by intros ?%elem_of_nil.
  - cbn [buildLinesFrom].
    pose proof (buildLinesFrom_bounds rest (S index) pageNumber
                  (currentOffset + Z.of_nat (length l) + 1)) as Hbounds.
    rewrite Forall_forall in Hbounds.
    intros [->|H1]%elem_of_cons [->|H2]%elem_of_cons Ho1 Ho2; cbn in *.
    + done.
    + destruct (Hbounds l2 H2) as (? & _). lia.
    + destruct (Hbounds l1 H1) as (? & _). lia.
    + by eapply IH.
Qed.

(** X20: in a plain-text document the index sends every offset of line
    [k + 1], from its start to its end inclusive, to that line, with the
    column counted from 1; the offset of the line feed after a line belongs
    to that line and not to the next. *)
Theorem parseTextDocument_position
    (toUpperCase : jsstring → jsstring) (randomId : jsstring) (file : File)
    (k : nat) (line : DocumentLine) (o : Z) :
  buildLineStructure (fileText file) 1 0 !! k = Some line →
  startOffset line ≤ o ≤ endOffset line →
  offsetToPosition (positionIndex (parseTextDocument toUpperCase randomId file)) !! o
  = Some {| page := 1; line := Z.of_nat k + 1; column := o - startOffset line + 1;
            offset := o - startOffset line; absoluteOffset := o |}.
Proof.
  intros Hk Ho. cbn [parseTextDocument positionIndex].
  set (page := {| pageNumber := 1; content := fileText file;
                  lines := buildLineStructure (fileText file) 1 0;
                  height := 0; width := 0; renderOffset := 0 |}).
  assert (line ∈ lines page) as Hline by (by eapply list_elem_of_lookup_2).
  rewrite (offsetToPosition_unique_cover [page] page line o);
    [|by left|done|done|].
  - unfold positionOf. cbn [pageNumber page]. f_equal.
    assert (lineNumber <$> buildLineStructure (fileText file) 1 0 !! k
            = Some (Z.of_nat k + 1)) as Hnumber.
    { rewrite <-list_lookup_fmap. unfold buildLineStructure.
      rewrite buildLinesFrom_lineNumbers, list_lookup_fmap, lookup_seq_lt; [done|].
      apply lookup_lt_Some in Hk. unfold buildLineStructure in Hk.
      by rewrite <-(length_fmap lineContent), buildLinesFrom_contents in Hk. }
    rewrite Hk in Hnumber. by injection Hnumber as ->.
  - intros page' line' ->%list_elem_of_singleton Hline' Ho'. split; [done|].
    exact (buildLinesFrom_disjoint _ _ _ _ _ _ o Hline' Hline Ho' Ho).
Qed.

Lemma parseTextDocument_position_witness :
  let file := {| fileName := js "a.txt"; fileType := js "text/plain"; fileSize := 5;
                 fileText := js "ab" ++ [LF] ++ js "cd"; lastModified := 0 |} in
  let line := {| lineNumber := 1; lineContent := js "ab"; startOffset := 0;
                 endOffset := 2; linePageNumber := 1 |} in
  buildLineStructure (fileText file) 1 0 !! 0%nat = Some line
  ∧ startOffset line ≤ 2 ≤ endOffset line
  ∧ offsetToPosition (positionIndex (parseTextDocument asciiUpper (js "k3x91mzqa") file))
      !! 2
    = Some {| page := 1; line := 1; column := 3; offset := 2; absoluteOffset := 2 |}.
Proof.
  cbn zeta. split; [by vm_compute|]. split; [by vm_compute|].
  exact (parseTextDocument_position asciiUpper (js "k3x91mzqa")
           {| fileName := js "a.txt"; fileType := js "text/plain"; fileSize := 5;
              fileText := js "ab" ++ [LF] ++ js "cd"; lastModified := 0 |}
           0 {| lineNumber := 1; lineContent := js "ab"; startOffset := 0;
                endOffset := 2; linePageNumber := 1 |} 2
           eq_refl ltac:(by vm_compute)).
Defined.

Lemma foldl_insert_lookup {A} (key : A → Z) (l : list A) (n : Z) :
  foldl (λ (m : gmap Z A) x, <[key x := x]> m) ∅ l !! n
  = last (filter (λ x, key x = n) l).
Proof.
  induction l as [|x l IH] using rev_ind; [done|].
  rewrite foldl_snoc, filter_app, filter_cons, filter_nil.
  destruct (decide (key x = n)) as [<-|Hne].
  - by rewrite lookup_insert_eq, last_snoc.
  - by rewrite lookup_insert_ne, app_nil_r.
Qed.

Lemma indexCharacter_keeps page line offsets index :
  lineIndex (foldl (indexCharacter page line) index offsets) = lineIndex index
  ∧ pageIndex (foldl (indexCharacter page line) index offsets) = pageIndex index.
Proof.
  revert index. induction offsets as [|i offsets IH]; intros index; [done|].
  cbn [foldl]. by destruct (IH (indexCharacter page line index i)) as [-> ->].
Qed.

Lemma indexLine_keeps page ls index :
  lineIndex (foldl (indexLine page) index ls)
  = foldl (λ m l, <[lineNumber l := l]> m) (lineIndex index) ls
  ∧ pageIndex (foldl (indexLine page) index ls) = pageIndex index.
Proof.
  revert index. induction ls as [|line rest IH]; intros index; [done|].
  cbn [foldl]. destruct (IH (indexLine page index line)) as [-> ->].
  unfold indexLine.
  by destruct (indexCharacter_keeps page line (lineOffsets line)
                 {| offsetToPosition := offsetToPosition index;
                    positionToOffset := positionToOffset index;
                    lineIndex := <[lineNumber line := line]> (lineIndex index);
                    pageIndex := pageIndex index |}) as [-> ->].
Qed.

Lemma indexPage_line_page index page :
  lineIndex (indexPage index page)
  = foldl (λ m l, <[lineNumber l := l]> m) (lineIndex index) (lines page)
  ∧ pageIndex (indexPage index page) = <[pageNumber page := page]> (pageIndex index).
Proof.
  unfold indexPage.
  by destruct (indexLine_keeps page (lines page)
                 {| offsetToPosition := offsetToPosition index;
                    positionToOffset := positionToOffset index;
                    lineIndex := lineIndex index;
                    pageIndex := <[pageNumber page := page]> (pageIndex index) |})
    as [-> ->].
Qed.

Lemma indexPage_keeps pages index :
  lineIndex (foldl indexPage index pages)
  = foldl (λ m l, <[lineNumber l := l]> m) (lineIndex index) (pages ≫= lines)
  ∧ pageIndex (foldl indexPage index pages)
    = foldl (λ m p, <[pageNumber p := p]> m) (pageIndex index) pages.
Proof.
  revert index. induction pages as [|page rest IH]; intros index; [done|].
  cbn [foldl]. destruct (IH (indexPage index page)) as [-> ->].
  destruct (indexPage_line_page index page) as [-> ->].
  by rewrite bind_cons, foldl_app.
Qed.

Lemma buildPositionIndex_line_page pages :
  lineIndex (buildPositionIndex pages)
  = foldl (λ m l, <[lineNumber l := l]> m) ∅ (pages ≫= lines)
  ∧ pageIndex (buildPositionIndex pages)
    = foldl (λ m p, <[pageNumber p := p]> m) ∅ pages.
Proof. apply (indexPage_keeps pages emptyIndex). Qed.

(** X21: the page index maps a number to the last page with that number,
    and the line index maps a number to the last line with that number in
    reading order over all pages: in a document of several pages the lines
    of a later page replace the lines of the same number of earlier pages. *)
Theorem buildPositionIndex_lookups (pages : list DocumentPage) (n : Z) :
  pageIndex (buildPositionIndex pages) !! n
  = last (filter (λ p, pageNumber p = n) pages)
  ∧ lineIndex (buildPositionIndex pages) !! n
    = last (filter (λ l, lineNumber l = n) (pages ≫= lines)).
Proof.
  destruct (buildPositionIndex_line_page pages) as [-> ->].
  by rewrite !foldl_insert_lookup.
Qed.

(** X22: two positions have the same key in the inverse map exactly when
    they agree on page, line and column. *)
Theorem positionKey_eq_iff (p q : DocumentPosition) :
  positionKey p = positionKey q
  ↔ page p = page q ∧ line p = line q ∧ column p = column q.
Proof.
  split; [apply positionKey_inj|].
  unfold positionKey. by intros (-> & -> & ->).
Qed.


(** ** The pages of a PDF document *)

Lemma pdfPageStep_from extracted pages n o :
  (foldl pdfPageStep (pages, n, o) extracted).1.1
  = pages ++ pdfPagesFrom extracted n o.
Proof.
  revert pages n o.
  induction extracted as [|[[text h] w] rest IH]; intros pages n o.
  - by rewrite app_nil_r.
  - cbn [foldl pdfPageStep pdfPagesFrom]. by rewrite IH, <-app_assoc.
Qed.

Lemma pdfPages_from extracted : pdfPages extracted = pdfPagesFrom extracted 1 0.
Proof. unfold pdfPages. by rewrite pdfPageStep_from. Qed.

Lemma pdfPagesFrom_contents extracted n o :
  content <$> pdfPagesFrom extracted n o = (λ e, e.1.1) <$> extracted.
Proof.
  revert n o. induction extracted as [|[[text h] w] rest IH]; intros n o; [done|].
  cbn [pdfPagesFrom]. by rewrite !fmap_cons, IH.
Qed.

Lemma pdfPagesFrom_lines extracted n o :
  Forall (λ p, lines p = buildLineStructure (content p) (pageNumber p) (renderOffset p))
         (pdfPagesFrom extracted n o).
Proof.
  revert n o. induction extracted as [|[[text h] w] rest IH]; intros n o;
    cbn [pdfPagesFrom]; by constructor.
Qed.

Lemma joinLines_cons_app (s : jsstring) ss : ∃ rest, joinLines (s :: ss) = s ++ rest.
Proof. destruct ss; [exists []; by rewrite app_nil_r|by eexists]. Qed.

Lemma pdfPagesFrom_render extracted n o page :
  page ∈ pdfPagesFrom extracted n o →
  o ≤ renderOffset page
  ∧ renderOffset page - o + Z.of_nat (length (content page))
    ≤ Z.of_nat (length (joinLines (content <$> pdfPagesFrom extracted n o)))
  ∧ take (length (content page))
         (drop (Z.to_nat (renderOffset page - o))
               (joinLines (content <$> pdfPagesFrom extracted n o)))
    = content page.
Proof.
  revert n o. induction extracted as [|[[text h] w] rest IH]; intros n o.
  - by intros ?%elem_of_nil.
  - cbn [pdfPagesFrom]. rewrite fmap_cons. intros [->|Hin]%elem_of_cons.
    + cbn [renderOffset content].
      destruct (joinLines_cons_app text
                  (content <$> pdfPagesFrom rest (n + 1)
                                 (o + Z.of_nat (length text) + 1))) as [tail ->].
      unfold jsstring in *. rewrite Z.sub_diag, length_app.
      change (Z.to_nat 0) with 0%nat. rewrite drop_0, take_app_length.
      split; [lia|]. split; [lia|done].
    + destruct (IH _ _ Hin) as (Hle & Hlen & Htake).
      cbn [content]. rewrite joinLines_cons; cycle 1.
      { intros Heq%fmap_nil_inv. rewrite Heq in Hin. by apply elem_of_nil in Hin. }
      revert Hlen Htake.
      generalize (joinLines (content <$> pdfPagesFrom rest (n + 1)
                               (o + Z.of_nat (length text) + 1))).
      intros full Hlen Htake. unfold jsstring in *.
      rewrite length_app. cbn [length].
      split; [lia|]. split; [lia|].
      replace (Z.to_nat (renderOffset page - o))
        with (length text
              + S (Z.to_nat (renderOffset page - (o + Z.of_nat (length text) + 1))))%nat
        by lia.
      by rewrite drop_app_add.
Qed.

Lemma take_drop_within {A} (s c : list A) (a b k len : nat) :
  take a (drop b s) = c → (k + len ≤ length c)%nat →
  take len (drop (b + k) s) = take len (drop k c).
Proof.
  intros <- Hlen. rewrite length_take in Hlen.
  rewrite (take_drop_commute (take a (drop b s))), take_take.
  rewrite Nat.min_l by lia.
  by rewrite <-take_drop_commute, drop_drop.
Qed.

(** X23: the offsets of a PDF document address the text that the diff engine
    compares: the full content is the page texts joined by line feeds, the
    text of a page stands in it from the render offset of the page, and the
    content of every line stands in it between the start and the end offset
    of the line. *)
Theorem parsePDFDocument_addresses
    (toUpperCase : jsstring → jsstring) (randomId : jsstring) (file : File)
    (extracted : list (jsstring * Q * Q)) (meta : DocumentMetadata)
    (page : DocumentPage) :
  let doc := parsePDFDocument toUpperCase randomId file extracted meta in
  page ∈ pages doc →
  extractFullContent doc = joinLines ((λ e, e.1.1) <$> extracted)
  ∧ substring (extractFullContent doc) (renderOffset page)
      (renderOffset page + Z.of_nat (length (content page))) = content page
  ∧ ∀ line, line ∈ lines page →
      substring (extractFullContent doc) (startOffset line) (endOffset line)
      = lineContent line.
Proof.
  cbn zeta. unfold extractFullContent. cbn [parsePDFDocument pages].
  rewrite pdfPages_from. intros Hin.
  split; [by rewrite pdfPagesFrom_contents|].
  destruct (pdfPagesFrom_render _ _ _ _ Hin) as (Hle & Hlen & Htake).
  pose proof (pdfPagesFrom_lines extracted 1 0) as Hlines.
  rewrite Forall_forall in Hlines. specialize (Hlines page Hin).
  revert Hlen Htake.
  generalize (joinLines (content <$> pdfPagesFrom extracted 1 0)).
  intros full Hlen Htake. rewrite Z.sub_0_r in *. split.
  - etrans; [|exact Htake]. unfold substring, clampIndex. cbn zeta.
    unfold jsstring in *. f_equal; [lia|]. f_equal. lia.
  - intros line Hline. rewrite Hlines in Hline.
    pose proof (buildLineStructure_addresses _ _ _ _ Hline) as Haddr.
    unfold buildLineStructure in Hline.
    pose proof (buildLinesFrom_bounds (splitLines (content page)) 0
                  (pageNumber page) (renderOffset page)) as Hbounds.
    rewrite Forall_forall in Hbounds.
    destruct (Hbounds line Hline) as (Hstart & Hend & Hlast & _).
    rewrite splitLines_span in Hlast.
    rewrite <-Haddr. unfold substring, clampIndex. cbn zeta.
    unfold jsstring in *.
    replace (Z.to_nat (Z.min (Z.max 0 (startOffset line))
                         (Z.of_nat (length full))))
      with (Z.to_nat (renderOffset page)
            + Z.to_nat (startOffset line - renderOffset page))%nat by lia.
    replace (Z.to_nat (Z.min (Z.max 0 (endOffset line)) (Z.of_nat (length full))))
      with (Z.to_nat (renderOffset page)
            + Z.to_nat (endOffset line - renderOffset page))%nat by lia.
    replace (Z.to_nat (Z.min (Z.max 0 (startOffset line - renderOffset page))
                         (Z.of_nat (length (content page)))))
      with (Z.to_nat (startOffset line - renderOffset page)) by lia.
    replace (Z.to_nat (Z.min (Z.max 0 (endOffset line - renderOffset page))
                         (Z.of_nat (length (content page)))))
      with (Z.to_nat (endOffset line - renderOffset page)) by lia.
    rewrite !Nat.min_l, !Nat.max_r by lia.
    replace (Z.to_nat (renderOffset page)
             + Z.to_nat (endOffset line - renderOffset page)
             - (Z.to_nat (renderOffset page)
                + Z.to_nat (startOffset line - renderOffset page)))%nat
      with (Z.to_nat (endOffset line - renderOffset page)
            - Z.to_nat (startOffset line - renderOffset page))%nat by lia.
    apply (take_drop_within _ _ (length (content page))); [done|lia].
Qed.

Lemma parsePDFDocument_addresses_witness :
  let extracted := [(js "ab", 0%Q, 0%Q); (js "cd", 0%Q, 0%Q)] in
  let file := {| fileName := js "a.pdf"; fileType := js "application/pdf";
                 fileSize := 4; fileText := []; lastModified := 0 |} in
  let meta := {| metaTitle := None; author := None; createdDate := None;
                 modifiedDate := None; language := None; encoding := None |} in
  let doc := parsePDFDocument asciiUpper (js "k3x91mzqa") file extracted meta in
  let page := {| pageNumber := 2; content := js "cd";
                 lines := buildLineStructure (js "cd") 2 3;
                 height := 0%Q; width := 0%Q; renderOffset := 3 |} in
  page ∈ pages doc
  ∧ substring (extractFullContent doc) 3 5 = js "cd".
Proof.
  cbn zeta.
  assert ({| pageNumber := 2; content := js "cd";
             lines := buildLineStructure (js "cd") 2 3;
             height := 0%Q; width := 0%Q; renderOffset := 3 |}
          ∈ pages (parsePDFDocument asciiUpper (js "k3x91mzqa")
                     {| fileName := js "a.pdf"; fileType := js "application/pdf";
                        fileSize := 4; fileText := []; lastModified := 0 |}
                     [(js "ab", 0%Q, 0%Q); (js "cd", 0%Q, 0%Q)]
                     {| metaTitle := None; author := None; createdDate := None;
                        modifiedDate := None; language := None; encoding := None |}))
    as Hin by (vm_compute; right; left).
  split; [exact Hin|].
  exact (proj1 (proj2 (parsePDFDocument_addresses _ _ _ _ _ _ Hin))).
Defined.


(** ** The sections of a document *)

Lemma sectionOfLine_heading toUpperCase page sections id index line :
  sectionOfLine toUpperCase page (sections, id) (index, line)
  = if isHeading toUpperCase line
    then (sections ++ [
            {| sectionId := js "section-" ++ numToString id;
               title := trim line;
               level := 1;
               startPosition :=
                 {| page := pageNumber page; line := Z.of_nat index + 1; column := 1;
                    offset := 0;
                    absoluteOffset := renderOffset page + indexOf line (trim line) |};
               endPosition :=
                 {| page := pageNumber page; line := Z.of_nat index + 1;
                    column := Z.of_nat (length line);
                    offset := Z.of_nat (length line) - 1;
                    absoluteOffset := renderOffset page + Z.of_nat (length line) |};
               sectionContent := trim line |}],
          id + 1)
    else (sections, id).
Proof. done. Qed.

Lemma sectionOfLine_fold toUpperCase page entries sections id :
  ∃ new,
    foldl (sectionOfLine toUpperCase page) (sections, id) entries
    = (sections ++ new, id + Z.of_nat (length new))
    ∧ sectionId <$> new
      = (λ k, js "section-" ++ numToString k) <$> seqZ id (Z.of_nat (length new))
    ∧ title <$> new = trim <$> filter (isHeading toUpperCase) (entries.*2)
    ∧ Forall sectionShape new.
Proof.
  revert sections id.
  induction entries as [|[index line] rest IH]; intros sections id.
  - exists []. by rewrite app_nil_r, Z.add_0_r.
  - cbn [foldl]. rewrite sectionOfLine_heading, fmap_cons, filter_cons. cbn [snd].
    destruct (isHeading toUpperCase line) eqn:Hheading.
    + rewrite decide_True by done.
      match goal with
      | |- context [foldl _ (sections ++ [?s], _) _] => set (section := s)
      end.
      destruct (IH (sections ++ [section]) (id + 1))
        as (new & -> & Hids & Htitles & Hshape).
      exists (section :: new). cbn [length]. rewrite Nat2Z.inj_succ.
      split; [rewrite <-app_assoc; f_equal; lia|]. split.
      { rewrite (seqZ_cons id) by lia. rewrite Z.pred_succ, !fmap_cons.
        by rewrite Hids. }
      split; [by rewrite !fmap_cons, Htitles|].
      constructor; [|done]. unfold sectionShape. cbn.
      split; [|done]. unfold isHeading in Hheading.
      apply andb_prop in Hheading as [Hlen%bool_decide_eq_true _].
      intros Hnil. rewrite Hnil in Hlen. cbn in Hlen. lia.
    + rewrite decide_False by (cbn; tauto). apply IH.
Qed.

Lemma imap_pair_snd {A B} (g : nat → B) (l : list A) :
  (imap (λ i x, (g i, x)) l).*2 = l.
Proof.
  revert g. induction l as [|x l IH]; intros g; [done|].
  cbn. f_equal. apply (IH (g ∘ S)).
Qed.

Lemma extractSections_fold toUpperCase pages sections id :
  ∃ new,
    foldl (λ st page,
             foldl (sectionOfLine toUpperCase page) st
                   (imap pair (splitLines (content page))))
          (sections, id) pages
    = (sections ++ new, id + Z.of_nat (length new))
    ∧ sectionId <$> new
      = (λ k, js "section-" ++ numToString k) <$> seqZ id (Z.of_nat (length new))
    ∧ title <$> new = trim <$> filter (isHeading toUpperCase) (textLinesOf pages)
    ∧ Forall sectionShape new.
Proof.
  revert sections id. induction pages as [|page rest IH]; intros sections id.
  - exists []. by rewrite app_nil_r, Z.add_0_r.
  - cbn [foldl].
    destruct (sectionOfLine_fold toUpperCase page
                (imap pair (splitLines (content page))) sections id)
      as (new1 & -> & Hids1 & Htitles1 & Hshape1).
    destruct (IH (sections ++ new1) (id + Z.of_nat (length new1)))
      as (new2 & -> & Hids2 & Htitles2 & Hshape2).
    exists (new1 ++ new2). rewrite length_app, Nat2Z.inj_add.
    split; [rewrite <-app_assoc; f_equal; lia|]. split.
    { rewrite seqZ_app by lia. by rewrite !fmap_app, Hids1, Hids2. }
    split; [|by apply Forall_app].
    unfold textLinesOf. rewrite bind_cons, filter_app, !fmap_app.
    rewrite Htitles1, Htitles2. do 3 f_equal.
    apply (imap_pair_snd (λ i, i) (splitLines (content page))).
Qed.

(** X24: the sections of a document are numbered section-1, section-2, ...
    in reading order, so no two sections share an identifier; their titles
    are the trimmed heading lines of the pages in reading order; and every
    section has a title that is not empty, a content equal to its title,
    level 1, and starts and ends on the same line. *)
Theorem extractSections_sections
    (toUpperCase : jsstring → jsstring) (pages : list DocumentPage) :
  let sections := extractSections toUpperCase pages in
  sectionId <$> sections
  = (λ k, js "section-" ++ numToString k) <$> seqZ 1 (Z.of_nat (length sections))
  ∧ NoDup (sectionId <$> sections)
  ∧ title <$> sections = trim <$> filter (isHeading toUpperCase) (textLinesOf pages)
  ∧ Forall sectionShape sections.
Proof.
  cbn zeta. unfold extractSections.
  destruct (extractSections_fold toUpperCase pages [] 1)
    as (new & -> & Hids & Htitles & Hshape).
  cbn [fst app]. split; [done|]. split; [|done].
  rewrite Hids. apply NoDup_fmap_2; [|apply NoDup_seqZ].
  intros k1 k2 Heq. by apply app_inv_head, numToString_inj in Heq.
Qed.


(** ** The hook useAdvancedComparison *)

Lemma findIndexFrom_found {A} (p : A → bool) (l : list A) (i : Z) :
  0 ≤ i → findIndexFrom p l i ≠ -1 →
  ∃ k d, findIndexFrom p l i = i + Z.of_nat k ∧ l !! k = Some d ∧ p d = true.
Proof.
  revert i. induction l as [|x l IH]; intros i Hi; cbn [findIndexFrom]; [done|].
  destruct (p x) eqn:Hx.
  - intros _. exists 0%nat, x. split; [lia|done].
  - intros Hne. destruct (IH (i + 1) ltac:(lia) Hne) as (k & d & -> & Hd & Hp).
    exists (S k), d. split; [lia|done].
Qed.

Lemma findIndex_unique_id (l : list PreciseDifference) (k : nat) (d : PreciseDifference) :
  NoDup (diffId <$> l) → l !! k = Some d →
  findIndex (λ d', bool_decide (diffId d' = diffId d)) l = Z.of_nat k.
Proof.
  intros Hnodup Hk. unfold findIndex.
  pose proof (take_drop_middle l k d Hk) as Hsplit.
  rewrite <-Hsplit in Hnodup |- *.
  assert (length (take k l) = k) as Hlen
    by (apply length_take_le, Nat.lt_le_incl; by eapply lookup_lt_Some).
  rewrite <-Hlen at 3.
  rewrite <-(Z.add_0_l (Z.of_nat (length (take k l)))).
  apply findIndexFrom_app_hit; [by apply bool_decide_eq_true|].
  rewrite fmap_app, fmap_cons in Hnodup.
  apply NoDup_app in Hnodup as (_ & Hfresh & _).
  apply Forall_forall. intros y Hy. apply bool_decide_eq_false. intros Heq.
  apply (Hfresh (diffId y)); [by apply list_elem_of_fmap_2|].
  rewrite Heq. by left.
Qed.

Lemma slice_last_length {A} (l : list A) (n : nat) :
  (0 < n)%nat → (length (useAdvancedComparison.slice l (- Z.of_nat n)) ≤ n)%nat.
Proof.
  intros Hn. unfold useAdvancedComparison.slice. cbn zeta.
  rewrite decide_True by lia. rewrite length_drop. lia.
Qed.

Lemma selectDifference_consistent differenceId st :
  navigationConsistent st →
  navigationConsistent (useAdvancedComparison.selectDifference differenceId st).
Proof.
  intros Hinv. unfold useAdvancedComparison.selectDifference.
  destruct (useAdvancedComparison.comparisonResult st) as [result|] eqn:Hres;
    [|done].
  cbn zeta. case_decide as Hindex; [|done].
  destruct Hinv as (Hbookmarks & Hhistory & Hresult).
  unfold navigationConsistent. cbn. split; [done|]. split.
  { rewrite length_app. cbn [length].
    pose proof (slice_last_length
                  (useAdvancedComparison.navigationHistory
                     (useAdvancedComparison.navigationState st)) 9 ltac:(lia)).
    change (- Z.of_nat 9) with (-9) in *. lia. }
  rewrite Hres. intros ? [= <-].
  destruct (Hresult _ Hres) as (Htotal & _ & _). split; [done|].
  unfold findIndex in *.
  destruct (findIndexFrom_found _ _ 0 ltac:(lia) Hindex) as (k & d & -> & Hd & Hp).
  apply bool_decide_eq_true in Hp. apply lookup_lt_Some in Hd as Hlt.
  split; [lia|]. intros _. exists d. split; [|by rewrite Hp].
  unfold at_. rewrite decide_True by lia.
  by replace (Z.to_nat (0 + Z.of_nat k)) with k by lia.
Qed.

Lemma hookCall_consistent diffLines diffWords st c :
  navigationConsistent st →
  navigationConsistent (hookCall diffLines diffWords st c).
Proof.
  intros Hinv.
  destruct c as [[|]|[|] [document|message]| |id| | |side scrollTop| |id|id|];
    cbn [hookCall]; try done.
  - unfold useAdvancedComparison.compareDocuments.
    destruct Hinv as (Hbookmarks & Hhistory & Hresult).
    destruct (useAdvancedComparison.leftDocument st) as [leftDoc|],
             (useAdvancedComparison.rightDocument st) as [rightDoc|];
      try (by split; [done|split; [done|intros ? [=]]]).
    cbn zeta.
    destruct (AdvancedDiffEngine.compareDocuments diffLines diffWords leftDoc rightDoc)
      as [result|[message]].
    + destruct (differences result) as [|first rest] eqn:Hdiffs;
        (split; [done|split; [done|]]); cbn; intros ? [= <-]; rewrite Hdiffs;
        cbn [length].
      * rewrite decide_False by lia. split; [done|]. split; [done|]. lia.
      * rewrite decide_True by lia. split; [done|]. split; [lia|].
        intros _. by exists first.
    + by split; [done|split; [done|]].
  - by apply selectDifference_consistent.
  - unfold useAdvancedComparison.navigateToNext.
    destruct (useAdvancedComparison.comparisonResult st) as [result|]; [|done].
    case_decide; [done|]. cbn zeta.
    destruct (at_ _ _); [|done]. by apply selectDifference_consistent.
  - unfold useAdvancedComparison.navigateToPrevious.
    destruct (useAdvancedComparison.comparisonResult st) as [result|]; [|done].
    case_decide; [done|]. cbn zeta.
    destruct (at_ _ _); [|done]. by apply selectDifference_consistent.
  - destruct Hinv as (Hbookmarks & Hhistory & Hresult).
    split; [|by split]. cbn. apply NoDup_app. split; [by apply NoDup_filter|].
    split; [|apply NoDup_singleton].
    intros x [Hx _]%list_elem_of_filter Hid%list_elem_of_singleton. by apply Hx.
  - destruct Hinv as (Hbookmarks & Hhistory & Hresult).
    split; [|by split]. cbn. by apply NoDup_filter.
  - split; [apply NoDup_nil_2|]. split; [cbn; lia|]. by intros ? [=].
Qed.

(** X25: whatever calls a component makes on the hook, the navigation
    state stays consistent with the comparison result: the bookmarks have no
    duplicates, the navigation history has at most ten entries, and while a
    result is shown the total is its number of differences, the current
    index is -1 or addresses one of its differences, and then the selected
    difference is the one at that index. *)
Theorem hook_navigation_consistent
    (diffLines diffWords : jsstring → jsstring → list Change)
    (calls : list HookCall) :
  navigationConsistent (hookRun diffLines diffWords calls).
Proof.
  unfold hookRun. induction calls as [|c calls IH] using rev_ind.
  - split; [apply NoDup_nil_2|]. split; [cbn; lia|]. by intros ? [=].
  - rewrite foldl_snoc. by apply hookCall_consistent.
Qed.


Lemma selectDifference_at st result m d :
  useAdvancedComparison.comparisonResult st = Some result →
  NoDup (diffId <$> differences result) →
  at_ (differences result) m = Some d →
  let st' := useAdvancedComparison.selectDifference (diffId d) st in
  useAdvancedComparison.comparisonResult st' = Some result
  ∧ useAdvancedComparison.currentDifferenceIndex
      (useAdvancedComparison.navigationState st') = m
  ∧ useAdvancedComparison.selectedDifference
      (useAdvancedComparison.viewportState st') = Some (diffId d)
  ∧ useAdvancedComparison.leftDocument st' = useAdvancedComparison.leftDocument st
  ∧ useAdvancedComparison.rightDocument st' = useAdvancedComparison.rightDocument st.
Proof.
  intros Hres Hnodup Hat. unfold at_ in Hat. case_decide as Hm; [|done].
  pose proof (findIndex_unique_id _ _ _ Hnodup Hat) as Hindex.
  rewrite Z2Nat.id in Hindex by done.
  cbn zeta. unfold useAdvancedComparison.selectDifference.
  rewrite Hres. cbn zeta. rewrite Hindex, decide_True by lia. by cbn.
Qed.

Lemma navigateToNext_select st result :
  useAdvancedComparison.comparisonResult st = Some result →
  differences result ≠ [] →
  -1 ≤ useAdvancedComparison.currentDifferenceIndex
         (useAdvancedComparison.navigationState st) →
  ∃ d, at_ (differences result)
           (Z.min (useAdvancedComparison.currentDifferenceIndex
                     (useAdvancedComparison.navigationState st) + 1)
                  (Z.of_nat (length (differences result)) - 1)) = Some d
       ∧ useAdvancedComparison.navigateToNext st
         = useAdvancedComparison.selectDifference (diffId d) st.
Proof.
  intros Hres Hne Hcur. unfold useAdvancedComparison.navigateToNext.
  rewrite Hres. rewrite decide_False by (by destruct (differences result)).
  cbn zeta.
  assert (0 < length (differences result))%nat
    by (destruct (differences result); [done|cbn; lia]).
  destruct (at_ (differences result) _) as [d|] eqn:Hat; [by exists d|].
  exfalso. unfold at_ in Hat. rewrite decide_True in Hat by lia.
  apply lookup_ge_None in Hat. lia.
Qed.

Lemma navigateToPrevious_select st result :
  useAdvancedComparison.comparisonResult st = Some result →
  useAdvancedComparison.currentDifferenceIndex
    (useAdvancedComparison.navigationState st)
  ≤ Z.of_nat (length (differences result)) →
  differences result ≠ [] →
  ∃ d, at_ (differences result)
           (Z.max (useAdvancedComparison.currentDifferenceIndex
                     (useAdvancedComparison.navigationState st) - 1) 0) = Some d
       ∧ useAdvancedComparison.navigateToPrevious st
         = useAdvancedComparison.selectDifference (diffId d) st.
Proof.
  intros Hres Hcur Hne. unfold useAdvancedComparison.navigateToPrevious.
  rewrite Hres. rewrite decide_False by (by destruct (differences result)).
  cbn zeta.
  assert (0 < length (differences result))%nat
    by (destruct (differences result); [done|cbn; lia]).
  destruct (at_ (differences result) _) as [d|] eqn:Hat; [by exists d|].
  exfalso. unfold at_ in Hat. rewrite decide_True in Hat by lia.
  apply lookup_ge_None in Hat. lia.
Qed.

(** X26: when the differences shown have pairwise distinct identifiers and
    the current index is -1 or below their number, the next button moves the
    index one up but not beyond the last difference, the previous button
    moves it one down but not below the first, and the selected difference
    becomes the one at the new index. *)
Theorem navigation_moves
    (st : useAdvancedComparison.HookState) (result : ComparisonResult) :
  useAdvancedComparison.comparisonResult st = Some result →
  NoDup (diffId <$> differences result) →
  differences result ≠ [] →
  -1 ≤ useAdvancedComparison.currentDifferenceIndex
         (useAdvancedComparison.navigationState st)
     < Z.of_nat (length (differences result)) →
  let current := useAdvancedComparison.currentDifferenceIndex
                   (useAdvancedComparison.navigationState st) in
  let lastIndex := Z.of_nat (length (differences result)) - 1 in
  let next := useAdvancedComparison.navigateToNext st in
  let previous := useAdvancedComparison.navigateToPrevious st in
  useAdvancedComparison.currentDifferenceIndex
    (useAdvancedComparison.navigationState next) = Z.min (current + 1) lastIndex
  ∧ useAdvancedComparison.selectedDifference (useAdvancedComparison.viewportState next)
    = diffId <$> at_ (differences result) (Z.min (current + 1) lastIndex)
  ∧ useAdvancedComparison.currentDifferenceIndex
      (useAdvancedComparison.navigationState previous) = Z.max (current - 1) 0
  ∧ useAdvancedComparison.selectedDifference
      (useAdvancedComparison.viewportState previous)
    = diffId <$> at_ (differences result) (Z.max (current - 1) 0).
Proof.
  intros Hres Hnodup Hne Hcur. cbn zeta.
  destruct (navigateToNext_select st result Hres Hne ltac:(lia))
    as (d1 & Hat1 & ->).
  destruct (navigateToPrevious_select st result Hres ltac:(lia) Hne)
    as (d2 & Hat2 & ->).
  destruct (selectDifference_at st result _ d1 Hres Hnodup Hat1)
    as (_ & -> & -> & _).
  destruct (selectDifference_at st result _ d2 Hres Hnodup Hat2)
    as (_ & -> & -> & _).
  by rewrite Hat1, Hat2.
Qed.

Lemma navigation_moves_witness :
  let st := hookRun ReferenceDiff.diffLines ReferenceDiff.diffWords
              [ProcessDocumentEnd useAdvancedComparison.leftSide
                 (inl (textDocument (js "a b")));
               ProcessDocumentEnd useAdvancedComparison.rightSide
                 (inl (textDocument (js "c b")));
               CompareDocuments] in
  ∃ result,
    useAdvancedComparison.comparisonResult st = Some result
    ∧ length (differences result) = 4%nat
    ∧ useAdvancedComparison.currentDifferenceIndex
        (useAdvancedComparison.navigationState st) = 0
    ∧ useAdvancedComparison.currentDifferenceIndex
        (useAdvancedComparison.navigationState
           (useAdvancedComparison.navigateToNext st)) = 1.
Proof.
  cbn zeta.
  destruct (useAdvancedComparison.comparisonResult
              (hookRun ReferenceDiff.diffLines ReferenceDiff.diffWords
                 [ProcessDocumentEnd useAdvancedComparison.leftSide
                    (inl (textDocument (js "a b")));
                  ProcessDocumentEnd useAdvancedComparison.rightSide
                    (inl (textDocument (js "c b")));
                  CompareDocuments])) as [result|] eqn:Hres.
  - exists result.
    assert (length (differences result) = 4%nat) as Hlen
      by (revert Hres; vm_compute; by intros [= <-]).
    assert (NoDup (diffId <$> differences result)) as Hnodup.
    { revert Hres. vm_compute. intros [= <-].
      apply (bool_decide_unpack _). by vm_compute. }
    assert (differences result ≠ []) as Hne by (by destruct (differences result)).
    assert (useAdvancedComparison.currentDifferenceIndex
              (useAdvancedComparison.navigationState
                 (hookRun ReferenceDiff.diffLines ReferenceDiff.diffWords
                    [ProcessDocumentEnd useAdvancedComparison.leftSide
                       (inl (textDocument (js "a b")));
                     ProcessDocumentEnd useAdvancedComparison.rightSide
                       (inl (textDocument (js "c b")));
                     CompareDocuments])) = 0) as Hcur by (by vm_compute).
    split; [done|]. split; [done|]. split; [done|].
    pose proof (navigation_moves _ result Hres Hnodup Hne
                  ltac:(rewrite Hcur, Hlen; lia)) as Hmoves.
    cbn zeta in Hmoves. destruct Hmoves as (Hnext & _).
    rewrite Hnext, Hcur, Hlen. done.
  - exfalso. revert Hres. vm_compute. discriminate.
Defined.

Lemma engine_ids_NoDup diffLines diffWords leftDoc rightDoc result :
  AdvancedDiffEngine.compareDocuments diffLines diffWords leftDoc rightDoc = Ok result →
  NoDup (diffId <$> differences result).
Proof.
  intros Hres.
  destruct (compareDocuments_Ok _ _ _ _ _ Hres) as (lineDs & Hline & -> & _).
  by eapply optimizeDifferences_NoDup_ids, differ_ids_NoDup.
Qed.

(** X27: after a successful comparison that finds differences, the first
    difference is selected, and pressing next k times selects difference
    number k, or the last one when there are fewer: every difference of the
    result can be reached with the next button. *)
Theorem next_reaches_every_difference
    (diffLines diffWords : jsstring → jsstring → list Change)
    (st : useAdvancedComparison.HookState)
    (leftDoc rightDoc : DocumentStructure) (result : ComparisonResult) (k : nat) :
  useAdvancedComparison.leftDocument st = Some leftDoc →
  useAdvancedComparison.rightDocument st = Some rightDoc →
  AdvancedDiffEngine.compareDocuments diffLines diffWords leftDoc rightDoc = Ok result →
  differences result ≠ [] →
  let st' := Nat.iter k useAdvancedComparison.navigateToNext
               (useAdvancedComparison.compareDocuments diffLines diffWords st) in
  let reached := Z.min (Z.of_nat k) (Z.of_nat (length (differences result)) - 1) in
  useAdvancedComparison.comparisonResult st' = Some result
  ∧ useAdvancedComparison.currentDifferenceIndex
      (useAdvancedComparison.navigationState st') = reached
  ∧ useAdvancedComparison.selectedDifference (useAdvancedComparison.viewportState st')
    = diffId <$> at_ (differences result) reached.
Proof.
  intros Hleft Hright Hengine Hne. cbn zeta.
  pose proof (engine_ids_NoDup _ _ _ _ _ Hengine) as Hnodup.
  assert (0 < length (differences result))%nat as Hlen
    by (destruct (differences result); [done|cbn; lia]).
  induction k as [|k IH].
  - cbn [Nat.iter]. unfold useAdvancedComparison.compareDocuments.
    rewrite Hleft, Hright. cbn zeta. rewrite Hengine.
    destruct (differences result) as [|first rest] eqn:Hdiffs; [done|].
    cbn. rewrite decide_True by lia.
    rewrite Z.min_l by lia. done.
  - rewrite Nat.iter_succ. destruct IH as (Hres & Hcur & _).
    destruct (navigateToNext_select _ result Hres Hne ltac:(lia))
      as (d & Hat & ->).
    rewrite Hcur in Hat.
    replace (Z.min (Z.min (Z.of_nat k) (Z.of_nat (length (differences result)) - 1) + 1)
                   (Z.of_nat (length (differences result)) - 1))
      with (Z.min (Z.of_nat (S k)) (Z.of_nat (length (differences result)) - 1))
      in Hat by lia.
    destruct (selectDifference_at _ result _ d Hres Hnodup Hat)
      as (-> & -> & -> & _).
    by rewrite Hat.
Qed.

Lemma next_reaches_every_difference_witness :
  let st := hookRun ReferenceDiff.diffLines ReferenceDiff.diffWords
              [ProcessDocumentEnd useAdvancedComparison.leftSide
                 (inl (textDocument (js "a b")));
               ProcessDocumentEnd useAdvancedComparison.rightSide
                 (inl (textDocument (js "c b")))] in
  ∃ result,
    AdvancedDiffEngine.compareDocuments ReferenceDiff.diffLines ReferenceDiff.diffWords
      (textDocument (js "a b")) (textDocument (js "c b")) = Ok result
    ∧ length (differences result) = 4%nat
    ∧ useAdvancedComparison.currentDifferenceIndex
        (useAdvancedComparison.navigationState
           (Nat.iter 2 useAdvancedComparison.navigateToNext
              (useAdvancedComparison.compareDocuments
                 ReferenceDiff.diffLines ReferenceDiff.diffWords st))) = 2.
Proof.
  cbn zeta.
  destruct (AdvancedDiffEngine.compareDocuments
              ReferenceDiff.diffLines ReferenceDiff.diffWords
              (textDocument (js "a b")) (textDocument (js "c b")))
    as [result|e] eqn:Hres.
  - exists result.
    assert (length (differences result) = 4%nat) as Hlen
      by (revert Hres; vm_compute; by intros [= <-]).
    assert (differences result ≠ []) as Hne by (by destruct (differences result)).
    split; [done|]. split; [done|].
    pose proof (next_reaches_every_difference
                  ReferenceDiff.diffLines ReferenceDiff.diffWords
                  (hookRun ReferenceDiff.diffLines ReferenceDiff.diffWords
                     [ProcessDocumentEnd useAdvancedComparison.leftSide
                        (inl (textDocument (js "a b")));
                      ProcessDocumentEnd useAdvancedComparison.rightSide
                        (inl (textDocument (js "c b")))])
                  (textDocument (js "a b")) (textDocument (js "c b")) result 2
                  eq_refl eq_refl Hres Hne) as Hreach.
    cbn zeta in Hreach. destruct Hreach as (_ & Hindex & _).
    rewrite Hindex, Hlen. done.
  - exfalso. revert Hres. vm_compute. discriminate.
Defined.

(** X28: when the line script of the two documents has an unchanged part,
    the comparison of the hook does not fail: it stores the message of the
    TypeError of the engine in [errors.comparison], ends the loading, and
    leaves the earlier result, the navigation state and the viewport as they
    were. *)
Theorem compareDocuments_hook_error
    (diffLines diffWords : jsstring → jsstring → list Change)
    (st : useAdvancedComparison.HookState) (leftDoc rightDoc : DocumentStructure) :
  useAdvancedComparison.leftDocument st = Some leftDoc →
  useAdvancedComparison.rightDocument st = Some rightDoc →
  Exists isUnchanged
    (diffLines (extractFullContent leftDoc) (extractFullContent rightDoc)) →
  let st' := useAdvancedComparison.compareDocuments diffLines diffWords st in
  useAdvancedComparison.comparisonError (useAdvancedComparison.errors st')
  = Some "this.detectWordLevelChanges is not a function"%string
  ∧ useAdvancedComparison.comparing (useAdvancedComparison.isLoading st') = false
  ∧ useAdvancedComparison.comparisonResult st'
    = useAdvancedComparison.comparisonResult st
  ∧ useAdvancedComparison.navigationState st'
    = useAdvancedComparison.navigationState st
  ∧ useAdvancedComparison.viewportState st'
    = useAdvancedComparison.viewportState st.
Proof.
  intros Hleft Hright Hunchanged. cbn zeta.
  apply (compareDocuments_throws_iff diffLines diffWords) in Hunchanged.
  unfold useAdvancedComparison.compareDocuments.
  rewrite Hleft, Hright. cbn zeta. by rewrite Hunchanged.
Qed.

Lemma compareDocuments_hook_error_witness :
  let st := hookRun ReferenceDiff.diffLines ReferenceDiff.diffWords
              [ProcessDocumentEnd useAdvancedComparison.leftSide
                 (inl (textDocument (js "A")));
               ProcessDocumentEnd useAdvancedComparison.rightSide
                 (inl (textDocument (js "A")))] in
  Exists isUnchanged
    (ReferenceDiff.diffLines (extractFullContent (textDocument (js "A")))
                             (extractFullContent (textDocument (js "A"))))
  ∧ useAdvancedComparison.comparisonError
      (useAdvancedComparison.errors
         (useAdvancedComparison.compareDocuments
            ReferenceDiff.diffLines ReferenceDiff.diffWords st))
    = Some "this.detectWordLevelChanges is not a function"%string.
Proof.
  cbn zeta.
  assert (Exists isUnchanged
            (ReferenceDiff.diffLines (extractFullContent (textDocument (js "A")))
                                     (extractFullContent (textDocument (js "A")))))
    as Hunchanged by (apply (bool_decide_unpack _); by vm_compute).
  split; [exact Hunchanged|].
  exact (proj1 (compareDocuments_hook_error
                  ReferenceDiff.diffLines ReferenceDiff.diffWords
                  (hookRun ReferenceDiff.diffLines ReferenceDiff.diffWords
                     [ProcessDocumentEnd useAdvancedComparison.leftSide
                        (inl (textDocument (js "A")));
                      ProcessDocumentEnd useAdvancedComparison.rightSide
                        (inl (textDocument (js "A")))])
                  (textDocument (js "A")) (textDocument (js "A"))
                  eq_refl eq_refl Hunchanged)).
Defined.

Lemma filter_ne_idemp (id : jsstring) (l : list jsstring) :
  filter (λ x, x ≠ id) (filter (λ x, x ≠ id) l) = filter (λ x, x ≠ id) l.
Proof.
  induction l as [|x l IH]; [done|].
  rewrite filter_cons. case_decide; [|done].
  rewrite filter_cons, decide_True by done. by rewrite IH.
Qed.

(** X29: adding a bookmark puts the identifier last and leaves exactly one
    occurrence of it; removing it leaves none; both keep the other bookmarks
    in their order.  Removing after adding is the same as removing, and
    adding twice or adding after removing is the same as adding once. *)
Theorem bookmark_laws (id : jsstring) (st : useAdvancedComparison.HookState) :
  let bookmarksOf st :=
    useAdvancedComparison.bookmarks (useAdvancedComparison.navigationState st) in
  let added := bookmarksOf (useAdvancedComparison.addBookmark id st) in
  let removed := bookmarksOf (useAdvancedComparison.removeBookmark id st) in
  added = removed ++ [id]
  ∧ (id ∉ removed)
  ∧ removed `sublist_of` bookmarksOf st
  ∧ (∀ x, x ≠ id → (x ∈ removed ↔ x ∈ bookmarksOf st))
  ∧ useAdvancedComparison.removeBookmark id (useAdvancedComparison.addBookmark id st)
    = useAdvancedComparison.removeBookmark id st
  ∧ useAdvancedComparison.addBookmark id (useAdvancedComparison.removeBookmark id st)
    = useAdvancedComparison.addBookmark id st
  ∧ useAdvancedComparison.addBookmark id (useAdvancedComparison.addBookmark id st)
    = useAdvancedComparison.addBookmark id st.
Proof.
  cbn zeta. cbn. split; [done|]. split.
  { intros [Hne _]%list_elem_of_filter. by apply Hne. }
  split; [apply sublist_filter|]. split.
  { intros x Hx. rewrite list_elem_of_filter. tauto. }
  unfold useAdvancedComparison.removeBookmark, useAdvancedComparison.addBookmark,
    useAdvancedComparison.setNavigationState. cbn.
  rewrite filter_app, !filter_ne_idemp, filter_cons, decide_False by tauto.
  rewrite filter_nil, app_nil_r. done.
Qed.
